(** * A shallow embedding of the own-js/chan channel library

    The development follows the TypeScript sources:
    - [container.ts]: the ring buffer [Ring] and the waiter set [Actions];
    - [rw.ts]: the pools [Reader] / [Writer] and the rendezvous engine [RW],
      in the revision whose [tryRead] refills the buffer from a parked
      writer (the [tryRead] of the earlier revision is kept beside it);
    - [chan.ts]: the facade [Chan], the case objects and the async iterator;
    - [select.ts]: [selectChan] and its Fisher-Yates [shuffle].

    JavaScript objects live in a store keyed by object identity (a [nat]);
    closures are defunctionalised into the data they capture; [Math.random]
    is a supply of raw draws carried by the store. *)

From Stdlib Require Import ZArith.
From stdpp Require Import gmap strings list fin_maps.

Set Default Proof Using "Type".

(** ** JavaScript values carried by channels *)

Inductive jsval :=
  | VUndefined
  | VNull
  | VNum (n : Z)
  | VStr (s : string)
  | VError (msg : string).

#[global] Instance jsval_eq_dec : EqDecision jsval.
Proof. solve_decision. Defined.

(** [IteratorResult<T>]: [done] may be absent ([None]), as in the literal
    [{ value: w.invoke() }] of [RW.tryRead]. *)
Module IteratorResult.
Record t := mk { done : option bool; value : jsval }.
End IteratorResult.

(** [noResult] of container.ts. *)
Definition noResult : IteratorResult.t :=
  {| IteratorResult.done := Some true; IteratorResult.value := VUndefined |}.

(** Truthiness of an optional boolean property. *)
Definition truthy (b : option bool) : bool :=
  match b with Some true => true | _ => false end.

(** ** container.ts: [Ring] *)

Module Ring.

Record t := mk { arrs : list jsval; offset_ : nat; size_ : nat }.

(** [new Ring(new Array(n))]: every slot is a hole, read as [undefined]. *)
Definition create (n : nat) : t :=
  {| arrs := replicate n VUndefined; offset_ := 0; size_ := 0 |}.

Definition length (r : t) : nat := size_ r.
Definition capacity (r : t) : nat := List.length (arrs r).

(** [push(val)]: past the test the array is not full, so under [wf] its
    length is positive, the written index is below it and the assignment
    never extends the array. *)
Definition push (val : jsval) (r : t) : bool * t :=
  let size := size_ r in
  if size =? List.length (arrs r) then (false, r)
  else (true,
        {| arrs := <[(offset_ r + size) mod List.length (arrs r) := val]> (arrs r);
           offset_ := offset_ r;
           size_ := S (size_ r) |}).

(** [pop()], the overload returning an [IteratorResult] ([pop(true)]
    differs only in returning the bare value or [null]).  Under [wf] the
    nulled slot [offset_] is inside the array. *)
Definition pop (r : t) : IteratorResult.t * t :=
  let size := size_ r in
  if size =? 0 then (noResult, r)
  else
    let val := nth (offset_ r) (arrs r) VUndefined in
    let arrs' := <[offset_ r := VNull]> (arrs r) in
    let off := S (offset_ r) in
    let off' := if off =? List.length (arrs r) then 0 else off in
    ({| IteratorResult.done := Some false; IteratorResult.value := val |},
     {| arrs := arrs'; offset_ := off'; size_ := size_ r - 1 |}).

(** The class invariant established by the constructor. *)
Definition wf (r : t) : Prop :=
  size_ r ≤ List.length (arrs r) ∧
  (offset_ r < List.length (arrs r) ∨ (List.length (arrs r) = 0 ∧ offset_ r = 0)).

(** The buffered values, oldest first. *)
Definition contents (r : t) : list jsval :=
  map (λ k, nth ((offset_ r + k) mod List.length (arrs r)) (arrs r) VUndefined)
      (seq 0 (size_ r)).

End Ring.

(** ** container.ts: [Actions<T>] *)

Module Actions.
Section Actions.
Context {T : Type} `{Countable T}.

Record t := mk { actions : list T; keys : gmap T nat }.

Definition empty : t := {| actions := []; keys := ∅ |}.

Definition length (a : t) : nat := List.length (actions a).

(** [_pop()]: on an empty array the result is [undefined] ([None]) and no
    element changes. *)
Definition _pop (a : t) : option T * t :=
  (last (actions a), {| actions := removelast (actions a); keys := keys a |}).

Definition pop (a : t) : option T * t :=
  let '(val, a1) := _pop a in
  match val with
  | Some v => (val, {| actions := actions a1; keys := delete v (keys a1) |})
  | None => (val, a1)
  end.

(** [removeBy(i)]; "the caller needs to ensure that index i is valid".
    For an index past the end the source writes outside the array; the
    model returns [None] and leaves the set as [_pop] left it. *)
Definition removeBy (i : nat) (a : t) : option T * t :=
  let '(swap, a1) := _pop a in
  match swap with
  | None => (None, a1)
  | Some sw =>
      if i =? List.length (actions a1)
      then (Some sw, {| actions := actions a1; keys := delete sw (keys a1) |})
      else match actions a1 !! i with
           | Some val =>
               (Some val,
                {| actions := <[i := sw]> (actions a1);
                   keys := <[sw := i]> (delete val (keys a1)) |})
           | None => (None, a1)
           end
  end.

(** [remove(val)].  When the index is coherent, [i] is a position of the
    array and [swap] exists; otherwise the source would write outside the
    array, which the model leaves out. *)
Definition remove (val : T) (a : t) : t :=
  match keys a !! val with
  | None => a
  | Some i =>
      let '(swap, a1) := _pop a in
      let ks := delete val (keys a1) in
      if i =? List.length (actions a1)
      then {| actions := actions a1; keys := ks |}
      else match swap with
           | Some sw => {| actions := <[i := sw]> (actions a1); keys := <[sw := i]> ks |}
           | None => {| actions := actions a1; keys := ks |}
           end
  end.

Definition clear (a : t) : t := {| actions := []; keys := ∅ |}.

Definition push (val : T) (a : t) : t :=
  {| actions := actions a ++ [val];
     keys := <[val := List.length (actions a)]> (keys a) |}.

(** The index is the inverse of the array. *)
Definition coherent (a : t) : Prop :=
  ∀ i w, actions a !! i = Some w ↔ keys a !! w = Some i.

(** The invariant in the words of the specification. *)
Definition index_coherent (a : t) : Prop :=
  (∀ w, w ∈ actions a → ∃ i, keys a !! w = Some i ∧ actions a !! i = Some w) ∧
  (∀ w, w ∈ dom (keys a) ↔ w ∈ actions a).

End Actions.
Arguments t T {_ _}.
End Actions.

(** ** types.ts: result envelopes and options *)

Module ReadValue.
(** [closed: boolean | null] ([None] is [null]); an absent [reason] is
    [VUndefined]. *)
Record t := mk { closed : option bool; reason : jsval; ok : bool; value : jsval }.
End ReadValue.

Module WriteValue.
(** [ok] is kept optional because [_WriteCase.tryInvoke] compares it with
    [undefined]; [error?] is optional in the source. *)
Record t := mk { ok : option bool; error : option bool; reason : jsval }.
End WriteValue.

(** [ReadOptions] / [WriteOptions]; a signal is referred to by identity. *)
Record Options := mkOptions { signal : option nat; silent : bool }.

Definition no_options : Options := {| signal := None; silent := false |}.

(** [new ChannelError('channel already closed')]. *)
Definition ChannelClosed : jsval := VError "channel already closed".

(** ** The object store *)

(** The callback handed to [ChanCase.invoke]: the shared [cb] of a pending
    [selectChan] (named by its promise) or a caller's own function, of
    which only the invocations are recorded. *)
Inductive CaseCallback :=
  | SelectCb (p : nat)
  | UserCb (tag : nat).

(** The arrow functions passed to [RW.read] by [Chan.read] and by
    [_ReadCase.invoke]. *)
Inductive ReadCallback :=
  | ChanReadCb (p : nat)
  | ReadCaseCb (c : nat) (cb : CaseCallback).

(** The arrow functions passed to [RW.write] by [Chan.write] and by
    [_WriteCase.invoke]. *)
Inductive WriteCallback :=
  | ChanWriteCb (p : nat)
  | WriteCaseCb (c : nat) (cb : CaseCallback).

(** [ReadAction] and [WirteAction] objects of rw.ts. *)
Inductive Action :=
  | ReadAction (reader : option nat) (callback : option ReadCallback)
  | WirteAction (writer : option nat) (value : jsval) (callback : option WriteCallback).

Record Reader := mkReader { r_closed : bool; r_actions : Actions.t nat }.
Record Writer := mkWriter { w_closed_ : bool; w_actions : Actions.t nat }.

(** [RW<T>]; [list_] is the source's field [list], [closed_] the promise of
    the [Completer] created by [wait]. *)
Record RW := mkRW {
  list_ : option Ring.t;
  r_ : Reader;
  w_ : Writer;
  isClosed : bool;
  closed_ : option nat
}.

(** [_ReadCase] and [_WriteCase] objects with their outcome slot [value_]. *)
Inductive Case :=
  | ReadCase (ch : nat) (value_ : option ReadValue.t)
  | WriteCase (ch : nat) (val : jsval) (value_ : option WriteValue.t).

(** What a promise of the library settles to. *)
Inductive Settled :=
  | SRead (v : ReadValue.t)
  | SWrite (v : WriteValue.t)
  | SCase (c : nat)
  | SAborted (reason : jsval)
  | SNull.

Inductive Promise :=
  | Pending
  | Resolved (v : Settled)
  | Rejected (e : jsval).

(** The variables captured by the executor of each promise. *)
Inductive Closure :=
  | ReadClosure (action : nat) (opts : Options)
  | WriteClosure (action : nat) (opts : Options)
  | SelectClosure (conns : list nat) (opts : Options)
  | EmptySelectClosure (sig : nat) (silent : bool).

(** An [AbortSignal]: [listeners] are the promises whose [onAbort] is
    subscribed. *)
Record Signal := mkSignal { aborted : bool; sreason : jsval; listeners : list nat }.

Record World := mkWorld {
  chans : gmap nat RW;
  acts : gmap nat Action;
  cases : gmap nat Case;
  promises : gmap nat Promise;
  closures : gmap nat Closure;
  signals : gmap nat Signal;
  calls : list (nat * nat * bool * jsval);
  rng : list nat;
  next : nat
}.

Definition empty_world (draws : list nat) : World :=
  {| chans := ∅; acts := ∅; cases := ∅; promises := ∅; closures := ∅;
     signals := ∅; calls := []; rng := draws; next := 0 |}.

Definition set_chans (f : gmap nat RW → gmap nat RW) (w : World) : World :=
  {| chans := f (chans w); acts := acts w; cases := cases w; promises := promises w;
     closures := closures w; signals := signals w; calls := calls w; rng := rng w;
     next := next w |}.
Definition set_acts (f : gmap nat Action → gmap nat Action) (w : World) : World :=
  {| chans := chans w; acts := f (acts w); cases := cases w; promises := promises w;
     closures := closures w; signals := signals w; calls := calls w; rng := rng w;
     next := next w |}.
Definition set_cases (f : gmap nat Case → gmap nat Case) (w : World) : World :=
  {| chans := chans w; acts := acts w; cases := f (cases w); promises := promises w;
     closures := closures w; signals := signals w; calls := calls w; rng := rng w;
     next := next w |}.
Definition set_promises (f : gmap nat Promise → gmap nat Promise) (w : World) : World :=
  {| chans := chans w; acts := acts w; cases := cases w; promises := f (promises w);
     closures := closures w; signals := signals w; calls := calls w; rng := rng w;
     next := next w |}.
Definition set_closures (f : gmap nat Closure → gmap nat Closure) (w : World) : World :=
  {| chans := chans w; acts := acts w; cases := cases w; promises := promises w;
     closures := f (closures w); signals := signals w; calls := calls w; rng := rng w;
     next := next w |}.
Definition set_signals (f : gmap nat Signal → gmap nat Signal) (w : World) : World :=
  {| chans := chans w; acts := acts w; cases := cases w; promises := promises w;
     closures := closures w; signals := f (signals w); calls := calls w; rng := rng w;
     next := next w |}.
Definition set_calls (f : list (nat * nat * bool * jsval) → list (nat * nat * bool * jsval))
    (w : World) : World :=
  {| chans := chans w; acts := acts w; cases := cases w; promises := promises w;
     closures := closures w; signals := signals w; calls := f (calls w); rng := rng w;
     next := next w |}.
Definition set_rng (f : list nat → list nat) (w : World) : World :=
  {| chans := chans w; acts := acts w; cases := cases w; promises := promises w;
     closures := closures w; signals := signals w; calls := calls w; rng := f (rng w);
     next := next w |}.
Definition set_next (f : nat → nat) (w : World) : World :=
  {| chans := chans w; acts := acts w; cases := cases w; promises := promises w;
     closures := closures w; signals := signals w; calls := calls w; rng := rng w;
     next := f (next w) |}.

Definition set_r_ (f : Reader → Reader) (rw : RW) : RW :=
  {| list_ := list_ rw; r_ := f (r_ rw); w_ := w_ rw; isClosed := isClosed rw;
     closed_ := closed_ rw |}.
Definition set_w_ (f : Writer → Writer) (rw : RW) : RW :=
  {| list_ := list_ rw; r_ := r_ rw; w_ := f (w_ rw); isClosed := isClosed rw;
     closed_ := closed_ rw |}.
Definition set_list_ (f : option Ring.t → option Ring.t) (rw : RW) : RW :=
  {| list_ := f (list_ rw); r_ := r_ rw; w_ := w_ rw; isClosed := isClosed rw;
     closed_ := closed_ rw |}.
Definition set_isClosed (b : bool) (rw : RW) : RW :=
  {| list_ := list_ rw; r_ := r_ rw; w_ := w_ rw; isClosed := b; closed_ := closed_ rw |}.
Definition set_closed_ (c : option nat) (rw : RW) : RW :=
  {| list_ := list_ rw; r_ := r_ rw; w_ := w_ rw; isClosed := isClosed rw; closed_ := c |}.
Definition set_r_actions (f : Actions.t nat → Actions.t nat) (r : Reader) : Reader :=
  {| r_closed := r_closed r; r_actions := f (r_actions r) |}.
Definition set_w_actions (f : Actions.t nat → Actions.t nat) (x : Writer) : Writer :=
  {| w_closed_ := w_closed_ x; w_actions := f (w_actions x) |}.

(** ** Computations: a result or a thrown value, over the store *)

Inductive Outcome (A : Type) :=
  | Return (a : A)
  | Throw (e : jsval).
Arguments Return {A} a.
Arguments Throw {A} e.

Definition M (A : Type) : Type := World → Outcome A * World.

#[global] Instance M_ret : MRet M := λ A a w, (Return a, w).
#[global] Instance M_bind : MBind M := λ A B f m w,
  match m w with
  | (Return a, w') => f a w'
  | (Throw e, w') => (Throw e, w')
  end.

Definition throw {A} (e : jsval) : M A := λ w, (Throw e, w).
Definition effect (f : World → World) : M unit := λ w, (Return (), f w).
Definition gets {A} (f : World → A) : M A := λ w, (Return (f w), w).

(** A method call on an object that does not exist. *)
Definition TypeError : jsval := VError "TypeError".

Definition get_rw (ch : nat) : M RW := λ w,
  match chans w !! ch with
  | Some rw => (Return rw, w)
  | None => (Throw TypeError, w)
  end.

Definition fresh : M nat := λ w, (Return (next w), set_next S w).

(** [Math.floor(Math.random() * n)] for [n >= 1]: some index below [n]. *)
Definition random_index (n : nat) : M nat := λ w,
  (Return (hd 0 (rng w) mod n), set_rng (λ l, tl l) w).

(** ** Promises and abort signals (host objects) *)

Definition settle (p : nat) (s : Promise) (w : World) : World :=
  match promises w !! p with
  | Some Pending => set_promises <[p := s]> w
  | _ => w
  end.
Definition resolve (p : nat) (v : Settled) : World → World := settle p (Resolved v).
Definition reject (p : nat) (e : jsval) : World → World := settle p (Rejected e).

Definition new_Promise : M nat :=
  p ← fresh; _ ← effect (set_promises <[p := Pending]>); mret p.

(** Modelled from the spec: [new Completer()] of the class [Completer] that
    rw.ts imports from './completer', a file that is not among the sources.
    The spec has it as the channel's "optional one-shot close-notifier", and
    waiting for the close returns "a shared future that resolves when
    [close()] is called": a completer is taken to be a future that starts
    pending, and is identified with it ([promise] is the identity). *)
Definition new_Completer : M nat := new_Promise.

(** Modelled from the spec: [resolve(v)] of the same class [Completer],
    "resolve the close-notifier": the future is resolved with [v], and
    being one-shot it is settled at most once. *)
Definition Completer_resolve (c : nat) (v : Settled) : World → World := resolve c v.

Definition set_listeners (f : list nat → list nat) (sg : Signal) : Signal :=
  {| aborted := aborted sg; sreason := sreason sg; listeners := f (listeners sg) |}.

(** [signal?.addEventListener('abort', onAbort, { once: true })]. *)
Definition addEventListener (sig : option nat) (p : nat) (w : World) : World :=
  match sig with
  | Some s => set_signals (alter (set_listeners (λ l, l ++ [p])) s) w
  | None => w
  end.

(** [signal?.removeEventListener('abort', onAbort)]. *)
Definition removeEventListener (sig : option nat) (p : nat) (w : World) : World :=
  match sig with
  | Some s => set_signals (alter (set_listeners (filter (λ q, q ≠ p))) s) w
  | None => w
  end.

(** [signal?.aborted] and [signal?.reason]. *)
Definition signal_aborted (sig : option nat) (w : World) : bool :=
  match sig with
  | Some s => match signals w !! s with Some sg => aborted sg | None => false end
  | None => false
  end.
Definition signal_reason (sig : option nat) (w : World) : jsval :=
  match sig with
  | Some s => match signals w !! s with Some sg => sreason sg | None => VUndefined end
  | None => VUndefined
  end.

(** [new AbortController()]. *)
Definition new_AbortController : M nat :=
  s ← fresh;
  _ ← effect (set_signals <[s := {| aborted := false; sreason := VUndefined; listeners := [] |}]>);
  mret s.

(** ** rw.ts: actions and pools *)

Definition modify_reader (ch : nat) (f : Actions.t nat → Actions.t nat) : World → World :=
  set_chans (alter (set_r_ (set_r_actions f)) ch).
Definition modify_writer (ch : nat) (f : Actions.t nat → Actions.t nat) : World → World :=
  set_chans (alter (set_w_ (set_w_actions f)) ch).

(** [Reader.disconnect(action)] and [Writer.disconnect(action)].  The later
    revision of rw.ts also pushes the action on the static free list
    [Reader.list] / [Writer.list], from which [Reader.create] takes an
    object back for a later [connect] ([Writer.create] takes one back and
    still returns a new object).  The free lists are not part of this
    model: every connection has an identity of its own, so a handle that is
    used again after its [disconnect()] names no later waiter here. *)
Definition Reader_disconnect (ch action : nat) : World → World :=
  modify_reader ch (Actions.remove action).
Definition Writer_disconnect (ch action : nat) : World → World :=
  modify_writer ch (Actions.remove action).

(** [conn.disconet()], as chan.ts and select.ts call it through the
    [Connection] interface.  The earlier revision of rw.ts defines the
    method under this name, as [this.reader.disconet(this)], which is
    [actions.remove(action)]; the later revision, whose [tryRead] is the
    one embedded here, spells it [disconnect()] and clears the fields of
    the action first, and it has no method of the old name, so that against
    the later revision alone the call made by chan.ts and select.ts raises
    a TypeError.  The call is given the later body; on the pools that is
    what the earlier body does. *)
Definition Connection_disconnect (a : nat) (w : World) : World :=
  match acts w !! a with
  | Some (ReadAction (Some reader) _) =>
      Reader_disconnect reader a (set_acts <[a := ReadAction None None]> w)
  | Some (WirteAction (Some writer) _ _) =>
      Writer_disconnect writer a (set_acts <[a := WirteAction None VUndefined None]> w)
  | _ => w
  end.

(** The loop [for (const conn of conns) conn.disconet()] of [cleanup]. *)
Definition disconnect_all (conns : list nat) (w : World) : World :=
  foldl (λ w' conn, Connection_disconnect conn w') w conns.

(** The shared callback [cb] of [selectChan], or a caller's callback. *)
Definition CaseCallback_call (cb : CaseCallback) (c : nat) (hasError : bool)
    (reason : jsval) (w : World) : World :=
  match cb with
  | UserCb tag => set_calls (λ l, l ++ [(tag, c, hasError, reason)]) w
  | SelectCb p =>
      match closures w !! p with
      | Some (SelectClosure conns opts) =>
          let w1 := removeEventListener (signal opts) p w in
          let w2 := disconnect_all conns w1 in
          if hasError then
            if silent opts then resolve p (SAborted reason) w2 else reject p reason w2
          else resolve p (SCase c) w2
      | _ => w
      end
  end.

Definition set_read_value_ (v : option ReadValue.t) (cs : Case) : Case :=
  match cs with
  | ReadCase ch _ => ReadCase ch v
  | WriteCase ch val old => WriteCase ch val old
  end.
Definition set_write_value_ (v : option WriteValue.t) (cs : Case) : Case :=
  match cs with
  | ReadCase ch old => ReadCase ch old
  | WriteCase ch val _ => WriteCase ch val v
  end.

(** The callbacks given to [RW.read]. *)
Definition ReadCallback_call (cb : ReadCallback) (val : IteratorResult.t) (w : World) : World :=
  match cb with
  | ChanReadCb p =>
      match closures w !! p with
      | Some (ReadClosure _ opts) =>
          let w1 := removeEventListener (signal opts) p w in
          resolve p
            (SRead (if truthy (IteratorResult.done val)
                    then {| ReadValue.closed := Some true; ReadValue.reason := VUndefined;
                            ReadValue.ok := false; ReadValue.value := VNull |}
                    else {| ReadValue.closed := Some false; ReadValue.reason := VUndefined;
                            ReadValue.ok := true;
                            ReadValue.value := IteratorResult.value val |})) w1
      | _ => w
      end
  | ReadCaseCb c cb' =>
      let v :=
        if truthy (IteratorResult.done val)
        then {| ReadValue.closed := Some true; ReadValue.reason := VUndefined;
                ReadValue.ok := true; ReadValue.value := IteratorResult.value val |}
        else {| ReadValue.closed := Some false; ReadValue.reason := VUndefined;
                ReadValue.ok := true; ReadValue.value := IteratorResult.value val |} in
      CaseCallback_call cb' c false VUndefined
        (set_cases (alter (set_read_value_ (Some v)) c) w)
  end.

(** The callbacks given to [RW.write]; [val] is [true] or [undefined]. *)
Definition WriteCallback_call (cb : WriteCallback) (val : option bool) (reason : jsval)
    (w : World) : World :=
  match cb with
  | ChanWriteCb p =>
      match closures w !! p with
      | Some (WriteClosure _ opts) =>
          let w1 := removeEventListener (signal opts) p w in
          match val with
          | None =>
              if silent opts
              then resolve p (SWrite {| WriteValue.ok := Some false;
                                        WriteValue.error := Some true;
                                        WriteValue.reason := reason |}) w1
              else reject p reason w1
          | Some ok =>
              resolve p (SWrite {| WriteValue.ok := Some ok; WriteValue.error := None;
                                   WriteValue.reason := VUndefined |}) w1
          end
      | _ => w
      end
  | WriteCaseCb c cb' =>
      match val with
      | None =>
          CaseCallback_call cb' c true reason
            (set_cases (alter (set_write_value_
               (Some {| WriteValue.ok := Some false; WriteValue.error := Some true;
                        WriteValue.reason := reason |})) c) w)
      | Some _ =>
          CaseCallback_call cb' c false VUndefined
            (set_cases (alter (set_write_value_
               (Some {| WriteValue.ok := Some true; WriteValue.error := None;
                        WriteValue.reason := VUndefined |})) c) w)
      end
  end.

(** [ReadAction.invoke(val)]. *)
Definition ReadAction_invoke (a : nat) (val : IteratorResult.t) (w : World) : World :=
  match acts w !! a with
  | Some (ReadAction _ (Some cb)) => ReadCallback_call cb val w
  | _ => w
  end.

(** [WirteAction.invoke()] and [WirteAction.close(reason)]. *)
Definition WirteAction_invoke (a : nat) (w : World) : World :=
  match acts w !! a with
  | Some (WirteAction _ _ (Some cb)) => WriteCallback_call cb (Some true) VUndefined w
  | _ => w
  end.
Definition WirteAction_close (a : nat) (reason : jsval) (w : World) : World :=
  match acts w !! a with
  | Some (WirteAction _ _ (Some cb)) => WriteCallback_call cb None reason w
  | _ => w
  end.
Definition WirteAction_value (a : nat) (w : World) : jsval :=
  match acts w !! a with
  | Some (WirteAction _ v _) => v
  | _ => VUndefined
  end.

Definition reader_actions (ch : nat) (w : World) : Actions.t nat :=
  match chans w !! ch with
  | Some rw => r_actions (r_ rw)
  | None => Actions.empty
  end.
Definition writer_actions (ch : nat) (w : World) : Actions.t nat :=
  match chans w !! ch with
  | Some rw => w_actions (w_ rw)
  | None => Actions.empty
  end.

(** [Reader.invoke(val)]: "Give the data to a random reader". *)
Definition Reader_invoke (ch : nat) (val : IteratorResult.t) : M unit :=
  rw ← get_rw ch;
  let actions := r_actions (r_ rw) in
  match Actions.length actions with
  | 0 => throw (VError "reader empty")
  | 1 =>
      let '(a, rest) := Actions.pop actions in
      _ ← effect (modify_reader ch (λ _, rest));
      match a with
      | Some a => effect (ReadAction_invoke a val)
      | None => throw TypeError
      end
  | n =>
      i ← random_index n;
      let '(a, rest) := Actions.removeBy i actions in
      _ ← effect (modify_reader ch (λ _, rest));
      match a with
      | Some a => effect (ReadAction_invoke a val)
      | None => throw TypeError
      end
  end.

(** [for (const action of actions) action.invoke(noResult)]: the iterator
    walks the live array by index, so removals made by a callback are seen.
    Callbacks never add waiters, so the length of the pool at the start is
    fuel enough ([Reader_close_loop_fuel]). *)
Fixpoint Reader_close_loop (fuel i ch : nat) (w : World) : World :=
  match fuel with
  | 0 => w
  | S fuel' =>
      match Actions.actions (reader_actions ch w) !! i with
      | Some a => Reader_close_loop fuel' (S i) ch (ReadAction_invoke a noResult w)
      | None => w
      end
  end.

Definition Reader_close (ch : nat) : M unit :=
  rw ← get_rw ch;
  if r_closed (r_ rw) then mret ()
  else
    _ ← effect (set_chans (alter (set_r_ (λ r, {| r_closed := true;
                                                  r_actions := r_actions r |})) ch));
    let n := Actions.length (r_actions (r_ rw)) in
    if n =? 0 then mret ()
    else
      _ ← effect (Reader_close_loop n 0 ch);
      effect (modify_reader ch Actions.clear).

(** [Reader.connect(callback)]: the action is a new object; see
    [Reader_disconnect] for the free list of [Reader.create]. *)
Definition Reader_connect (ch : nat) (callback : ReadCallback) : M nat :=
  action ← fresh;
  _ ← effect (set_acts <[action := ReadAction (Some ch) (Some callback)]>);
  _ ← effect (modify_reader ch (Actions.push action));
  mret action.

(** [Writer.invoke()]: the value is read before the callback runs. *)
Definition Writer_invoke (ch : nat) : M jsval :=
  rw ← get_rw ch;
  let actions := w_actions (w_ rw) in
  match Actions.length actions with
  | 0 => throw (VError "writer empty")
  | 1 =>
      let '(p, rest) := Actions.pop actions in
      _ ← effect (modify_writer ch (λ _, rest));
      match p with
      | Some p =>
          val ← gets (WirteAction_value p);
          _ ← effect (WirteAction_invoke p);
          mret val
      | None => throw TypeError
      end
  | n =>
      i ← random_index n;
      let '(p, rest) := Actions.removeBy i actions in
      _ ← effect (modify_writer ch (λ _, rest));
      match p with
      | Some p =>
          val ← gets (WirteAction_value p);
          _ ← effect (WirteAction_invoke p);
          mret val
      | None => throw TypeError
      end
  end.

Fixpoint Writer_close_loop (fuel i ch : nat) (err : jsval) (w : World) : World :=
  match fuel with
  | 0 => w
  | S fuel' =>
      match Actions.actions (writer_actions ch w) !! i with
      | Some a => Writer_close_loop fuel' (S i) ch err (WirteAction_close a err w)
      | None => w
      end
  end.

Definition Writer_close (ch : nat) : M unit :=
  rw ← get_rw ch;
  if w_closed_ (w_ rw) then mret ()
  else
    _ ← effect (set_chans (alter (set_w_ (λ x, {| w_closed_ := true;
                                                  w_actions := w_actions x |})) ch));
    let n := Actions.length (w_actions (w_ rw)) in
    if n =? 0 then mret ()
    else
      _ ← effect (Writer_close_loop n 0 ch ChannelClosed);
      effect (modify_writer ch Actions.clear).

(** [Writer.connect(value, callback)]. *)
Definition Writer_connect (ch : nat) (val : jsval) (callback : WriteCallback) : M nat :=
  action ← fresh;
  _ ← effect (set_acts <[action := WirteAction (Some ch) val (Some callback)]>);
  _ ← effect (modify_writer ch (Actions.push action));
  mret action.

(** ** rw.ts: the rendezvous engine [RW] *)

(** [new RW(buf)]. *)
Definition RW_create (buf : Z) : RW :=
  {| list_ := if (0 <? buf)%Z then Some (Ring.create (Z.to_nat buf)) else None;
     r_ := {| r_closed := false; r_actions := Actions.empty |};
     w_ := {| w_closed_ := false; w_actions := Actions.empty |};
     isClosed := false;
     closed_ := None |}.

(** [list.pop()] and [list.push(val)] on the ring of channel [ch]. *)
Definition list_pop (ch : nat) : M IteratorResult.t := λ w,
  match chans w !! ch with
  | Some rw =>
      match list_ rw with
      | Some list =>
          let '(result, list') := Ring.pop list in
          (Return result, set_chans <[ch := set_list_ (λ _, Some list') rw]> w)
      | None => (Throw TypeError, w)
      end
  | None => (Throw TypeError, w)
  end.
Definition list_push (ch : nat) (val : jsval) : M bool := λ w,
  match chans w !! ch with
  | Some rw =>
      match list_ rw with
      | Some list =>
          let '(b, list') := Ring.push val list in
          (Return b, set_chans <[ch := set_list_ (λ _, Some list') rw]> w)
      | None => (Throw TypeError, w)
      end
  | None => (Throw TypeError, w)
  end.

Definition Writer_isEmpty (ch : nat) : M bool :=
  rw ← get_rw ch; mret (Actions.length (w_actions (w_ rw)) =? 0).
Definition Reader_isEmpty (ch : nat) : M bool :=
  rw ← get_rw ch; mret (Actions.length (r_actions (r_ rw)) =? 0).

(** The part of [RW.tryRead] after the cache: "closed?", "read from writer". *)
Definition RW_tryRead_uncached (ch : nat) : M (option IteratorResult.t) :=
  rw ← get_rw ch;
  if isClosed rw then mret None
  else
    isEmpty ← Writer_isEmpty ch;
    if (isEmpty : bool) then mret (Some noResult)
    else
      v ← Writer_invoke ch;
      mret (Some {| IteratorResult.done := None; IteratorResult.value := v |}).

(** [RW.tryRead()]: [None] is [undefined] (closed and drained),
    [Some noResult] is "nothing to read now". *)
Definition RW_tryRead (ch : nat) : M (option IteratorResult.t) :=
  rw ← get_rw ch;
  match list_ rw with
  | Some _ =>
      result ← list_pop ch;
      if negb (truthy (IteratorResult.done result)) then
        isEmpty ← Writer_isEmpty ch;
        _ ← (if negb (isEmpty : bool)
             then v ← Writer_invoke ch; _ ← list_push ch v; mret ()
             else mret ());
        mret (Some result)
      else RW_tryRead_uncached ch
  | None => RW_tryRead_uncached ch
  end.

(** [RW.tryRead()] as it stood in the earlier revision of rw.ts: a value
    popped from the buffer is returned at once, no parked writer is
    invoked. *)
Definition RW_tryRead_earlier (ch : nat) : M (option IteratorResult.t) :=
  rw ← get_rw ch;
  match list_ rw with
  | Some _ =>
      result ← list_pop ch;
      if negb (truthy (IteratorResult.done result)) then mret (Some result)
      else RW_tryRead_uncached ch
  | None => RW_tryRead_uncached ch
  end.

(** [RW.read(callback)] and [RW.write(val, callback)]. *)
Definition RW_read (ch : nat) (callback : ReadCallback) : M nat :=
  Reader_connect ch callback.
Definition RW_write (ch : nat) (val : jsval) (callback : WriteCallback) : M nat :=
  Writer_connect ch val callback.

(** [RW.tryWrite(val)]: [None] is [undefined] (closed). *)
Definition RW_tryWrite (ch : nat) (val : jsval) : M (option bool) :=
  rw ← get_rw ch;
  if isClosed rw then mret None
  else
    isEmpty ← Reader_isEmpty ch;
    if (isEmpty : bool) then
      match list_ rw with
      | Some _ => b ← list_push ch val; mret (Some b)
      | None => mret (Some false)
      end
    else
      _ ← Reader_invoke ch {| IteratorResult.done := None; IteratorResult.value := val |};
      mret (Some true).

(** [RW.close()]. *)
Definition RW_close (ch : nat) : M bool :=
  rw ← get_rw ch;
  if isClosed rw then mret false
  else
    _ ← effect (set_chans (alter (set_isClosed true) ch));
    _ ← Writer_close ch;
    _ ← Reader_close ch;
    _ ← match closed_ rw with
        | Some closed =>
            _ ← effect (set_chans (alter (set_closed_ None) ch));
            effect (Completer_resolve closed SNull)
        | None => mret ()
        end;
    mret true.

(** [RW.wait()]: [None] is [null], otherwise the completer's promise. *)
Definition RW_wait (ch : nat) : M (option nat) :=
  rw ← get_rw ch;
  if isClosed rw then mret None
  else
    match closed_ rw with
    | Some closed => mret (Some closed)
    | None =>
        closed ← new_Completer;
        _ ← effect (set_chans (alter (set_closed_ (Some closed)) ch));
        mret (Some closed)
    end.

(** ** chan.ts: the facade [Chan] *)

(** [new Chan(buf)]; the capacity is an integer here, so [Math.floor] is
    the identity, and the allocation of the array is taken to succeed. *)
Definition new_Chan (buf : Z) : M nat :=
  ch ← fresh;
  _ ← effect (set_chans <[ch := RW_create buf]>);
  mret ch.

Definition Chan_tryRead (ch : nat) (opts : Options) : M ReadValue.t :=
  aborted ← gets (signal_aborted (signal opts));
  if (aborted : bool) then
    reason ← gets (signal_reason (signal opts));
    if silent opts
    then mret {| ReadValue.closed := None; ReadValue.reason := reason;
                 ReadValue.ok := false; ReadValue.value := VNull |}
    else throw reason
  else
    val ← RW_tryRead ch;
    match val with
    | None =>
        mret {| ReadValue.closed := Some true; ReadValue.reason := VUndefined;
                ReadValue.ok := false; ReadValue.value := VNull |}
    | Some val =>
        if truthy (IteratorResult.done val)
        then mret {| ReadValue.closed := Some false; ReadValue.reason := VUndefined;
                     ReadValue.ok := false; ReadValue.value := VNull |}
        else mret {| ReadValue.closed := Some false; ReadValue.reason := VUndefined;
                     ReadValue.ok := true; ReadValue.value := IteratorResult.value val |}
    end.

(** [val.closed !== false]. *)
Definition closed_isnt_false (c : option bool) : bool :=
  match c with Some false => false | _ => true end.

(** [Chan.read(opts)]: the envelope, or the promise of one. *)
Definition Chan_read (ch : nat) (opts : Options) : M (ReadValue.t + nat) :=
  val ← Chan_tryRead ch opts;
  if closed_isnt_false (ReadValue.closed val) || ReadValue.ok val then mret (inl val)
  else
    p ← new_Promise;
    action ← RW_read ch (ChanReadCb p);
    _ ← effect (set_closures <[p := ReadClosure action opts]>);
    _ ← effect (addEventListener (signal opts) p);
    mret (inr p).

Definition Chan_tryWrite (ch : nat) (val : jsval) (opts : Options) : M WriteValue.t :=
  aborted ← gets (signal_aborted (signal opts));
  if (aborted : bool) then
    reason ← gets (signal_reason (signal opts));
    if silent opts
    then mret {| WriteValue.ok := Some false; WriteValue.error := Some true;
                 WriteValue.reason := reason |}
    else throw reason
  else
    result ← RW_tryWrite ch val;
    match result with
    | None =>
        let err := ChannelClosed in
        if silent opts
        then mret {| WriteValue.ok := Some false; WriteValue.error := Some true;
                     WriteValue.reason := err |}
        else throw err
    | Some true =>
        mret {| WriteValue.ok := Some true; WriteValue.error := None;
                WriteValue.reason := VUndefined |}
    | Some false =>
        mret {| WriteValue.ok := Some false; WriteValue.error := None;
                WriteValue.reason := VUndefined |}
    end.

Definition Chan_write (ch : nat) (val : jsval) (opts : Options) : M (WriteValue.t + nat) :=
  value ← Chan_tryWrite ch val opts;
  if truthy (WriteValue.ok value) || truthy (WriteValue.error value) then mret (inl value)
  else
    p ← new_Promise;
    action ← RW_write ch val (ChanWriteCb p);
    _ ← effect (set_closures <[p := WriteClosure action opts]>);
    _ ← effect (addEventListener (signal opts) p);
    mret (inr p).

Definition Chan_close (ch : nat) : M bool := RW_close ch.
Definition Chan_wait (ch : nat) : M (option nat) := RW_wait ch.

Definition Chan_readCase (ch : nat) : M nat :=
  c ← fresh; _ ← effect (set_cases <[c := ReadCase ch None]>); mret c.
Definition Chan_writeCase (ch : nat) (val : jsval) : M nat :=
  c ← fresh; _ ← effect (set_cases <[c := WriteCase ch val None]>); mret c.

(** ** chan.ts: [_ReadCase] and [_WriteCase] *)

Definition get_case (c : nat) : M Case := λ w,
  match cases w !! c with
  | Some cs => (Return cs, w)
  | None => (Throw TypeError, w)
  end.

(** [reset()]. *)
Definition Case_reset (c : nat) : M unit :=
  cs ← get_case c;
  match cs with
  | ReadCase _ _ => effect (set_cases (alter (set_read_value_ None) c))
  | WriteCase _ _ _ => effect (set_cases (alter (set_write_value_ None) c))
  end.

(** [_ReadCase.tryInvoke()]. *)
Definition ReadCase_tryInvoke (c ch : nat) : M bool :=
  val ← RW_tryRead ch;
  match val with
  | None =>
      _ ← effect (set_cases (alter (set_read_value_
             (Some {| ReadValue.closed := Some true; ReadValue.reason := VUndefined;
                      ReadValue.ok := false; ReadValue.value := VNull |})) c));
      mret true
  | Some val =>
      if truthy (IteratorResult.done val) then mret false
      else
        _ ← effect (set_cases (alter (set_read_value_
               (Some {| ReadValue.closed := Some false; ReadValue.reason := VUndefined;
                        ReadValue.ok := true;
                        ReadValue.value := IteratorResult.value val |})) c));
        mret true
  end.

(** [_WriteCase.tryInvoke(silent)]. *)
Definition WriteCase_tryInvoke (c ch : nat) (v : jsval) (silent : bool) : M bool :=
  val ← Chan_tryWrite ch v {| signal := None; silent := silent |};
  match WriteValue.ok val with
  | None =>
      _ ← effect (set_cases (alter (set_write_value_
             (Some {| WriteValue.ok := Some false; WriteValue.error := Some true;
                      WriteValue.reason := WriteValue.reason val |})) c));
      mret true
  | Some true =>
      _ ← effect (set_cases (alter (set_write_value_
             (Some {| WriteValue.ok := Some true; WriteValue.error := None;
                      WriteValue.reason := VUndefined |})) c));
      mret true
  | Some false => mret false
  end.

Definition Case_tryInvoke (c : nat) (silent : bool) : M bool :=
  cs ← get_case c;
  match cs with
  | ReadCase ch _ => ReadCase_tryInvoke c ch
  | WriteCase ch v _ => WriteCase_tryInvoke c ch v silent
  end.

(** [invoke(cb)]: parks the operation and returns the connection. *)
Definition Case_invoke (c : nat) (cb : CaseCallback) : M nat :=
  cs ← get_case c;
  match cs with
  | ReadCase ch _ => RW_read ch (ReadCaseCb c cb)
  | WriteCase ch v _ => RW_write ch v (WriteCaseCb c cb)
  end.

(** The accessors [read()] and [write()]. *)
Definition ReadCase_read (c : nat) (w : World) : option ReadValue.t :=
  match cases w !! c with
  | Some (ReadCase _ v) => v
  | _ => None
  end.
Definition WriteCase_write (c : nat) (w : World) : option WriteValue.t :=
  match cases w !! c with
  | Some (WriteCase _ _ v) => v
  | _ => None
  end.

(** ** select.ts: [selectChan] *)

Module SelectOptions.
Record t := mk {
  default : bool;
  silent : bool;
  signal : option nat;
  chans : option (list (option nat))
}.
End SelectOptions.

(** What [selectChan] returns: a case, [null], an [Aborted] envelope, a
    promise, or the shared [neverPromise]. *)
Inductive SelectResult :=
  | SelCase (c : nat)
  | SelNull
  | SelAborted (reason : jsval)
  | SelPromise (p : nat)
  | SelNever.

(** [shuffle(arrs, c)]: one Fisher-Yates pass from the top. *)
Fixpoint shuffle (arrs : list nat) (c : nat) : M (list nat) :=
  match c with
  | 0 => mret arrs
  | S c' =>
      r ← random_index c;
      match arrs !! c', arrs !! r with
      | Some x, Some y => shuffle (<[r := x]> (<[c' := y]> arrs)) c'
      | _, _ => shuffle arrs c'
      end
  end.

(** [for (const chan of chans) chan.reset()]. *)
Fixpoint reset_all (cs : list nat) : M unit :=
  match cs with
  | [] => mret ()
  | c :: rest => _ ← Case_reset c; reset_all rest
  end.

(** The "check ready case" loop: the first case whose [tryInvoke] is true. *)
Fixpoint try_cases (cs : list nat) (silent : bool) : M (option nat) :=
  match cs with
  | [] => mret None
  | c :: rest =>
      b ← Case_tryInvoke c silent;
      if (b : bool) then mret (Some c) else try_cases rest silent
  end.

(** [conns[i] = chans[i].invoke(cb)] for every case. *)
Fixpoint arm_all (cs : list nat) (cb : CaseCallback) : M (list nat) :=
  match cs with
  | [] => mret []
  | c :: rest =>
      conn ← Case_invoke c cb;
      conns ← arm_all rest cb;
      mret (conn :: conns)
  end.

Definition selectChan (opts : SelectOptions.t) : M SelectResult :=
  let signal := SelectOptions.signal opts in
  let silent := SelectOptions.silent opts in
  aborted ← gets (signal_aborted signal);
  if (aborted : bool) then
    reason ← gets (signal_reason signal);
    if silent then mret (SelAborted reason) else throw reason
  else
    let chans := match SelectOptions.chans opts with
                 | Some l => omap id l
                 | None => []
                 end in
    match chans with
    | [] =>
        if SelectOptions.default opts then mret SelNull
        else
          match signal with
          | Some s =>
              p ← new_Promise;
              _ ← effect (set_closures <[p := EmptySelectClosure s silent]>);
              _ ← effect (addEventListener signal p);
              mret (SelPromise p)
          | None => mret SelNever
          end
    | _ =>
        _ ← reset_all chans;
        chans ← shuffle chans (length chans);
        ready ← try_cases chans silent;
        match ready with
        | Some c => mret (SelCase c)
        | None =>
            if SelectOptions.default opts then mret SelNull
            else
              p ← new_Promise;
              conns ← arm_all chans (SelectCb p);
              _ ← effect (set_closures
                     <[p := SelectClosure conns (mkOptions signal silent)]>);
              _ ← effect (addEventListener signal p);
              mret (SelPromise p)
        end
    end.

(** ** The abort event *)

(** The [onAbort] listener of the promise [p]. *)
Definition onAbort (p : nat) (w : World) : World :=
  match closures w !! p with
  | Some (ReadClosure action opts) =>
      let w1 := Connection_disconnect action w in
      if silent opts
      then resolve p (SRead {| ReadValue.closed := None;
                               ReadValue.reason := signal_reason (signal opts) w1;
                               ReadValue.ok := false; ReadValue.value := VNull |}) w1
      else reject p (signal_reason (signal opts) w1) w1
  | Some (WriteClosure action opts) =>
      let w1 := Connection_disconnect action w in
      if silent opts
      then resolve p (SWrite {| WriteValue.ok := Some false; WriteValue.error := Some true;
                                WriteValue.reason := signal_reason (signal opts) w1 |}) w1
      else reject p (signal_reason (signal opts) w1) w1
  | Some (SelectClosure conns opts) =>
      let w1 := disconnect_all conns w in
      if silent opts
      then resolve p (SAborted (signal_reason (signal opts) w1)) w1
      else reject p (signal_reason (signal opts) w1) w1
  | Some (EmptySelectClosure s silent) =>
      if silent
      then resolve p (SAborted (signal_reason (Some s) w)) w
      else reject p (signal_reason (Some s) w) w
  | None => w
  end.

(** [controller.abort(reason)]: the event is dispatched once, to the
    listeners subscribed at that moment. *)
Definition AbortController_abort (s : nat) (reason : jsval) (w : World) : World :=
  match signals w !! s with
  | Some sg =>
      if aborted sg then w
      else
        foldl (λ w' p, onAbort p w')
          (set_signals <[s := {| aborted := true; sreason := reason; listeners := [] |}]> w)
          (listeners sg)
  | None => w
  end.

(** ** chan.ts: the async iterators *)

(** Where the generator [Chan[Symbol.asyncIterator]] is suspended: before
    its first statement, at [await this.read()] on a pending promise, at
    [yield value] (holding the [reason] destructured in that round), or
    finished. *)
Inductive GenState :=
  | GenStart
  | GenAwait (p : nat)
  | GenYield (reason : jsval)
  | GenDone.

(** What one [next()] settles to. *)
Inductive GenStep (A : Type) :=
  | Yielded (v : A)
  | Finished
  | Thrown (e : jsval)
  | Blocked.
Arguments Yielded {A} v.
Arguments Finished {A}.
Arguments Thrown {A} e.
Arguments Blocked {A}.



(** [ChanIterator[Symbol.asyncIterator]] (the iterator of [values()]):
    after [yield val] the loop starts over. *)
Definition values_round (r : ReadValue.t) : GenStep ReadValue.t * GenState :=
  if truthy (ReadValue.closed r) then (Finished, GenDone)
  else (Yielded r, GenStart).

Definition values_next (ch : nat) (opts : Options) (st : GenState) (w : World)
    : GenStep ReadValue.t * GenState * World :=
  match st with
  | GenStart | GenYield _ =>
      match Chan_read ch opts w with
      | (Return (inl r), w') => (values_round r, w')
      | (Return (inr p), w') => (Blocked, GenAwait p, w')
      | (Throw e, w') => (Thrown e, GenDone, w')
      end
  | GenAwait p =>
      match promises w !! p with
      | Some (Resolved (SRead r)) => (values_round r, w)
      | Some (Rejected e) => (Thrown e, GenDone, w)
      | _ => (Blocked, GenAwait p, w)
      end
  | GenDone => (Finished, GenDone, w)
  end.

(** How a [for await] loop over an iterator ends. *)
Inductive Completion :=
  | Completed
  | Raised (e : jsval)
  | Suspended
  | OutOfFuel.

(** [for await (const val of it) results.push(val)]: the values received
    and how the loop ended, within [fuel] calls of [next]. *)
Fixpoint for_await {A} (next_ : GenState → World → GenStep A * GenState * World)
    (fuel : nat) (st : GenState) (w : World) : list A * Completion * World :=
  match fuel with
  | 0 => ([], OutOfFuel, w)
  | S fuel' =>
      match next_ st w with
      | (Yielded v, st', w') =>
          let '(vs, c, w'') := for_await next_ fuel' st' w' in (v :: vs, c, w'')
      | (Finished, _, w') => ([], Completed, w')
      | (Thrown e, _, w') => ([], Raised e, w')
      | (Blocked, _, w') => ([], Suspended, w')
      end
  end.

(** [RW.length] and [RW.capacity]. *)
Definition RW_length (rw : RW) : nat :=
  match list_ rw with Some list => Ring.length list | None => 0 end.
Definition RW_capacity (rw : RW) : nat :=
  match list_ rw with Some list => Ring.capacity list | None => 0 end.

(** ** Programs over the public interface *)

(** Successive [tryWrite] calls, one per value, and [n] successive
    [tryRead] calls. *)
Fixpoint tryWrite_each (ch : nat) (vs : list jsval) : M (list WriteValue.t) :=
  match vs with
  | [] => mret []
  | v :: rest =>
      r ← Chan_tryWrite ch v no_options;
      rs ← tryWrite_each ch rest;
      mret (r :: rs)
  end.
Fixpoint tryRead_times (ch : nat) (n : nat) : M (list ReadValue.t) :=
  match n with
  | 0 => mret []
  | S n' =>
      r ← Chan_tryRead ch no_options;
      rs ← tryRead_times ch n';
      mret (r :: rs)
  end.

(** One call at the public interface; results are dropped, only the
    effect on the store is kept.  [OpCaseInvoke] is a caller arming a case
    itself, [OpDisconnect] the [disconnect()] of a connection. *)
Inductive Op :=
  | OpNewChan (buf : Z)
  | OpNewSignal
  | OpAbort (s : nat) (reason : jsval)
  | OpTryRead (ch : nat) (opts : Options)
  | OpRead (ch : nat) (opts : Options)
  | OpTryWrite (ch : nat) (v : jsval) (opts : Options)
  | OpWrite (ch : nat) (v : jsval) (opts : Options)
  | OpClose (ch : nat)
  | OpWait (ch : nat)
  | OpReadCase (ch : nat)
  | OpWriteCase (ch : nat) (v : jsval)
  | OpCaseReset (c : nat)
  | OpCaseTryInvoke (c : nat) (silent : bool)
  | OpCaseInvoke (c : nat) (tag : nat)
  | OpDisconnect (conn : nat)
  | OpSelect (opts : SelectOptions.t).

Definition exec (op : Op) (w : World) : World :=
  match op with
  | OpNewChan buf => (new_Chan buf w).2
  | OpNewSignal => (new_AbortController w).2
  | OpAbort s reason => AbortController_abort s reason w
  | OpTryRead ch opts => (Chan_tryRead ch opts w).2
  | OpRead ch opts => (Chan_read ch opts w).2
  | OpTryWrite ch v opts => (Chan_tryWrite ch v opts w).2
  | OpWrite ch v opts => (Chan_write ch v opts w).2
  | OpClose ch => (Chan_close ch w).2
  | OpWait ch => (Chan_wait ch w).2
  | OpReadCase ch => (Chan_readCase ch w).2
  | OpWriteCase ch v => (Chan_writeCase ch v w).2
  | OpCaseReset c => (Case_reset c w).2
  | OpCaseTryInvoke c silent => (Case_tryInvoke c silent w).2
  | OpCaseInvoke c tag => (Case_invoke c (UserCb tag) w).2
  | OpDisconnect conn => Connection_disconnect conn w
  | OpSelect opts => (selectChan opts w).2
  end.

Definition run (ops : list Op) (w : World) : World :=
  foldl (λ w' op, exec op w') w ops.

(** The arming discipline of [selectChan]: a read case is armed only when
    its [tryInvoke] returns false at that moment. *)
Definition armed_after_try (op : Op) (w : World) : Prop :=
  match op with
  | OpCaseInvoke c _ =>
      match cases w !! c with
      | Some (ReadCase ch _) => (ReadCase_tryInvoke c ch w).1 = Return false
      | _ => True
      end
  | _ => True
  end.

Fixpoint disciplined (ops : list Op) (w : World) : Prop :=
  match ops with
  | [] => True
  | op :: rest => armed_after_try op w ∧ disciplined rest (exec op w)
  end.

(** "Reader pool non-empty implies buffer empty", for every channel. *)
Definition readers_imply_empty_buffer (w : World) : Prop :=
  ∀ ch rw, chans w !! ch = Some rw →
    Actions.length (r_actions (r_ rw)) ≠ 0 → RW_length rw = 0.

(** ** How callbacks may change a channel *)

(** Between two stores: the ring of a channel is the same and its pools
    have only lost waiters. *)
Definition rw_shrinks (rw rw' : RW) : Prop :=
  list_ rw' = list_ rw ∧
  Actions.actions (r_actions (r_ rw')) ⊆ Actions.actions (r_actions (r_ rw)) ∧
  Actions.actions (w_actions (w_ rw')) ⊆ Actions.actions (w_actions (w_ rw)) ∧
  Actions.length (r_actions (r_ rw')) ≤ Actions.length (r_actions (r_ rw)) ∧
  Actions.length (w_actions (w_ rw')) ≤ Actions.length (w_actions (w_ rw)).

Definition shrinks (w w' : World) : Prop :=
  ∀ ch, option_Forall2 rw_shrinks (chans w !! ch) (chans w' !! ch).

(** Between two stores: no buffer has grown and no reader pool has gained
    a waiter. *)
Definition rw_quieter (rw rw' : RW) : Prop :=
  RW_length rw' ≤ RW_length rw ∧
  Actions.actions (r_actions (r_ rw')) ⊆ Actions.actions (r_actions (r_ rw)).

Definition quieter (w w' : World) : Prop :=
  ∀ ch, option_Forall2 rw_quieter (chans w !! ch) (chans w' !! ch).

(** A computation that never does more to the channels than [shrinks]. *)
Definition shrinking {A} (m : M A) : Prop := ∀ w, shrinks w (m w).2.

(** A read case may be armed: the buffer of its channel is empty. *)
Definition armable (w : World) (c : nat) : Prop :=
  ∀ ch v rw, cases w !! c = Some (ReadCase ch v) →
    chans w !! ch = Some rw → RW_length rw = 0.

(** ** The envelopes of [tryWrite] and [tryRead] *)

(** [{ ok: true }], [{ ok: false }] and [{ closed: false, ok: true, value }]. *)
Definition ok_written : WriteValue.t :=
  {| WriteValue.ok := Some true; WriteValue.error := None; WriteValue.reason := VUndefined |}.
Definition not_written : WriteValue.t :=
  {| WriteValue.ok := Some false; WriteValue.error := None; WriteValue.reason := VUndefined |}.
Definition value_read (v : jsval) : ReadValue.t :=
  {| ReadValue.closed := Some false; ReadValue.reason := VUndefined;
     ReadValue.ok := true; ReadValue.value := v |}.

(** A channel of capacity [k] holding [cs], open, with nobody parked. *)
Definition idle_buffered (ch k : nat) (cs : list jsval) (w : World) : Prop :=
  ∃ rw ring, chans w !! ch = Some rw ∧ list_ rw = Some ring ∧ Ring.wf ring ∧
    Ring.capacity ring = k ∧ Ring.contents ring = cs ∧ isClosed rw = false ∧
    Actions.length (r_actions (r_ rw)) = 0 ∧ Actions.length (w_actions (w_ rw)) = 0.

(** ** Concrete stores used as test inputs *)

(** A waiter set holding two distinct waiters. *)
Definition two_waiters : Actions.t nat := Actions.push 1 (Actions.push 0 Actions.empty).

(** The same waiter pushed twice. *)
Definition pushed_twice : Actions.t nat := Actions.push 7 (Actions.push 7 Actions.empty).

(** The store left by a program run from the empty store. *)
Definition eval {A} (m : M A) (w : World) : World := (m w).2.

(** [new Chan(0)], closed at once. *)
Definition closed_chan : World :=
  eval (ch ← new_Chan 0; Chan_close ch) (empty_world []).

(** [new Chan(0)], open and idle. *)
Definition idle_chan : World := eval (new_Chan 0) (empty_world []).

(** [new Chan(1)] after [tryWrite(1)]: the buffer is full. *)
Definition full_chan : World :=
  eval (ch ← new_Chan 1; Chan_tryWrite ch (VNum 1) no_options) (empty_world []).

(** [new Chan(1)] holding 10 (channel 0), a controller aborted with
    "stopped" (signal 1) and a read case on the channel (case 2). *)
Definition ready_and_aborted : World :=
  eval (ch ← new_Chan 1;
        _ ← Chan_tryWrite ch (VNum 10) no_options;
        s ← new_AbortController;
        _ ← effect (AbortController_abort s (VStr "stopped"));
        Chan_readCase ch) (empty_world []).

(** A closed channel (0) and a write case on it (case 1). *)
Definition closed_write_case : World :=
  eval (ch ← new_Chan 0; _ ← Chan_close ch; Chan_writeCase ch (VNum 1)) (empty_world []).

(** A read case (1) parked by [selectChan] (promise 2) on an unbuffered
    channel (0) that is then closed. *)
Definition parked_read_case_closed : World :=
  eval (ch ← new_Chan 0;
        rc ← Chan_readCase ch;
        _ ← selectChan {| SelectOptions.default := false; SelectOptions.silent := false;
                          SelectOptions.signal := None;
                          SelectOptions.chans := Some [Some rc] |};
        Chan_close ch) (empty_world []).

(** The channel of the "Async Iterator (for await)" test: capacity 5,
    holding 10, 20, 30, closed. *)
Definition closed_with_three : World :=
  eval (ch ← new_Chan 5;
        _ ← Chan_tryWrite ch (VNum 10) no_options;
        _ ← Chan_tryWrite ch (VNum 20) no_options;
        _ ← Chan_tryWrite ch (VNum 30) no_options;
        Chan_close ch) (empty_world []).

(** [new Chan(1)] after [tryWrite(1)] and a parked [write(2)]
    (promise 1, action 2). *)
Definition full_with_parked_writer : World :=
  eval (ch ← new_Chan 1;
        _ ← Chan_tryWrite ch (VNum 1) no_options;
        Chan_write ch (VNum 2) no_options) (empty_world []).

(** A caller arms a read case itself while a value is buffered. *)
Definition arming_over_buffer : list Op :=
  [OpNewChan 1; OpTryWrite 0 (VNum 1) no_options; OpReadCase 0; OpCaseInvoke 1 7].

(** [selectChan] parks a read case on an empty buffered channel. *)
Definition select_parks_reader : list Op :=
  [OpNewChan 1; OpReadCase 0;
   OpSelect {| SelectOptions.default := false; SelectOptions.silent := false;
               SelectOptions.signal := None; SelectOptions.chans := Some [Some 1] |}].

(** The read case (1) parked by [selectChan], before the channel is
    closed; its connection is action 3. *)
Definition parked_read_case : World :=
  eval (ch ← new_Chan 0;
        rc ← Chan_readCase ch;
        selectChan {| SelectOptions.default := false; SelectOptions.silent := false;
                      SelectOptions.signal := None;
                      SelectOptions.chans := Some [Some rc] |}) (empty_world []).

(** The outcome [_ReadCase.invoke] stores on end-of-stream. *)
Definition end_of_stream_stored : ReadValue.t :=
  {| ReadValue.closed := Some true; ReadValue.reason := VUndefined;
     ReadValue.ok := true; ReadValue.value := VUndefined |}.


(** ** chan.ts and select.ts against the later rw.ts, as the files stand *)

(** The two places where a connection is cancelled, with the call
    [disconet()] of chan.ts and select.ts taken as it is written: the path
    from [RW.tryRead] to the callback of a parked writer, and the abort
    listeners. *)
Module AsWritten.

(** [conn.disconet()] on an action of the later rw.ts.  [ReadAction] and
    [WirteAction] define [invoke], [close] and [disconnect]; the property
    [disconet] is [undefined], and calling it raises a TypeError. *)
Definition Connection_disconet (conn : nat) : M unit := throw TypeError.

(** The loop [for (const conn of conns) conn.disconet()] of [cleanup]. *)
Fixpoint disconet_all (conns : list nat) : M unit :=
  match conns with
  | [] => mret ()
  | conn :: rest => _ ← Connection_disconet conn; disconet_all rest
  end.

(** The shared callback [cb] of [selectChan] ([cleanup()], then the
    promise is settled), or a caller's callback. *)
Definition CaseCallback_call (cb : CaseCallback) (c : nat) (hasError : bool)
    (reason : jsval) : M unit :=
  match cb with
  | UserCb tag => effect (set_calls (λ l, l ++ [(tag, c, hasError, reason)]))
  | SelectCb p =>
      cl ← gets (λ w, closures w !! p);
      match cl with
      | Some (SelectClosure conns opts) =>
          _ ← effect (removeEventListener (signal opts) p);
          _ ← disconet_all conns;
          if hasError then
            if silent opts then effect (resolve p (SAborted reason))
            else effect (reject p reason)
          else effect (resolve p (SCase c))
      | _ => mret ()
      end
  end.

(** The callbacks given to [RW.write]; [val] is [true] or [undefined]. *)
Definition WriteCallback_call (cb : WriteCallback) (val : option bool) (reason : jsval)
    : M unit :=
  match cb with
  | ChanWriteCb p =>
      cl ← gets (λ w, closures w !! p);
      match cl with
      | Some (WriteClosure _ opts) =>
          _ ← effect (removeEventListener (signal opts) p);
          match val with
          | None =>
              if silent opts
              then effect (resolve p (SWrite {| WriteValue.ok := Some false;
                                                WriteValue.error := Some true;
                                                WriteValue.reason := reason |}))
              else effect (reject p reason)
          | Some ok =>
              effect (resolve p (SWrite {| WriteValue.ok := Some ok;
                                           WriteValue.error := None;
                                           WriteValue.reason := VUndefined |}))
          end
      | _ => mret ()
      end
  | WriteCaseCb c cb' =>
      match val with
      | None =>
          _ ← effect (set_cases (alter (set_write_value_
                 (Some {| WriteValue.ok := Some false; WriteValue.error := Some true;
                          WriteValue.reason := reason |})) c));
          CaseCallback_call cb' c true reason
      | Some _ =>
          _ ← effect (set_cases (alter (set_write_value_
                 (Some {| WriteValue.ok := Some true; WriteValue.error := None;
                          WriteValue.reason := VUndefined |})) c));
          CaseCallback_call cb' c false VUndefined
      end
  end.

(** [WirteAction.invoke()]. *)
Definition WirteAction_invoke (a : nat) : M unit :=
  act ← gets (λ w, acts w !! a);
  match act with
  | Some (WirteAction _ _ (Some cb)) => WriteCallback_call cb (Some true) VUndefined
  | _ => mret ()
  end.

(** [Writer.invoke()]: the value is read before the callback runs. *)
Definition Writer_invoke (ch : nat) : M jsval :=
  rw ← get_rw ch;
  let actions := w_actions (w_ rw) in
  match Actions.length actions with
  | 0 => throw (VError "writer empty")
  | 1 =>
      let '(p, rest) := Actions.pop actions in
      _ ← effect (modify_writer ch (λ _, rest));
      match p with
      | Some p =>
          val ← gets (WirteAction_value p);
          _ ← WirteAction_invoke p;
          mret val
      | None => throw TypeError
      end
  | n =>
      i ← random_index n;
      let '(p, rest) := Actions.removeBy i actions in
      _ ← effect (modify_writer ch (λ _, rest));
      match p with
      | Some p =>
          val ← gets (WirteAction_value p);
          _ ← WirteAction_invoke p;
          mret val
      | None => throw TypeError
      end
  end.

(** The part of [RW.tryRead] after the cache. *)
Definition RW_tryRead_uncached (ch : nat) : M (option IteratorResult.t) :=
  rw ← get_rw ch;
  if isClosed rw then mret None
  else
    isEmpty ← Writer_isEmpty ch;
    if (isEmpty : bool) then mret (Some noResult)
    else
      v ← Writer_invoke ch;
      mret (Some {| IteratorResult.done := None; IteratorResult.value := v |}).

(** [RW.tryRead()]. *)
Definition RW_tryRead (ch : nat) : M (option IteratorResult.t) :=
  rw ← get_rw ch;
  match list_ rw with
  | Some _ =>
      result ← list_pop ch;
      if negb (truthy (IteratorResult.done result)) then
        isEmpty ← Writer_isEmpty ch;
        _ ← (if negb (isEmpty : bool)
             then v ← Writer_invoke ch; _ ← list_push ch v; mret ()
             else mret ());
        mret (Some result)
      else RW_tryRead_uncached ch
  | None => RW_tryRead_uncached ch
  end.

(** The [onAbort] listener of the promise [p]: [cleanup(true)], then the
    promise is settled. *)
Definition onAbort (p : nat) : M unit :=
  cl ← gets (λ w, closures w !! p);
  match cl with
  | Some (ReadClosure action opts) =>
      _ ← Connection_disconet action;
      reason ← gets (signal_reason (signal opts));
      if silent opts
      then effect (resolve p (SRead {| ReadValue.closed := None; ReadValue.reason := reason;
                                       ReadValue.ok := false; ReadValue.value := VNull |}))
      else effect (reject p reason)
  | Some (WriteClosure action opts) =>
      _ ← Connection_disconet action;
      reason ← gets (signal_reason (signal opts));
      if silent opts
      then effect (resolve p (SWrite {| WriteValue.ok := Some false;
                                        WriteValue.error := Some true;
                                        WriteValue.reason := reason |}))
      else effect (reject p reason)
  | Some (SelectClosure conns opts) =>
      _ ← disconet_all conns;
      reason ← gets (signal_reason (signal opts));
      if silent opts then effect (resolve p (SAborted reason)) else effect (reject p reason)
  | Some (EmptySelectClosure s silent) =>
      reason ← gets (signal_reason (Some s));
      if silent then effect (resolve p (SAborted reason)) else effect (reject p reason)
  | None => mret ()
  end.

(** [controller.abort(reason)]: the event is dispatched once, to the
    listeners subscribed at that moment.  An exception raised by a listener
    is reported by the host: it does not reach the caller of [abort] and
    the listeners after it still run. *)
Definition AbortController_abort (s : nat) (reason : jsval) (w : World) : World :=
  match signals w !! s with
  | Some sg =>
      if aborted sg then w
      else
        foldl (λ w' p, (onAbort p w').2)
          (set_signals <[s := {| aborted := true; sreason := reason; listeners := [] |}]> w)
          (listeners sg)
  | None => w
  end.

End AsWritten.

(** Writer [a] is the connection of a case armed by a [selectChan] that is
    still waiting. *)
Definition armed_by_select (w : World) (a : nat) : Prop :=
  ∃ x val c p conns opts,
    acts w !! a = Some (WirteAction x val (Some (WriteCaseCb c (SelectCb p)))) ∧
    closures w !! p = Some (SelectClosure conns opts) ∧ conns ≠ [].

(** [new Chan(1)] holding 99 (channel 0), and a [selectChan] waiting on
    the write case [writeCase(100)] (case 1, promise 2, connection 3). *)
Definition select_write_over_full : World :=
  run [OpNewChan 1; OpTryWrite 0 (VNum 99) no_options; OpWriteCase 0 (VNum 100);
       OpSelect {| SelectOptions.default := false; SelectOptions.silent := false;
                   SelectOptions.signal := None; SelectOptions.chans := Some [Some 1] |}]
      (empty_world []).

(** The listener of promise [p] cancels connections: it belongs to a
    parked [read()] or [write()], or to a [selectChan] waiting on cases. *)
Definition cancels_connections (w : World) (p : nat) : Prop :=
  match closures w !! p with
  | Some (ReadClosure _ _) | Some (WriteClosure _ _) => True
  | Some (SelectClosure conns _) => conns ≠ []
  | _ => False
  end.

(** [new Chan(0)] (channel 0), a controller (signal 1) and a silent
    [read()] parked under its signal (promise 2, connection 3). *)
Definition read_parked_under_signal : World :=
  eval (ch ← new_Chan 0;
        s ← new_AbortController;
        Chan_read ch {| signal := Some s; silent := true |}) (empty_world []).

(** * Further test inputs and predicates *)

(** A ring of capacity 3 whose head has wrapped: after three pushes, two
    pops and one more push it holds 3 and 4, stored at slots 2 and 0. *)
Definition wrapped_ring : Ring.t :=
  (Ring.push (VNum 4)
     (Ring.pop (Ring.pop
        (Ring.push (VNum 3) (Ring.push (VNum 2) (Ring.push (VNum 1)
           (Ring.create 3)).2).2).2).2).2).2.

(** A computation whose final store is always related to its initial one. *)
Definition framing (R : World → World → Prop) {A} (m : M A) : Prop :=
  ∀ w, R w (m w).2.

(** A case without its outcome slot: its kind, channel and value. *)
Definition erase_slot (cs : Case) : Case :=
  match cs with
  | ReadCase ch _ => ReadCase ch None
  | WriteCase ch v _ => WriteCase ch v None
  end.

(** Between two stores, the case objects differ at most in their slots. *)
Definition same_case_shapes (w w' : World) : Prop :=
  erase_slot <$> cases w' = erase_slot <$> cases w.

(** Between two stores, only outcome slots and the random supply differ. *)
Definition only_slots_and_rng (w w' : World) : Prop :=
  same_case_shapes w w' ∧ chans w' = chans w ∧ acts w' = acts w ∧
  promises w' = promises w ∧ closures w' = closures w ∧ signals w' = signals w ∧
  calls w' = calls w ∧ next w' = next w.

(** The outcome [_ReadCase.tryInvoke] stores on a closed, drained channel. *)
Definition end_of_stream_read : ReadValue.t :=
  {| ReadValue.closed := Some true; ReadValue.reason := VUndefined;
     ReadValue.ok := false; ReadValue.value := VNull |}.

(** [new Chan(1)] holding 10 (channel 0) and a read case on it (case 1);
    one random draw is available. *)
Definition ready_read_case : World :=
  eval (ch ← new_Chan 1;
        _ ← Chan_tryWrite ch (VNum 10) no_options;
        Chan_readCase ch) (empty_world [0]).

(** [new Chan(0)] (channel 0), idle, and a read case on it (case 1). *)
Definition idle_read_case : World :=
  eval (ch ← new_Chan 0; Chan_readCase ch) (empty_world [0]).

(** [opts.chans?.filter((v) => v ? true : false)]. *)
Definition given_cases (opts : SelectOptions.t) : list nat :=
  match SelectOptions.chans opts with
  | Some l => omap id l
  | None => []
  end.

(** A store holding one controller (signal 0), not aborted. *)
Definition one_signal : World := eval new_AbortController (empty_world []).

(** The outcome slot of case [c] is empty. *)
Definition cleared (c : nat) (w : World) : Prop :=
  ReadCase_read c w = None ∧ WriteCase_write c w = None.

(** Between two stores, only channels and actions differ: what a
    disconnection may touch. *)
Definition only_chans_and_acts (w w' : World) : Prop :=
  cases w' = cases w ∧ promises w' = promises w ∧ closures w' = closures w ∧
  signals w' = signals w ∧ calls w' = calls w ∧ rng w' = rng w ∧ next w' = next w.

(** [{ closed: false, ok: false, value: null }]: nothing to read now. *)
Definition nothing_read : ReadValue.t :=
  {| ReadValue.closed := Some false; ReadValue.reason := VUndefined;
     ReadValue.ok := false; ReadValue.value := VNull |}.

(** What a parked [Chan.write] settles to when the channel is closed. *)
Definition closed_write_outcome (opts : Options) : Promise :=
  if silent opts
  then Resolved (SWrite {| WriteValue.ok := Some false; WriteValue.error := Some true;
                           WriteValue.reason := ChannelClosed |})
  else Rejected ChannelClosed.

(** Two [read()] calls parked on [new Chan(0)] (promises 1 and 3). *)
Definition two_parked_reads : World :=
  eval (ch ← new_Chan 0;
        _ ← Chan_read ch no_options;
        Chan_read ch {| signal := None; silent := true |}) (empty_world []).

(** A [write(1)] and a silent [write(2)] parked on [new Chan(0)]
    (promises 1 and 3). *)
Definition two_parked_writes : World :=
  eval (ch ← new_Chan 0;
        _ ← Chan_write ch (VNum 1) no_options;
        Chan_write ch (VNum 2) {| signal := None; silent := true |}) (empty_world []).

(** Waiter [a] was parked by [Chan.read] behind the pending promise [p]. *)
Definition parked_by_read (w : World) (a p : nat) : Prop :=
  (∃ r, acts w !! a = Some (ReadAction r (Some (ChanReadCb p)))) ∧
  (∃ act opts, closures w !! p = Some (ReadClosure act opts)) ∧
  promises w !! p = Some Pending.

(** Waiter [a] was parked by [Chan.write] with the options [opts], behind
    the pending promise [p]. *)
Definition parked_by_write (w : World) (a p : nat) (opts : Options) : Prop :=
  (∃ x v, acts w !! a = Some (WirteAction x v (Some (ChanWriteCb p)))) ∧
  (∃ act, closures w !! p = Some (WriteClosure act opts)) ∧
  promises w !! p = Some Pending.

(** Every waiter of the list was parked by [Chan.read], and its promise is
    pending or already settled to [s]. *)
Definition plain_reads (s : Promise) (l : list nat) (w : World) : Prop :=
  ∀ a, a ∈ l → ∃ r p act opts,
    acts w !! a = Some (ReadAction r (Some (ChanReadCb p))) ∧
    closures w !! p = Some (ReadClosure act opts) ∧
    (promises w !! p = Some Pending ∨ promises w !! p = Some s).

(** Every waiter of the list was parked by [Chan.write], and its promise
    is pending or already settled as a close settles it. *)
Definition plain_writes (l : list nat) (w : World) : Prop :=
  ∀ a, a ∈ l → ∃ x v p act opts,
    acts w !! a = Some (WirteAction x v (Some (ChanWriteCb p))) ∧
    closures w !! p = Some (WriteClosure act opts) ∧
    (promises w !! p = Some Pending ∨ promises w !! p = Some (closed_write_outcome opts)).

(** Between two stores, no settled promise has changed. *)
Definition settled_stay (w w' : World) : Prop :=
  ∀ p s, promises w !! p = Some s → s ≠ Pending → promises w' !! p = Some s.

(** A channel in good order: its ring satisfies the class invariant, both
    pools are coherent, and every parked action was allocated before [n]. *)
Definition chan_ok (n : nat) (rw : RW) : Prop :=
  (∀ ring, list_ rw = Some ring → Ring.wf ring) ∧
  Actions.coherent (r_actions (r_ rw)) ∧ Actions.coherent (w_actions (w_ rw)) ∧
  (∀ a, a ∈ Actions.actions (r_actions (r_ rw)) → a < n) ∧
  (∀ a, a ∈ Actions.actions (w_actions (w_ rw)) → a < n).

(** A store in good order: every channel is, and channels and promises
    were allocated before [next]. *)
Definition store_ok (w : World) : Prop :=
  (∀ ch rw, chans w !! ch = Some rw → ch < next w ∧ chan_ok (next w) rw) ∧
  (∀ p s, promises w !! p = Some s → p < next w).

(** Between two states of a channel: closed stays closed and the capacity
    is the same. *)
Definition rw_ages (rw rw' : RW) : Prop :=
  (isClosed rw = true → isClosed rw' = true) ∧ RW_capacity rw' = RW_capacity rw.

(** Between two stores: no identity is reused, every channel is still
    there, older, and no settled promise has changed. *)
Definition ages (w w' : World) : Prop :=
  next w ≤ next w' ∧
  (∀ ch rw, chans w !! ch = Some rw → ∃ rw', chans w' !! ch = Some rw' ∧ rw_ages rw rw') ∧
  settled_stay w w'.

(** From a store in good order the step leads to one in good order that
    is older. *)
Definition orderly (w w' : World) : Prop := store_ok w → store_ok w' ∧ ages w w'.



(** * Properties *)

(** ** The ring buffer *)

Lemma mod_window_inj (len off a b : nat) :
  a < len → b < len → (off + a) mod len = (off + b) mod len → a = b.
Proof.
  intros Ha Hb Heq.
  assert (Hlen : len ≠ 0) by lia.
  pose proof (Nat.div_mod_eq (off + a) len) as E1.
  pose proof (Nat.div_mod_eq (off + b) len) as E2.
  rewrite Heq in E1.
  assert (Hd : (off + a) `div` len = (off + b) `div` len ∨ (off + a) `div` len < (off + b) `div` len ∨ (off + b) `div` len < (off + a) `div` len) by lia.
  destruct Hd as [Hd|[Hd|Hd]]; [rewrite Hd in E1; lia| nia | nia].
Qed.

Lemma contents_length r : length (Ring.contents r) = Ring.size_ r.
Proof. unfold Ring.contents. by rewrite length_map, length_seq. Qed.

Lemma create_wf n : Ring.wf (Ring.create n) ∧ Ring.contents (Ring.create n) = [] ∧ Ring.capacity (Ring.create n) = n.
Proof.
  unfold Ring.wf, Ring.contents, Ring.capacity, Ring.create; simpl.
  rewrite length_replicate. split_and!; [lia| lia | done | done].
Qed.

Lemma push_full v r : Ring.size_ r = length (Ring.arrs r) → Ring.push v r = (false, r).
Proof. intros E. unfold Ring.push. by rewrite E, Nat.eqb_refl. Qed.

Lemma push_room v r :
  Ring.wf r → Ring.size_ r < length (Ring.arrs r) →
  ∃ r', Ring.push v r = (true, r') ∧ Ring.wf r' ∧
        Ring.contents r' = Ring.contents r ++ [v] ∧
        length (Ring.arrs r') = length (Ring.arrs r) ∧
        Ring.size_ r' = S (Ring.size_ r).
Proof.
  intros [Hs Ho] Hlt. unfold Ring.push.
  destruct (Nat.eqb_spec (Ring.size_ r) (length (Ring.arrs r))) as [E|_]; [lia|].
  eexists; split; [reflexivity|].
  assert (Hlen : length (Ring.arrs r) ≠ 0) by lia.
  unfold Ring.wf, Ring.contents; cbn [Ring.arrs Ring.offset_ Ring.size_].
  rewrite length_insert.
  split_and!; [lia | lia | | done | done].
  rewrite seq_S, map_app; simpl. f_equal.
  - apply map_ext_in. intros k Hk%in_seq.
    rewrite !nth_lookup, list_lookup_insert_ne; [done|].
    intros E. apply mod_window_inj in E; lia.
  - rewrite nth_lookup, list_lookup_insert_eq; [done|].
    apply Nat.mod_upper_bound; lia.
Qed.

Lemma pop_empty r : Ring.size_ r = 0 → Ring.pop r = (noResult, r).
Proof. intros E. unfold Ring.pop. by rewrite E. Qed.

Lemma pop_head r v rest :
  Ring.wf r → Ring.contents r = v :: rest →
  ∃ r', Ring.pop r = ({| IteratorResult.done := Some false; IteratorResult.value := v |}, r') ∧
        Ring.wf r' ∧ Ring.contents r' = rest ∧
        length (Ring.arrs r') = length (Ring.arrs r) ∧
        S (Ring.size_ r') = Ring.size_ r.
Proof.
  intros [Hs Ho]. unfold Ring.pop, Ring.contents.
  destruct (Ring.size_ r) as [|n] eqn:Hsz; [done|].
  cbn [seq map]. change (S n =? 0) with false. cbv iota. intros Hc.
  assert (Hlen : length (Ring.arrs r) ≠ 0) by lia.
  destruct Ho as [Ho|[? _]]; [|lia].
  rewrite Nat.add_0_r, (Nat.mod_small _ _ Ho) in Hc. injection Hc as Hv Hrest.
  eexists; split; [by rewrite Hv|].
  unfold Ring.wf; cbn [Ring.arrs Ring.offset_ Ring.size_]. rewrite length_insert.
  split_and!; [lia | destruct (Nat.eqb_spec (S (Ring.offset_ r)) (length (Ring.arrs r))); lia | | done | lia].
  replace (S n - 1) with n by lia.
  etrans; [|exact Hrest]. rewrite <- seq_shift, map_map.
  apply map_ext_in. intros k Hk%in_seq.
  assert (Hidx : ((if S (Ring.offset_ r) =? length (Ring.arrs r) then 0 else S (Ring.offset_ r)) + k) mod length (Ring.arrs r) = (Ring.offset_ r + S k) mod length (Ring.arrs r)).
  { destruct (Nat.eqb_spec (S (Ring.offset_ r)) (length (Ring.arrs r))) as [E|E].
    - replace (Ring.offset_ r + S k) with (k + 1 * length (Ring.arrs r)) by lia.
      by rewrite Nat.Div0.mod_add.
    - f_equal; lia. }
  rewrite Hidx, !nth_lookup, list_lookup_insert_ne; [done|].
  intros E. rewrite <- (Nat.mod_small _ _ Ho) in E at 1.
  replace (Ring.offset_ r) with (Ring.offset_ r + 0) in E at 1 by lia.
  apply mod_window_inj in E; lia.
Qed.

(** ** The waiter set *)

Section ActionsFacts.
Context {T : Type} `{Countable T}.
Implicit Types (a : Actions.t T) (l : list T) (ks : gmap T nat).

Lemma coherent_inj a i j w :
  Actions.coherent a → Actions.actions a !! i = Some w → Actions.actions a !! j = Some w → i = j.
Proof.
  intros Hc Hi Hj. apply Hc in Hi, Hj. congruence.
Qed.

Lemma coherent_NoDup a : Actions.coherent a → NoDup (Actions.actions a).
Proof. intros Hc. apply NoDup_alt. intros i j w. apply coherent_inj, Hc. Qed.

Lemma coherent_index_coherent a : Actions.coherent a → Actions.index_coherent a.
Proof.
  intros Hc. split.
  - intros w [i Hi]%list_elem_of_lookup. exists i. split; [by apply Hc|done].
  - intros w. rewrite elem_of_dom, list_elem_of_lookup. unfold is_Some.
    split; intros [i Hi]; exists i; by apply Hc.
Qed.

Lemma coherent_empty : Actions.coherent (Actions.empty (T:=T)).
Proof. intros i w. simpl. by rewrite lookup_nil, lookup_empty. Qed.

Lemma coherent_clear a : Actions.coherent (Actions.clear a).
Proof. apply coherent_empty. Qed.

Lemma coherent_push a w :
  Actions.coherent a → w ∉ Actions.actions a → Actions.coherent (Actions.push w a).
Proof.
  intros Hc Hw i x. unfold Actions.push; simpl. split.
  - intros Hi. destruct (decide (i < length (Actions.actions a))) as [Hlt|Hge].
    + rewrite lookup_app_l in Hi by done.
      rewrite lookup_insert_ne; [by apply Hc|].
      intros ->. apply Hw. by eapply list_elem_of_lookup_2.
    + rewrite lookup_app_r in Hi by lia.
      apply list_lookup_singleton_Some in Hi as [Hi ->].
      rewrite lookup_insert_eq. f_equal. lia.
  - intros Hk. destruct (decide (w = x)) as [->|Hne].
    + rewrite lookup_insert_eq in Hk. injection Hk as <-.
      by rewrite lookup_app_r, Nat.sub_diag.
    + rewrite lookup_insert_ne in Hk by done. apply Hc in Hk.
      by apply lookup_app_l_Some.
Qed.

(** Dropping the last element together with its key. *)
Lemma coherent_drop_last l x ks :
  Actions.coherent (Actions.mk (l ++ [x]) ks) → Actions.coherent (Actions.mk l (delete x ks)).
Proof.
  intros Hc j w; simpl. 
  assert (Hx : ks !! x = Some (length l)).
  { apply (Hc (length l) x). simpl. by rewrite lookup_app_r, Nat.sub_diag. }
  split.
  - intros Hj. pose proof (lookup_lt_Some _ _ _ Hj) as Hlt.
    assert (Hk : ks !! w = Some j) by (apply (Hc j w); simpl; by apply lookup_app_l_Some).
    rewrite lookup_delete_ne; [done|]. intros ->. rewrite Hx in Hk. injection Hk. lia.
  - intros Hk. destruct (decide (x = w)) as [->|Hne]; [by rewrite lookup_delete_eq in Hk|].
    rewrite lookup_delete_ne in Hk by done.
    pose proof Hk as Hj. apply (Hc j w) in Hj; simpl in Hj.
    apply lookup_app_Some in Hj as [Hj|[_ Hj]]; [done|].
    apply list_lookup_singleton_Some in Hj as [_ ?]. done.
Qed.

(** Moving the last element into slot [i]. *)
Lemma coherent_swap_last l x ks i v :
  Actions.coherent (Actions.mk (l ++ [x]) ks) → l !! i = Some v →
  Actions.coherent (Actions.mk (<[i := x]> l) (<[x := i]> (delete v ks))).
Proof.
  intros Hc Hi j w; simpl.
  pose proof (lookup_lt_Some _ _ _ Hi) as Hlt.
  assert (Hx : ks !! x = Some (length l)).
  { apply (Hc (length l) x). simpl. by rewrite lookup_app_r, Nat.sub_diag. }
  assert (Hv : ks !! v = Some i).
  { apply (Hc i v). simpl. by apply lookup_app_l_Some. }
  split.
  - intros Hj. destruct (decide (i = j)) as [<-|Hne].
    + rewrite list_lookup_insert_eq in Hj by done. injection Hj as <-.
      by rewrite lookup_insert_eq.
    + rewrite list_lookup_insert_ne in Hj by done.
      pose proof (lookup_lt_Some _ _ _ Hj) as Hlt'.
      assert (Hk : ks !! w = Some j) by (apply (Hc j w); simpl; by apply lookup_app_l_Some).
      rewrite lookup_insert_ne by (intros ->; rewrite Hx in Hk; injection Hk; lia).
      rewrite lookup_delete_ne by (intros ->; rewrite Hv in Hk; injection Hk; lia).
      done.
  - intros Hk. destruct (decide (x = w)) as [->|Hne].
    + rewrite lookup_insert_eq in Hk. injection Hk as <-.
      by rewrite list_lookup_insert_eq.
    + rewrite lookup_insert_ne in Hk by done.
      destruct (decide (v = w)) as [->|Hne']; [by rewrite lookup_delete_eq in Hk|].
      rewrite lookup_delete_ne in Hk by done.
      pose proof Hk as Hj. apply (Hc j w) in Hj; simpl in Hj.
      apply lookup_app_Some in Hj as [Hj|[_ Hj]].
      * rewrite list_lookup_insert_ne; [done|]. intros ->. congruence.
      * apply list_lookup_singleton_Some in Hj as [_ ?]. done.
Qed.

Lemma _pop_snoc l x ks :
  Actions._pop (Actions.mk (l ++ [x]) ks) = (Some x, Actions.mk l ks).
Proof. unfold Actions._pop; simpl. by rewrite last_snoc, removelast_last. Qed.

Lemma _pop_nil ks : Actions._pop (Actions.mk (T:=T) [] ks) = (None, Actions.mk [] ks).
Proof. done. Qed.

Lemma coherent_pop a : Actions.coherent a → Actions.coherent (Actions.pop a).2.
Proof.
  destruct a as [l ks]. intros Hc. unfold Actions.pop.
  destruct l as [|y l' _] using rev_ind.
  - by rewrite _pop_nil.
  - rewrite _pop_snoc. simpl. by apply coherent_drop_last.
Qed.

Lemma pop_last a :
  (Actions.pop a).1 = last (Actions.actions a) ∧
  Actions.actions (Actions.pop a).2 = removelast (Actions.actions a).
Proof.
  unfold Actions.pop, Actions._pop. by destruct (last (Actions.actions a)).
Qed.

Lemma coherent_removeBy a i :
  Actions.coherent a → i < length (Actions.actions a) →
  Actions.coherent (Actions.removeBy i a).2 ∧
  (Actions.removeBy i a).1 = Actions.actions a !! i.
Proof.
  destruct a as [l ks]. intros Hc Hi. unfold Actions.removeBy. simpl in Hi.
  destruct l as [|x l' _] using rev_ind; [simpl in Hi; lia|].
  rewrite _pop_snoc. cbn [Actions.actions Actions.keys].
  rewrite length_app in Hi; simpl in Hi.
  destruct (Nat.eqb_spec i (length l')) as [->|Hne].
  - simpl. split; [by apply coherent_drop_last|].
    by rewrite lookup_app_r, Nat.sub_diag.
  - assert (Hlt : i < length l') by lia.
    destruct (lookup_lt_is_Some_2 _ _ Hlt) as [v Hv]. rewrite Hv. simpl.
    split; [by apply coherent_swap_last|]. by rewrite lookup_app_l.
Qed.

Lemma coherent_remove a w : Actions.coherent a → Actions.coherent (Actions.remove w a).
Proof.
  destruct a as [l ks]. intros Hc. unfold Actions.remove. cbn [Actions.keys].
  destruct (ks !! w) as [i|] eqn:Hk; [|done].
  pose proof Hk as Hi. apply (Hc i w) in Hi; simpl in Hi.
  destruct l as [|x l' _] using rev_ind; [done|].
  rewrite _pop_snoc. cbn [Actions.actions Actions.keys].
  apply lookup_app_Some in Hi as [Hi|[Hge Hi]].
  - pose proof (lookup_lt_Some _ _ _ Hi) as Hlt.
    destruct (Nat.eqb_spec i (length l')) as [->|_]; [lia|].
    by apply coherent_swap_last.
  - apply list_lookup_singleton_Some in Hi as [Hi ->].
    assert (i = length l') as -> by lia. rewrite Nat.eqb_refl.
    by apply coherent_drop_last.
Qed.

Lemma remove_missing a w : Actions.keys a !! w = None → Actions.remove w a = a.
Proof. intros Hk. unfold Actions.remove. by rewrite Hk. Qed.

Lemma coherent_not_stored a w :
  Actions.coherent a → w ∉ Actions.actions a → Actions.keys a !! w = None.
Proof.
  intros Hc Hw. destruct (Actions.keys a !! w) as [i|] eqn:Hk; [|done].
  exfalso. apply Hw. apply (Hc i w) in Hk. by eapply list_elem_of_lookup_2.
Qed.

End ActionsFacts.

(** C9 (amended): the index coherence invariant ([index] is the inverse of
    [items], hence the stored elements are pairwise distinct, every stored
    [w] has [items[index[w]] == w] and [index] holds exactly the stored
    elements) holds of the empty set and is preserved by [push] of an
    element not currently stored, by [pop], by [removeBy] with a valid
    index, by [remove] and by [clear]; [remove] of an element that is not
    stored changes nothing. *)
Theorem Actions_coherence_preserved {T : Type} `{Countable T} (a : Actions.t T) (w : T) (i : nat) :
  Actions.coherent a →
  Actions.coherent (Actions.empty (T:=T)) ∧
  (Actions.index_coherent a ∧ NoDup (Actions.actions a)) ∧
  (w ∉ Actions.actions a → Actions.coherent (Actions.push w a)) ∧
  Actions.coherent (Actions.pop a).2 ∧
  (i < length (Actions.actions a) → Actions.coherent (Actions.removeBy i a).2) ∧
  Actions.coherent (Actions.remove w a) ∧
  Actions.coherent (Actions.clear a) ∧
  (w ∉ Actions.actions a → Actions.remove w a = a).
Proof.
  intros Hc. split_and!.
  - apply coherent_empty.
  - by apply coherent_index_coherent.
  - by apply coherent_NoDup.
  - intros Hw. by apply coherent_push.
  - by apply coherent_pop.
  - intros Hi. by apply coherent_removeBy.
  - by apply coherent_remove.
  - apply coherent_clear.
  - intros Hw. apply remove_missing. by apply coherent_not_stored.
Qed.

Lemma Actions_coherence_preserved_witness :
  Actions.coherent two_waiters ∧
  Actions.coherent (Actions.push 2 two_waiters) ∧
  Actions.coherent (Actions.removeBy 0 two_waiters).2 ∧
  Actions.remove 2 two_waiters = two_waiters.
Proof.
  assert (Hc : Actions.coherent two_waiters).
  { apply coherent_push; [apply coherent_push; [apply coherent_empty|]|]; simpl.
    - apply not_elem_of_nil.
    - intros Hin. apply list_elem_of_singleton in Hin. discriminate. }
  assert (Hfresh : 2 ∉ Actions.actions two_waiters).
  { simpl. intros Hin. apply elem_of_cons in Hin as [Hin|Hin]; [discriminate|].
    apply list_elem_of_singleton in Hin. discriminate. }
  destruct (Actions_coherence_preserved two_waiters 2 0 Hc)
    as (_ & _ & Hpush & _ & Hrm & _ & _ & Hmiss).
  split_and!; [exact Hc | exact (Hpush Hfresh) | apply Hrm; simpl; lia | exact (Hmiss Hfresh)].
Defined.

(** [push] of an element that is already stored: the invariant as the
    specification words it still holds after the second [push], but
    [remove] then leaves the element stored without an index entry; read
    as "the index is the inverse of the array", the invariant is already
    lost at the second [push]. *)
Lemma Actions_push_stored_then_remove :
  Actions.index_coherent pushed_twice ∧
  ¬ Actions.index_coherent (Actions.remove 7 pushed_twice) ∧
  Actions.coherent (Actions.push 7 (Actions.empty (T:=nat))) ∧
  ¬ Actions.coherent pushed_twice.
Proof.
  split_and!.
  - split.
    + intros w Hw. exists 1. simpl in Hw.
      assert (w = 7) as ->.
      { apply elem_of_cons in Hw as [->|Hw]; [done|]. by apply list_elem_of_singleton in Hw. }
      done.
    + intros w. unfold pushed_twice; simpl.
      rewrite !dom_insert_L, dom_empty_L, !elem_of_union, elem_of_empty, elem_of_singleton,
        elem_of_cons, list_elem_of_singleton. tauto.
  - intros [Hstored _]. destruct (Hstored 7) as (i & Hi & _).
    + vm_compute. apply list_elem_of_here.
    + vm_compute in Hi. discriminate.
  - apply coherent_push; [apply coherent_empty|apply not_elem_of_nil].
  - intros Hc. pose proof (proj1 (Hc 0 7) eq_refl) as Hk. vm_compute in Hk. discriminate.
Qed.

(** ** Operations that could not proceed leave the store alone *)

Lemma set_chans_insert_id w ch rw :
  chans w !! ch = Some rw → set_chans <[ch := rw]> w = w.
Proof. intros E. destruct w. unfold set_chans; simpl in *. f_equal. by apply insert_id. Qed.

Lemma set_list__id rw list : list_ rw = Some list → set_list_ (λ _, Some list) rw = rw.
Proof. intros E. destruct rw. simpl in *. by subst. Qed.

Ltac munfold :=
  unfold mbind, M_bind, mret, M_ret, effect, gets, throw, get_rw, get_case in *.

Lemma list_pop_empty ch w rw list :
  chans w !! ch = Some rw → list_ rw = Some list → Ring.size_ list = 0 →
  list_pop ch w = (Return noResult, w).
Proof.
  intros Hch Hl Hs. unfold list_pop. rewrite Hch, Hl.
  unfold Ring.pop. rewrite Hs. simpl.
  by rewrite set_list__id, set_chans_insert_id.
Qed.

Lemma list_pop_done ch w r w' :
  list_pop ch w = (Return r, w') → truthy (IteratorResult.done r) = true →
  w' = w ∧ ∃ rw list, chans w !! ch = Some rw ∧ list_ rw = Some list ∧ Ring.size_ list = 0.
Proof.
  unfold list_pop. destruct (chans w !! ch) as [rw|] eqn:Hch; [|done].
  destruct (list_ rw) as [list|] eqn:Hl; [|done].
  unfold Ring.pop. destruct (Nat.eqb_spec (Ring.size_ list) 0) as [Hs|Hs].
  - intros [= <- <-] _. rewrite set_list__id, set_chans_insert_id by done. eauto 6.
  - intros [= <- <-]. done.
Qed.

Lemma RW_tryRead_uncached_done ch w r w' :
  RW_tryRead_uncached ch w = (Return (Some r), w') → truthy (IteratorResult.done r) = true →
  w' = w ∧ ∃ rw, chans w !! ch = Some rw ∧ isClosed rw = false ∧
                 Actions.length (w_actions (w_ rw)) = 0.
Proof.
  unfold RW_tryRead_uncached, Writer_isEmpty. munfold.
  destruct (chans w !! ch) as [rw|] eqn:Hch; [|done].
  destruct (isClosed rw) eqn:Hcl; [done|]. rewrite Hch.
  destruct (Nat.eqb_spec (Actions.length (w_actions (w_ rw))) 0) as [He|He].
  - intros [= <- <-] _. eauto.
  - destruct (Writer_invoke ch w) as [[v|e] w1]; [|done].
    intros [= <- <-]. done.
Qed.

Lemma RW_tryRead_NotReady ch w r w' :
  RW_tryRead ch w = (Return (Some r), w') → truthy (IteratorResult.done r) = true →
  w' = w ∧ ∃ rw, chans w !! ch = Some rw ∧ RW_length rw = 0 ∧ isClosed rw = false ∧
                 Actions.length (w_actions (w_ rw)) = 0.
Proof.
  unfold RW_tryRead. munfold.
  destruct (chans w !! ch) as [rw|] eqn:Hch; [|done].
  destruct (list_ rw) as [list|] eqn:Hl.
  - destruct (list_pop ch w) as [[result|e] w1] eqn:Hpop; [|done].
    destruct (truthy (IteratorResult.done result)) eqn:Hd; simpl.
    + apply list_pop_done in Hpop as [-> (rw' & list' & Hch' & Hl' & Hs)]; [|done].
      intros Hu Ht. apply RW_tryRead_uncached_done in Hu as [-> (rw2 & Hch2 & ? & ?)]; [|done].
      split; [done|]. exists rw. rewrite Hch in Hch', Hch2. simplify_eq.
      unfold RW_length. rewrite Hl. eauto.
    + unfold Writer_isEmpty. munfold.
      destruct (chans w1 !! ch) as [rw1|]; [|done].
      destruct (negb _).
      * destruct (Writer_invoke ch w1) as [[v|e] w2]; [|done].
        destruct (list_push ch v w2) as [[b|e] w3]; [|done].
        intros [= <- <-] Ht. congruence.
      * intros [= <- <-] Ht. congruence.
  - intros Hu Ht. apply RW_tryRead_uncached_done in Hu as [-> (rw2 & Hch2 & ? & ?)]; [|done].
    split; [done|]. exists rw. simplify_eq. unfold RW_length. rewrite Hl. eauto.
Qed.

Lemma list_push_full ch v w w' :
  list_push ch v w = (Return false, w') → 
  w' = w ∧ ∃ rw list, chans w !! ch = Some rw ∧ list_ rw = Some list ∧
     Ring.size_ list = length (Ring.arrs list).
Proof.
  unfold list_push. destruct (chans w !! ch) as [rw|] eqn:Hch; [|done].
  destruct (list_ rw) as [list|] eqn:Hl; [|done].
  unfold Ring.push. destruct (Nat.eqb_spec (Ring.size_ list) (length (Ring.arrs list))) as [Hs|Hs].
  - intros [= <-]. rewrite set_list__id, set_chans_insert_id by done. eauto 6.
  - intros [= <- <-].
Qed.

Lemma RW_tryWrite_Full ch v w w' :
  RW_tryWrite ch v w = (Return (Some false), w') →
  w' = w ∧ ∃ rw, chans w !! ch = Some rw ∧ isClosed rw = false ∧
     Actions.length (r_actions (r_ rw)) = 0 ∧ RW_length rw = RW_capacity rw.
Proof.
  unfold RW_tryWrite, Reader_isEmpty. munfold.
  destruct (chans w !! ch) as [rw|] eqn:Hch; [|done].
  destruct (isClosed rw) eqn:Hcl; [done|]. rewrite Hch.
  destruct (Nat.eqb_spec (Actions.length (r_actions (r_ rw))) 0) as [He|He].
  - destruct (list_ rw) as [list|] eqn:Hl.
    + destruct (list_push ch v w) as [[b|e] w1] eqn:Hp; [|done].
      intros [= -> <-]. apply list_push_full in Hp as [-> (rw' & list' & ? & ? & ?)].
      split; [done|]. exists rw. simplify_eq. unfold RW_length, RW_capacity. rewrite Hl.
      eauto.
    + intros [= <-]. split; [done|]. exists rw. unfold RW_length, RW_capacity. rewrite Hl. eauto.
  - destruct (Reader_invoke _ _ _) as [[?|e] w1]; [|done]. intros [= <-].
Qed.

(** C10: when [tryRead] reports "not ready" or [tryWrite] reports "full",
    the whole store (buffer contents, head offset, size, both pools, the
    closed flag) is the one before the call; stated for the engine and for
    the facade. *)
Theorem NotReady_and_Full_leave_store_unchanged (ch : nat) (v : jsval) (w w' : World) :
  (∀ r, RW_tryRead ch w = (Return (Some r), w') →
        truthy (IteratorResult.done r) = true → w' = w) ∧
  (RW_tryWrite ch v w = (Return (Some false), w') → w' = w) ∧
  (∀ r, Chan_tryRead ch no_options w = (Return r, w') →
        ReadValue.closed r = Some false → ReadValue.ok r = false → w' = w) ∧
  (∀ r, Chan_tryWrite ch v no_options w = (Return r, w') →
        WriteValue.ok r = Some false → WriteValue.error r = None → w' = w).
Proof.
  split_and!.
  - intros r Hr Hd. by apply RW_tryRead_NotReady in Hr as [-> _].
  - intros Hr. by apply RW_tryWrite_Full in Hr as [-> _].
  - intros r. unfold Chan_tryRead. munfold. simpl.
    destruct (RW_tryRead ch w) as [[[val|]|e] w1] eqn:Hr; [| |done].
    + destruct (truthy (IteratorResult.done val)) eqn:Hd.
      * intros [= <- <-] _ _. by apply RW_tryRead_NotReady in Hr as [-> _].
      * by intros [= <- <-] _ ?.
    + by intros [= <- <-] ? _.
  - intros r. unfold Chan_tryWrite. munfold. simpl.
    destruct (RW_tryWrite ch v w) as [[[[|]|]|e] w1] eqn:Hr; try done.
    + by intros [= <- <-] ? _.
    + intros [= <- <-] _ _. by apply RW_tryWrite_Full in Hr as [-> _].
Qed.

Lemma NotReady_and_Full_leave_store_unchanged_witness :
  RW_tryRead 0 idle_chan = (Return (Some noResult), idle_chan) ∧
  RW_tryWrite 0 (VNum 2) full_chan = (Return (Some false), full_chan) ∧
  idle_chan = idle_chan ∧ full_chan = full_chan.
Proof.
  split_and!; [reflexivity | reflexivity | |].
  - apply (proj1 (NotReady_and_Full_leave_store_unchanged 0 (VNum 2) idle_chan idle_chan)
             noResult); reflexivity.
  - apply (proj1 (proj2 (NotReady_and_Full_leave_store_unchanged 0 (VNum 2) full_chan
                           full_chan))); reflexivity.
Defined.

(** ** Closed channels, aborted signals, case outcomes *)

Lemma RW_tryWrite_closed ch v w rw :
  chans w !! ch = Some rw → isClosed rw = true → RW_tryWrite ch v w = (Return None, w).
Proof. intros Hch Hcl. unfold RW_tryWrite. munfold. by rewrite Hch, Hcl. Qed.

Lemma Chan_tryWrite_closed ch v sig w rw :
  chans w !! ch = Some rw → isClosed rw = true → signal_aborted sig w = false →
  Chan_tryWrite ch v {| signal := sig; silent := false |} w = (Throw ChannelClosed, w) ∧
  Chan_tryWrite ch v {| signal := sig; silent := true |} w =
    (Return {| WriteValue.ok := Some false; WriteValue.error := Some true;
               WriteValue.reason := ChannelClosed |}, w).
Proof.
  intros Hch Hcl Hsig. unfold Chan_tryWrite. munfold. simpl.
  by rewrite Hsig, (RW_tryWrite_closed _ _ _ _ Hch Hcl).
Qed.

(** C5: on a closed channel [tryWrite(v)] throws the ChannelClosed error,
    [tryWrite(v, {silent: true})] returns [{ok: false, error: true,
    reason: <ChannelClosed>}], and in both modes the store (buffer, pools,
    closed flag and everything else) is the one before the call.  A signal
    may be passed as long as it has not aborted. *)
Theorem tryWrite_on_closed_channel (ch : nat) (v : jsval) (sig : option nat) (w : World)
    (rw : RW) :
  chans w !! ch = Some rw → isClosed rw = true → signal_aborted sig w = false →
  Chan_tryWrite ch v {| signal := sig; silent := false |} w = (Throw ChannelClosed, w) ∧
  Chan_tryWrite ch v {| signal := sig; silent := true |} w =
    (Return {| WriteValue.ok := Some false; WriteValue.error := Some true;
               WriteValue.reason := ChannelClosed |}, w).
Proof. apply Chan_tryWrite_closed. Qed.

Lemma tryWrite_on_closed_channel_witness :
  Chan_tryWrite 0 (VNum 1) {| signal := None; silent := false |} closed_chan
    = (Throw ChannelClosed, closed_chan) ∧
  Chan_tryWrite 0 (VNum 1) {| signal := None; silent := true |} closed_chan =
    (Return {| WriteValue.ok := Some false; WriteValue.error := Some true;
               WriteValue.reason := ChannelClosed |}, closed_chan).
Proof.
  eapply (tryWrite_on_closed_channel 0 (VNum 1) None closed_chan); reflexivity.
Defined.

(** C7: when the signal is already aborted at entry, [selectChan] returns
    [{reason: signal.reason}] (silent) or throws [signal.reason], and the
    store is unchanged: no case was reset, try-invoked or armed and no
    channel was touched, whatever the cases are. *)
Theorem selectChan_aborted_at_entry (opts : SelectOptions.t) (w : World) :
  signal_aborted (SelectOptions.signal opts) w = true →
  selectChan opts w =
    (if SelectOptions.silent opts
     then Return (SelAborted (signal_reason (SelectOptions.signal opts) w))
     else Throw (signal_reason (SelectOptions.signal opts) w), w).
Proof.
  intros Hab. unfold selectChan. munfold. rewrite Hab.
  by destruct (SelectOptions.silent opts).
Qed.

Lemma selectChan_aborted_at_entry_witness :
  (RW_tryRead 0 ready_and_aborted).1 =
    Return (Some {| IteratorResult.done := Some false; IteratorResult.value := VNum 10 |}) ∧
  selectChan {| SelectOptions.default := false; SelectOptions.silent := true;
                SelectOptions.signal := Some 1; SelectOptions.chans := Some [Some 2] |}
    ready_and_aborted = (Return (SelAborted (VStr "stopped")), ready_and_aborted).
Proof.
  split; [reflexivity|].
  apply (selectChan_aborted_at_entry
           {| SelectOptions.default := false; SelectOptions.silent := true;
              SelectOptions.signal := Some 1; SelectOptions.chans := Some [Some 2] |}
           ready_and_aborted).
  reflexivity.
Defined.

(** C2 (what the code does): for a write case on a closed channel,
    [tryInvoke(true)] returns false and stores nothing, while
    [tryInvoke(false)] rethrows the ChannelClosed error. *)
Theorem WriteCase_tryInvoke_closed_silent_returns_false (c ch : nat) (v : jsval)
    (slot : option WriteValue.t) (w : World) (rw : RW) :
  cases w !! c = Some (WriteCase ch v slot) →
  chans w !! ch = Some rw → isClosed rw = true →
  Case_tryInvoke c true w = (Return false, w) ∧
  Case_tryInvoke c false w = (Throw ChannelClosed, w).
Proof.
  intros Hc Hch Hcl. unfold Case_tryInvoke, WriteCase_tryInvoke. munfold. rewrite Hc.
  destruct (Chan_tryWrite_closed ch v None w rw Hch Hcl eq_refl) as [-> ->].
  done.
Qed.

Lemma WriteCase_tryInvoke_closed_silent_returns_false_witness :
  Case_tryInvoke 1 true closed_write_case = (Return false, closed_write_case) ∧
  Case_tryInvoke 1 false closed_write_case = (Throw ChannelClosed, closed_write_case).
Proof.
  eapply (WriteCase_tryInvoke_closed_silent_returns_false 1 0 (VNum 1) None closed_write_case);
    reflexivity.
Defined.





(** ** Callbacks only remove waiters *)

Section ActionsSubset.
Context {T : Type} `{Countable T}.

Lemma removelast_subseteq (l : list T) : removelast l ⊆ l.
Proof.
  destruct l as [|x l' _] using rev_ind; [done|].
  rewrite removelast_last. intros y Hy. apply elem_of_app. by left.
Qed.

Lemma insert_last_subseteq (l : list T) x i : <[i := x]> l ⊆ l ++ [x].
Proof.
  intros y [j Hj]%list_elem_of_lookup. destruct (decide (i = j)) as [->|Hne].
  - apply list_lookup_insert_Some in Hj as [(_ & -> & _)|[? _]]; [|done].
    apply elem_of_app. right. apply list_elem_of_here.
  - rewrite list_lookup_insert_ne in Hj by done.
    apply elem_of_app. left. by eapply list_elem_of_lookup_2.
Qed.

Lemma remove_subseteq (a : Actions.t T) x :
  Actions.actions (Actions.remove x a) ⊆ Actions.actions a.
Proof.
  destruct a as [l ks]. unfold Actions.remove. cbn [Actions.keys].
  destruct (ks !! x) as [i|]; [|done].
  destruct l as [|y l' _] using rev_ind.
  - simpl. destruct (i =? 0); done.
  - rewrite _pop_snoc. cbn [Actions.actions Actions.keys].
    destruct (i =? length l'); simpl.
    + intros z Hz. apply elem_of_app. by left.
    + apply insert_last_subseteq.
Qed.

Lemma removelast_length_le (l : list T) : length (removelast l) ≤ length l.
Proof.
  destruct l as [|x l' _] using rev_ind; [done|].
  rewrite removelast_last, length_app. lia.
Qed.

Lemma remove_length_le (a : Actions.t T) x :
  Actions.length (Actions.remove x a) ≤ Actions.length a.
Proof.
  destruct a as [l ks]. unfold Actions.remove, Actions.length. cbn [Actions.keys].
  destruct (ks !! x) as [i|]; [|done].
  pose proof (removelast_length_le l).
  unfold Actions._pop. cbn [Actions.actions Actions.keys].
  destruct (i =? length (removelast l)); [done|].
  destruct (last l); simpl; [by rewrite length_insert|done].
Qed.

Lemma pop_subseteq (a : Actions.t T) :
  Actions.actions (Actions.pop a).2 ⊆ Actions.actions a.
Proof. destruct (pop_last a) as [_ ->]. apply removelast_subseteq. Qed.

Lemma removeBy_subseteq (a : Actions.t T) i :
  Actions.actions (Actions.removeBy i a).2 ⊆ Actions.actions a.
Proof.
  destruct a as [l ks]. unfold Actions.removeBy.
  destruct l as [|y l' _] using rev_ind; [done|].
  rewrite _pop_snoc. cbn [Actions.actions Actions.keys].
  destruct (i =? length l'); simpl.
  - intros z Hz. apply elem_of_app. by left.
  - destruct (l' !! i); simpl; [apply insert_last_subseteq|].
    intros z Hz. apply elem_of_app. by left.
Qed.

End ActionsSubset.

Lemma rw_shrinks_refl rw : rw_shrinks rw rw.
Proof. by split_and!. Qed.

Lemma rw_shrinks_trans rw1 rw2 rw3 : rw_shrinks rw1 rw2 → rw_shrinks rw2 rw3 → rw_shrinks rw1 rw3.
Proof.
  intros (?&?&?&?&?) (?&?&?&?&?).
  split_and!; [congruence|by etrans|by etrans|lia|lia].
Qed.

Lemma shrinks_refl w : shrinks w w.
Proof. intros ch. destruct (chans w !! ch); constructor. apply rw_shrinks_refl. Qed.

Lemma shrinks_trans w1 w2 w3 : shrinks w1 w2 → shrinks w2 w3 → shrinks w1 w3.
Proof.
  intros H12 H23 ch. specialize (H12 ch). specialize (H23 ch).
  destruct H12; inversion H23; simplify_eq; constructor. by eapply rw_shrinks_trans.
Qed.

Lemma shrinks_same_chans w w' : chans w' = chans w → shrinks w w'.
Proof. intros E ch. rewrite E. destruct (chans w !! ch); constructor. apply rw_shrinks_refl. Qed.

Lemma shrinks_alter w ch f :
  (∀ rw, rw_shrinks rw (f rw)) → shrinks w (set_chans (alter f ch) w).
Proof.
  intros Hf ch'. simpl. destruct (decide (ch = ch')) as [->|Hne].
  - rewrite lookup_alter_eq. destruct (chans w !! ch'); constructor. apply Hf.
  - rewrite lookup_alter_ne by done. destruct (chans w !! ch'); constructor. apply rw_shrinks_refl.
Qed.

Lemma shrinks_Reader_disconnect ch a w : shrinks w (Reader_disconnect ch a w).
Proof.
  apply shrinks_alter. intros rw.
  split_and!; try done; [apply remove_subseteq|apply remove_length_le].
Qed.

Lemma shrinks_Writer_disconnect ch a w : shrinks w (Writer_disconnect ch a w).
Proof.
  apply shrinks_alter. intros rw.
  split_and!; try done; [apply remove_subseteq|apply remove_length_le].
Qed.

Lemma shrinks_Connection_disconnect a w : shrinks w (Connection_disconnect a w).
Proof.
  unfold Connection_disconnect.
  destruct (acts w !! a) as [[[r|] cb|[x|] v cb]|]; try apply shrinks_refl.
  - eapply shrinks_trans; [|apply shrinks_Reader_disconnect]. by apply shrinks_same_chans.
  - eapply shrinks_trans; [|apply shrinks_Writer_disconnect]. by apply shrinks_same_chans.
Qed.

Lemma shrinks_disconnect_all conns w : shrinks w (disconnect_all conns w).
Proof.
  revert w. induction conns as [|c conns IH]; intros w; [apply shrinks_refl|].
  simpl. eapply shrinks_trans; [apply shrinks_Connection_disconnect|apply IH].
Qed.

Lemma chans_settle p s w : chans (settle p s w) = chans w.
Proof. unfold settle. by destruct (promises w !! p) as [[]|]. Qed.

Lemma chans_removeEventListener sig p w : chans (removeEventListener sig p w) = chans w.
Proof. by destruct sig. Qed.

Lemma chans_addEventListener sig p w : chans (addEventListener sig p w) = chans w.
Proof. by destruct sig. Qed.

Lemma shrinks_settle p s w w' : shrinks w w' → shrinks w (settle p s w').
Proof. intros Hs. eapply shrinks_trans; [done|]. apply shrinks_same_chans, chans_settle. Qed.

Lemma shrinks_CaseCallback_call cb c e r w : shrinks w (CaseCallback_call cb c e r w).
Proof.
  destruct cb as [p|tag]; simpl; [|by apply shrinks_same_chans].
  destruct (closures w !! p) as [[| |conns opts|]|]; try apply shrinks_refl.
  assert (shrinks w (disconnect_all conns (removeEventListener (signal opts) p w))).
  { eapply shrinks_trans; [|apply shrinks_disconnect_all].
    apply shrinks_same_chans, chans_removeEventListener. }
  destruct e; [destruct (silent opts)|]; by apply shrinks_settle.
Qed.

Lemma shrinks_ReadCallback_call cb val w : shrinks w (ReadCallback_call cb val w).
Proof.
  destruct cb as [p|c cb]; simpl.
  - destruct (closures w !! p) as [[| | |]|]; try apply shrinks_refl.
    apply shrinks_settle, shrinks_same_chans, chans_removeEventListener.
  - eapply shrinks_trans; [|apply shrinks_CaseCallback_call]. by apply shrinks_same_chans.
Qed.

Lemma shrinks_WriteCallback_call cb val r w : shrinks w (WriteCallback_call cb val r w).
Proof.
  destruct cb as [p|c cb]; simpl.
  - destruct (closures w !! p) as [[| | |]|]; try apply shrinks_refl.
    destruct val; [|destruct (silent opts)];
      apply shrinks_settle, shrinks_same_chans, chans_removeEventListener.
  - destruct val; (eapply shrinks_trans; [|apply shrinks_CaseCallback_call]);
      by apply shrinks_same_chans.
Qed.

Lemma shrinks_ReadAction_invoke a val w : shrinks w (ReadAction_invoke a val w).
Proof.
  unfold ReadAction_invoke. destruct (acts w !! a) as [[r [cb|]|]|]; try apply shrinks_refl.
  apply shrinks_ReadCallback_call.
Qed.

Lemma shrinks_WirteAction_invoke a w : shrinks w (WirteAction_invoke a w).
Proof.
  unfold WirteAction_invoke. destruct (acts w !! a) as [[|x v [cb|]]|]; try apply shrinks_refl.
  apply shrinks_WriteCallback_call.
Qed.

Lemma shrinks_WirteAction_close a r w : shrinks w (WirteAction_close a r w).
Proof.
  unfold WirteAction_close. destruct (acts w !! a) as [[|x v [cb|]]|]; try apply shrinks_refl.
  apply shrinks_WriteCallback_call.
Qed.

Lemma shrinks_onAbort p w : shrinks w (onAbort p w).
Proof.
  unfold onAbort. destruct (closures w !! p) as [[a opts|a opts|conns opts|s sl]|];
    try apply shrinks_refl.
  - destruct (silent opts); apply shrinks_settle, shrinks_Connection_disconnect.
  - destruct (silent opts); apply shrinks_settle, shrinks_Connection_disconnect.
  - destruct (silent opts); apply shrinks_settle, shrinks_disconnect_all.
  - destruct sl; apply shrinks_settle, shrinks_refl.
Qed.

Lemma shrinks_foldl {A} (f : World → A → World) (l : list A) w :
  (∀ x w0, shrinks w0 (f w0 x)) → shrinks w (foldl f w l).
Proof.
  intros Hf. revert w. induction l as [|x l IH]; intros w; [apply shrinks_refl|].
  simpl. eapply shrinks_trans; [apply Hf|apply IH].
Qed.

Lemma shrinks_AbortController_abort s r w : shrinks w (AbortController_abort s r w).
Proof.
  unfold AbortController_abort. destruct (signals w !! s) as [sg|]; [|apply shrinks_refl].
  destruct (aborted sg); [apply shrinks_refl|].
  eapply shrinks_trans; [|apply shrinks_foldl; intros; apply shrinks_onAbort].
  by apply shrinks_same_chans.
Qed.

Lemma shrinks_Reader_close_loop fuel i ch w : shrinks w (Reader_close_loop fuel i ch w).
Proof.
  revert i w. induction fuel as [|fuel IH]; intros i w; [apply shrinks_refl|].
  simpl. destruct (Actions.actions (reader_actions ch w) !! i); [|apply shrinks_refl].
  eapply shrinks_trans; [apply shrinks_ReadAction_invoke|apply IH].
Qed.

Lemma shrinks_Writer_close_loop fuel i ch err w :
  shrinks w (Writer_close_loop fuel i ch err w).
Proof.
  revert i w. induction fuel as [|fuel IH]; intros i w; [apply shrinks_refl|].
  simpl. destruct (Actions.actions (writer_actions ch w) !! i); [|apply shrinks_refl].
  eapply shrinks_trans; [apply shrinks_WirteAction_close|apply IH].
Qed.

Lemma reader_actions_length_shrinks w w' ch :
  shrinks w w' →
  Actions.length (reader_actions ch w') ≤ Actions.length (reader_actions ch w).
Proof.
  intros Hs. specialize (Hs ch). unfold reader_actions.
  destruct Hs as [rw rw' (_ & _ & _ & Hr & _)|]; [done|]. done.
Qed.

Lemma writer_actions_length_shrinks w w' ch :
  shrinks w w' →
  Actions.length (writer_actions ch w') ≤ Actions.length (writer_actions ch w).
Proof.
  intros Hs. specialize (Hs ch). unfold writer_actions.
  destruct Hs as [rw rw' (_ & _ & _ & _ & Hw)|]; [done|]. done.
Qed.

(** The fuel given to the close loops, the length of the pool when the
    loop starts, is enough: more fuel changes nothing. *)
Lemma Reader_close_loop_fuel fuel extra i ch w :
  Actions.length (reader_actions ch w) ≤ i + fuel →
  Reader_close_loop (fuel + extra) i ch w = Reader_close_loop fuel i ch w.
Proof.
  revert i w. induction fuel as [|fuel IH]; intros i w Hlen.
  - destruct extra as [|extra]; [done|]. simpl.
    rewrite lookup_ge_None_2; [done|]. unfold Actions.length in Hlen. lia.
  - simpl. destruct (Actions.actions (reader_actions ch w) !! i) as [a|]; [|done].
    apply IH.
    pose proof (reader_actions_length_shrinks _ _ ch (shrinks_ReadAction_invoke a noResult w)).
    lia.
Qed.

Lemma Writer_close_loop_fuel fuel extra i ch err w :
  Actions.length (writer_actions ch w) ≤ i + fuel →
  Writer_close_loop (fuel + extra) i ch err w = Writer_close_loop fuel i ch err w.
Proof.
  revert i w. induction fuel as [|fuel IH]; intros i w Hlen.
  - destruct extra as [|extra]; [done|]. simpl.
    rewrite lookup_ge_None_2; [done|]. unfold Actions.length in Hlen. lia.
  - simpl. destruct (Actions.actions (writer_actions ch w) !! i) as [a|]; [|done].
    apply IH.
    pose proof (writer_actions_length_shrinks _ _ ch (shrinks_WirteAction_close a err w)).
    lia.
Qed.


(** ** Reading from a non-empty buffer *)

Lemma list_pop_head ch w rw ring v rest :
  chans w !! ch = Some rw → list_ rw = Some ring → Ring.wf ring →
  Ring.contents ring = v :: rest →
  ∃ ring', list_pop ch w =
             (Return {| IteratorResult.done := Some false; IteratorResult.value := v |},
              set_chans <[ch := set_list_ (λ _, Some ring') rw]> w) ∧
           Ring.wf ring' ∧ Ring.contents ring' = rest ∧
           length (Ring.arrs ring') = length (Ring.arrs ring) ∧
           S (Ring.size_ ring') = Ring.size_ ring.
Proof.
  intros Hch Hl Hwf Hc.
  destruct (pop_head ring v rest Hwf Hc) as (ring' & Hpop & ?).
  exists ring'. split; [|done]. unfold list_pop. by rewrite Hch, Hl, Hpop.
Qed.

Lemma list_push_room ch v w rw ring :
  chans w !! ch = Some rw → list_ rw = Some ring → Ring.wf ring →
  Ring.size_ ring < length (Ring.arrs ring) →
  ∃ ring', list_push ch v w =
             (Return true, set_chans <[ch := set_list_ (λ _, Some ring') rw]> w) ∧
           Ring.wf ring' ∧ Ring.contents ring' = Ring.contents ring ++ [v] ∧
           length (Ring.arrs ring') = length (Ring.arrs ring) ∧
           Ring.size_ ring' = S (Ring.size_ ring).
Proof.
  intros Hch Hl Hwf Hlt.
  destruct (push_room v ring Hwf Hlt) as (ring' & Hpush & ?).
  exists ring'. split; [|done]. unfold list_push. by rewrite Hch, Hl, Hpush.
Qed.

Section ActionsTake.
Context {T : Type} `{Countable T}.

Lemma coherent_stored_iff (a : Actions.t T) x :
  Actions.coherent a → x ∈ Actions.actions a ↔ is_Some (Actions.keys a !! x).
Proof.
  intros Hc. rewrite list_elem_of_lookup. unfold is_Some.
  split; intros [i Hi]; exists i; by apply Hc.
Qed.

Lemma pop_nonempty (a : Actions.t T) :
  Actions.length a ≠ 0 →
  ∃ p, (Actions.pop a).1 = Some p ∧ p ∈ Actions.actions a ∧
       Actions.length (Actions.pop a).2 < Actions.length a ∧
       (Actions.coherent a → p ∉ Actions.actions (Actions.pop a).2).
Proof.
  destruct a as [l ks]. unfold Actions.length, Actions.pop. cbn [Actions.actions].
  destruct l as [|x l' _] using rev_ind; [done|]. intros _.
  rewrite _pop_snoc. exists x. cbn [fst snd Actions.actions].
  split_and!; [done| | |].
  - apply elem_of_app. right. apply list_elem_of_here.
  - rewrite length_app. simpl. lia.
  - intros Hc Hx. apply coherent_drop_last in Hc.
    apply (coherent_stored_iff _ x Hc) in Hx as [i Hi]. simpl in Hi.
    by rewrite lookup_delete_eq in Hi.
Qed.

Lemma removeBy_valid (a : Actions.t T) i :
  i < Actions.length a →
  ∃ p, (Actions.removeBy i a).1 = Some p ∧ p ∈ Actions.actions a ∧
       Actions.length (Actions.removeBy i a).2 < Actions.length a ∧
       (Actions.coherent a → p ∉ Actions.actions (Actions.removeBy i a).2).
Proof.
  destruct a as [l ks]. unfold Actions.length. cbn [Actions.actions].
  destruct l as [|x l' _] using rev_ind; [simpl; lia|].
  rewrite length_app. simpl. intros Hi.
  unfold Actions.removeBy. rewrite _pop_snoc. cbn [Actions.actions Actions.keys].
  destruct (Nat.eqb_spec i (length l')) as [->|Hne].
  - exists x. cbn [fst snd Actions.actions]. split_and!; [done| |lia|].
    + apply elem_of_app. right. apply list_elem_of_here.
    + intros Hc Hx. apply coherent_drop_last in Hc.
      apply (coherent_stored_iff _ x Hc) in Hx as [j Hj]. simpl in Hj.
      by rewrite lookup_delete_eq in Hj.
  - assert (Hlt : i < length l') by lia.
    destruct (lookup_lt_is_Some_2 _ _ Hlt) as [v Hv]. rewrite Hv.
    exists v. cbn [fst snd Actions.actions]. split_and!; [done| | |].
    + apply elem_of_app. left. by eapply list_elem_of_lookup_2.
    + rewrite length_insert. lia.
    + intros Hc Hx. pose proof (coherent_swap_last _ _ _ _ _ Hc Hv) as Hc'.
      apply (coherent_stored_iff _ v Hc') in Hx as [j Hj]. simpl in Hj.
      assert (x ≠ v).
      { intros ->. assert (i = length l'); [|lia].
        eapply (coherent_inj _ _ _ v Hc); simpl.
        - by apply lookup_app_l_Some.
        - by rewrite lookup_app_r, Nat.sub_diag. }
      rewrite lookup_insert_ne, lookup_delete_eq in Hj; done.
Qed.

End ActionsTake.

Lemma chans_set_rng f w : chans (set_rng f w) = chans w.
Proof. done. Qed.

(** What [Writer.invoke] does when a writer is parked. *)
Lemma Writer_invoke_parked ch w rw :
  chans w !! ch = Some rw → Actions.length (w_actions (w_ rw)) ≠ 0 →
  ∃ p w',
    Writer_invoke ch w = (Return (WirteAction_value p w), w') ∧
    p ∈ Actions.actions (w_actions (w_ rw)) ∧
    ∃ rw', chans w' !! ch = Some rw' ∧ rw_shrinks rw rw' ∧
           Actions.length (w_actions (w_ rw')) < Actions.length (w_actions (w_ rw)) ∧
           (Actions.coherent (w_actions (w_ rw)) → p ∉ Actions.actions (w_actions (w_ rw'))).
Proof.
  intros Hch Hne. unfold Writer_invoke. munfold. rewrite Hch.
  set (pool := w_actions (w_ rw)) in *.
  assert (Hfin : ∀ p rest w0,
    chans w0 = chans w → acts w0 = acts w →
    p ∈ Actions.actions pool → 
    Actions.length rest < Actions.length pool →
    (Actions.coherent pool → p ∉ Actions.actions rest) →
    Actions.actions rest ⊆ Actions.actions pool →
    ∃ p' w',
      (Return (WirteAction_value p (modify_writer ch (λ _, rest) w0)),
       WirteAction_invoke p (modify_writer ch (λ _, rest) w0)) =
        (Return (WirteAction_value p' w), w') ∧
      p' ∈ Actions.actions pool ∧
      ∃ rw', chans w' !! ch = Some rw' ∧ rw_shrinks rw rw' ∧
             Actions.length (w_actions (w_ rw')) < Actions.length pool ∧
             (Actions.coherent pool → p' ∉ Actions.actions (w_actions (w_ rw')))).
  { intros p rest w0 Hc0 Ha0 Hp Hlen Hnot Hsub.
    exists p, (WirteAction_invoke p (modify_writer ch (λ _, rest) w0)).
    split; [by unfold WirteAction_value; simpl; rewrite Ha0|]. split; [done|].
    set (w1 := modify_writer ch (λ _, rest) w0).
    assert (Hch1 : chans w1 !! ch = Some (set_w_ (set_w_actions (λ _, rest)) rw)).
    { unfold w1, modify_writer. simpl. by rewrite lookup_alter_eq, Hc0, Hch. }
    pose proof (shrinks_WirteAction_invoke p w1 ch) as Hs. rewrite Hch1 in Hs.
    inversion Hs as [? rw' Hrs Heq1 Heq2|]; subst. symmetry in Heq2.
    destruct Hrs as (Hl & Hr & Hw & Hrl & Hwl). simpl in *.
    exists rw'. split_and!; [done| |lia|].
    - split_and!; [done|done|by etrans|done|fold pool; lia].
    - intros Hco Hin. by apply Hnot, Hw. }
  destruct (Actions.length pool) as [|[|n]] eqn:Hlen; [done| |].
  - destruct (pop_nonempty pool) as (p & Hp1 & Hp2 & Hp3 & Hp4); [lia|].
    pose proof (pop_subseteq pool) as Hsub.
    destruct (Actions.pop pool) as [o rest]. simpl in *. subst o.
    apply Hfin; try done. lia.
  - set (i := hd 0 (rng w) `mod` S (S n)).
    assert (Hi : i < Actions.length pool).
    { rewrite Hlen. apply Nat.mod_upper_bound. lia. }
    unfold random_index. fold i.
    destruct (removeBy_valid pool i Hi) as (p & Hp1 & Hp2 & Hp3 & Hp4).
    pose proof (removeBy_subseteq pool i) as Hsub.
    destruct (Actions.removeBy i pool) as [o rest]. simpl in *. subst o.
    apply Hfin; try done. lia.
Qed.

Lemma RW_tryRead_buffered (ch : nat) (w : World) (rw : RW)
    (ring : Ring.t) (v : jsval) (rest : list jsval) :
  chans w !! ch = Some rw → list_ rw = Some ring → Ring.wf ring →
  Ring.contents ring = v :: rest →
  ∃ w' rw' ring',
    RW_tryRead ch w =
      (Return (Some {| IteratorResult.done := Some false; IteratorResult.value := v |}), w') ∧
    chans w' !! ch = Some rw' ∧ list_ rw' = Some ring' ∧ Ring.wf ring' ∧
    Ring.capacity ring' = Ring.capacity ring ∧
    (Actions.length (w_actions (w_ rw)) = 0 →
       Ring.contents ring' = rest ∧
       w' = set_chans <[ch := set_list_ (λ _, Some ring') rw]> w) ∧
    (Actions.length (w_actions (w_ rw)) ≠ 0 →
       ∃ p, p ∈ Actions.actions (w_actions (w_ rw)) ∧
            Ring.contents ring' = rest ++ [WirteAction_value p w] ∧
            Actions.length (w_actions (w_ rw')) < Actions.length (w_actions (w_ rw)) ∧
            Actions.actions (w_actions (w_ rw')) ⊆ Actions.actions (w_actions (w_ rw)) ∧
            (Actions.coherent (w_actions (w_ rw)) →
               p ∉ Actions.actions (w_actions (w_ rw')))).
Proof.
  intros Hch Hl Hwf Hc.
  destruct (list_pop_head ch w rw ring v rest Hch Hl Hwf Hc)
    as (ring1 & Hpop & Hwf1 & Hc1 & Hlen1 & Hsz1).
  set (rw1 := set_list_ (λ _, Some ring1) rw) in *.
  set (w1 := set_chans <[ch := rw1]> w) in *.
  assert (Hch1 : chans w1 !! ch = Some rw1) by (simpl; by rewrite lookup_insert_eq).
  unfold RW_tryRead, Writer_isEmpty. munfold. rewrite Hch, Hl, Hpop. simpl. rewrite lookup_insert_eq.
  fold w1. simpl.
  destruct (Nat.eqb_spec (Actions.length (w_actions (w_ rw))) 0) as [He|He]; simpl.
  - exists w1, rw1, ring1. split_and!; try done. 
  - destruct (Writer_invoke_parked ch w1 rw1 Hch1 He)
      as (p & w2 & Hinv & Hp & rw2 & Hch2 & Hsh & Hlt & Hnot).
    rewrite Hinv. destruct Hsh as (Hl2 & Hr2 & Hw2 & Hrl2 & Hwl2).
    assert (Hroom : Ring.size_ ring1 < length (Ring.arrs ring1)).
    { destruct Hwf as [Hs _]. lia. }
    destruct (list_push_room ch (WirteAction_value p w1) w2 rw2 ring1 Hch2 Hl2 Hwf1 Hroom)
      as (ring3 & Hpush & Hwf3 & Hc3 & Hlen3 & Hsz3).
    rewrite Hpush.
    eexists _, (set_list_ (λ _, Some ring3) rw2), ring3.
    split_and!; try done.
    + simpl. by rewrite lookup_insert_eq.
    + unfold Ring.capacity. congruence.
    + intros _. exists p. split_and!; try done. by rewrite Hc3, Hc1.
Qed.

(** The earlier revision leaves the writer parked beside a buffer that has
    room again. *)
Lemma RW_tryRead_earlier_leaves_writer_parked :
  (RW_tryRead_earlier 0 full_with_parked_writer).1 =
    Return (Some {| IteratorResult.done := Some false; IteratorResult.value := VNum 1 |}) ∧
  Actions.actions (writer_actions 0 (RW_tryRead_earlier 0 full_with_parked_writer).2) = [2] ∧
  RW_length <$> chans (RW_tryRead_earlier 0 full_with_parked_writer).2 !! 0 = Some 0.
Proof. split_and!; reflexivity. Qed.

(** ** Filling and draining a fresh buffered channel *)

Lemma Chan_tryWrite_no_options ch v w :
  Chan_tryWrite ch v no_options w =
    match RW_tryWrite ch v w with
    | (Return None, w') => (Throw ChannelClosed, w')
    | (Return (Some true), w') => (Return ok_written, w')
    | (Return (Some false), w') => (Return not_written, w')
    | (Throw e, w') => (Throw e, w')
    end.
Proof.
  unfold Chan_tryWrite. munfold. simpl.
  by destruct (RW_tryWrite ch v w) as [[[[|]|]|] ?].
Qed.

Lemma Chan_tryRead_no_options ch w :
  Chan_tryRead ch no_options w =
    match RW_tryRead ch w with
    | (Return None, w') =>
        (Return {| ReadValue.closed := Some true; ReadValue.reason := VUndefined;
                   ReadValue.ok := false; ReadValue.value := VNull |}, w')
    | (Return (Some val), w') =>
        if truthy (IteratorResult.done val)
        then (Return {| ReadValue.closed := Some false; ReadValue.reason := VUndefined;
                        ReadValue.ok := false; ReadValue.value := VNull |}, w')
        else (Return (value_read (IteratorResult.value val)), w')
    | (Throw e, w') => (Throw e, w')
    end.
Proof.
  unfold Chan_tryRead. munfold. simpl.
  destruct (RW_tryRead ch w) as [[[val|]|] ?]; try done.
  by destruct (truthy _).
Qed.

Lemma RW_tryWrite_no_reader ch v w rw :
  chans w !! ch = Some rw → isClosed rw = false →
  Actions.length (r_actions (r_ rw)) = 0 →
  RW_tryWrite ch v w =
    match list_ rw with
    | Some _ =>
        match list_push ch v w with
        | (Return b, w') => (Return (Some b), w')
        | (Throw e, w') => (Throw e, w')
        end
    | None => (Return (Some false), w)
    end.
Proof.
  intros Hch Hcl Hr. unfold RW_tryWrite, Reader_isEmpty. munfold.
  rewrite Hch, Hcl, Hch, Hr. change (0 =? 0) with true. cbv iota.
  by destruct (list_ rw).
Qed.

Lemma idle_tryWrite_room ch k cs v w :
  idle_buffered ch k cs w → length cs < k →
  ∃ w', Chan_tryWrite ch v no_options w = (Return ok_written, w') ∧
        idle_buffered ch k (cs ++ [v]) w'.
Proof.
  intros (rw & ring & Hch & Hl & Hwf & Hk & Hc & Hcl & Hr & Hw) Hlt.
  assert (Hroom : Ring.size_ ring < length (Ring.arrs ring)).
  { rewrite <- (contents_length ring), Hc. by rewrite <- Hk in Hlt. }
  destruct (list_push_room ch v w rw ring Hch Hl Hwf Hroom)
    as (ring' & Hpush & Hwf' & Hc' & Hlen' & Hsz').
  eexists. split.
  - rewrite Chan_tryWrite_no_options, (RW_tryWrite_no_reader _ _ _ _ Hch Hcl Hr), Hl, Hpush.
    reflexivity.
  - exists (set_list_ (λ _, Some ring') rw), ring'. simpl. rewrite lookup_insert_eq.
    split_and!; try done; [unfold Ring.capacity in *; congruence | congruence].
Qed.

Lemma idle_tryWrite_full ch k cs v w :
  idle_buffered ch k cs w → length cs = k →
  Chan_tryWrite ch v no_options w = (Return not_written, w).
Proof.
  intros (rw & ring & Hch & Hl & Hwf & Hk & Hc & Hcl & Hr & Hw) Hlen.
  assert (Hfull : Ring.size_ ring = length (Ring.arrs ring)).
  { rewrite <- (contents_length ring), Hc. by rewrite <- Hk in Hlen. }
  rewrite Chan_tryWrite_no_options, (RW_tryWrite_no_reader _ _ _ _ Hch Hcl Hr), Hl.
  unfold list_push. rewrite Hch, Hl, (push_full _ _ Hfull).
  by rewrite set_list__id, set_chans_insert_id.
Qed.

Lemma idle_tryRead_head ch k v cs w :
  idle_buffered ch k (v :: cs) w →
  ∃ w', Chan_tryRead ch no_options w = (Return (value_read v), w') ∧
        idle_buffered ch k cs w'.
Proof.
  intros (rw & ring & Hch & Hl & Hwf & Hk & Hc & Hcl & Hr & Hw).
  destruct (RW_tryRead_buffered ch w rw ring v cs Hch Hl Hwf Hc)
    as (w' & rw' & ring' & Hrd & Hch' & Hl' & Hwf' & Hk' & Hidle & _).
  destruct (Hidle Hw) as [Hc' ->].
  exists (set_chans <[ch:=set_list_ (λ _, Some ring') rw]> w). split.
  - by rewrite Chan_tryRead_no_options, Hrd.
  - simpl in Hch'. rewrite lookup_insert_eq in Hch'. injection Hch' as <-.
    exists (set_list_ (λ _, Some ring') rw), ring'. simpl. rewrite lookup_insert_eq.
    split_and!; try done. congruence.
Qed.

Lemma idle_tryWrite_each ch k cs vs w :
  idle_buffered ch k cs w → length cs + length vs ≤ k →
  ∃ w', tryWrite_each ch vs w = (Return (map (λ _, ok_written) vs), w') ∧
        idle_buffered ch k (cs ++ vs) w'.
Proof.
  revert cs w. induction vs as [|v vs IH]; intros cs w Hidle Hlen.
  - exists w. rewrite app_nil_r. done.
  - simpl in Hlen.
    destruct (idle_tryWrite_room ch k cs v w Hidle) as (w1 & Hw1 & Hidle1); [lia|].
    destruct (IH (cs ++ [v]) w1 Hidle1) as (w2 & Hw2 & Hidle2).
    { rewrite length_app. simpl. lia. }
    exists w2. split.
    + simpl. munfold. by rewrite Hw1, Hw2.
    + by rewrite <- app_assoc in Hidle2.
Qed.

Lemma idle_tryRead_times ch k vs cs w :
  idle_buffered ch k (vs ++ cs) w →
  ∃ w', tryRead_times ch (length vs) w = (Return (map value_read vs), w') ∧
        idle_buffered ch k cs w'.
Proof.
  revert w. induction vs as [|v vs IH]; intros w Hidle.
  - by exists w.
  - destruct (idle_tryRead_head ch k v (vs ++ cs) w Hidle) as (w1 & Hw1 & Hidle1).
    destruct (IH w1 Hidle1) as (w2 & Hw2 & Hidle2).
    exists w2. split; [|done]. simpl. munfold. by rewrite Hw1, Hw2.
Qed.

Lemma new_Chan_idle buf w :
  (1 ≤ buf)%Z → idle_buffered (next w) (Z.to_nat buf) [] (eval (new_Chan buf) w).
Proof.
  intros Hbuf. exists (RW_create buf), (Ring.create (Z.to_nat buf)).
  destruct (create_wf (Z.to_nat buf)) as (Hwf & Hc & Hk).
  unfold eval, new_Chan, fresh. munfold. simpl. rewrite lookup_insert_eq.
  unfold RW_create. destruct (Z.ltb_spec 0 buf); [|lia]. simpl. done.
Qed.

(** C6: on a fresh channel of capacity [k >= 1], [k] calls of [tryWrite]
    all succeed, one more reports "full" and leaves the store alone, and
    [k] calls of [tryRead] then return the written values in order. *)
Theorem fill_then_drain_in_order (buf : Z) (vs : list jsval) (extra : jsval) (w : World) :
  (1 ≤ buf)%Z → length vs = Z.to_nat buf →
  ∃ w1 w2,
    tryWrite_each (next w) vs (eval (new_Chan buf) w)
      = (Return (map (λ _, ok_written) vs), w1) ∧
    Chan_tryWrite (next w) extra no_options w1 = (Return not_written, w1) ∧
    tryRead_times (next w) (length vs) w1 = (Return (map value_read vs), w2).
Proof.
  intros Hbuf Hlen.
  destruct (idle_tryWrite_each (next w) (Z.to_nat buf) [] vs _ (new_Chan_idle buf w Hbuf))
    as (w1 & Hw1 & Hidle1); [simpl; lia|].
  simpl in Hidle1.
  pose proof (idle_tryWrite_full _ _ _ extra _ Hidle1 Hlen) as Hfull.
  rewrite <- (app_nil_r vs) in Hidle1.
  destruct (idle_tryRead_times _ _ _ _ _ Hidle1) as (w2 & Hw2 & _).
  by exists w1, w2.
Qed.

Lemma fill_then_drain_in_order_witness :
  ∃ w1 w2,
    tryWrite_each 0 [VNum 1; VNum 2; VNum 3] (eval (new_Chan 3) (empty_world []))
      = (Return [ok_written; ok_written; ok_written], w1) ∧
    Chan_tryWrite 0 (VNum 4) no_options w1 = (Return not_written, w1) ∧
    tryRead_times 0 3 w1
      = (Return [value_read (VNum 1); value_read (VNum 2); value_read (VNum 3)], w2).
Proof.
  apply (fill_then_drain_in_order 3 [VNum 1; VNum 2; VNum 3] (VNum 4) (empty_world []));
    [lia | reflexivity].
Defined.

(** ** Parked readers and the buffer *)

Local Abbreviation Inv := readers_imply_empty_buffer.

Lemma subseteq_nil_length {A} (l : list A) : l ⊆ [] → length l = 0.
Proof.
  destruct l as [|x l]; [done|]. intros Hs. specialize (Hs x).
  exfalso. eapply not_elem_of_nil, Hs, list_elem_of_here.
Qed.

Lemma rw_shrinks_quieter rw rw' : rw_shrinks rw rw' → rw_quieter rw rw'.
Proof. intros (Hl & Hr & _). split; [|done]. unfold RW_length. by rewrite Hl. Qed.

Lemma rw_quieter_refl rw : rw_quieter rw rw.
Proof. by split. Qed.

Lemma quieter_refl w : quieter w w.
Proof. intros ch. destruct (chans w !! ch); constructor. apply rw_quieter_refl. Qed.

Lemma quieter_trans w1 w2 w3 : quieter w1 w2 → quieter w2 w3 → quieter w1 w3.
Proof.
  intros H12 H23 ch. specialize (H12 ch). specialize (H23 ch).
  destruct H12 as [rw1 rw2 [? ?]|]; inversion H23 as [? rw3 [? ?]|]; simplify_eq; constructor.
  split; [lia|by etrans].
Qed.

Lemma shrinks_quieter w w' : shrinks w w' → quieter w w'.
Proof.
  intros Hs ch. specialize (Hs ch). destruct Hs; constructor. by apply rw_shrinks_quieter.
Qed.

Lemma quieter_same_chans w w' : chans w' = chans w → quieter w w'.
Proof. intros E. by apply shrinks_quieter, shrinks_same_chans. Qed.

Lemma quieter_insert w ch rw rw' :
  chans w !! ch = Some rw → rw_quieter rw rw' → quieter w (set_chans <[ch := rw']> w).
Proof.
  intros Hch Hq ch'. simpl. destruct (decide (ch = ch')) as [<-|Hne].
  - rewrite lookup_insert_eq, Hch. by constructor.
  - rewrite lookup_insert_ne by done. destruct (chans w !! ch'); constructor.
    apply rw_quieter_refl.
Qed.

Lemma quieter_alter w ch f :
  (∀ rw, rw_quieter rw (f rw)) → quieter w (set_chans (alter f ch) w).
Proof.
  intros Hf ch'. simpl. destruct (decide (ch = ch')) as [->|Hne].
  - rewrite lookup_alter_eq. destruct (chans w !! ch'); constructor. apply Hf.
  - rewrite lookup_alter_ne by done. destruct (chans w !! ch'); constructor.
    apply rw_quieter_refl.
Qed.

Lemma shrinks_alter_at w ch rw f :
  chans w !! ch = Some rw → rw_shrinks rw (f rw) → shrinks w (set_chans (alter f ch) w).
Proof.
  intros Hch Hf ch'. simpl. destruct (decide (ch = ch')) as [<-|Hne].
  - rewrite lookup_alter_eq, Hch. by constructor.
  - rewrite lookup_alter_ne by done. destruct (chans w !! ch'); constructor.
    apply rw_shrinks_refl.
Qed.

Lemma inv_quieter w w' : quieter w w' → Inv w → Inv w'.
Proof.
  intros Hq HI ch rw' Hch' Hr. specialize (Hq ch). rewrite Hch' in Hq.
  inversion Hq as [rw ? [Hlen Hsub] Heq|]; subst. symmetry in Heq.
  assert (RW_length rw = 0); [|lia]. apply (HI ch rw Heq).
  intros Hz. apply Hr. unfold Actions.length in *.
  apply subseteq_nil_length. apply nil_length_inv in Hz. by rewrite Hz in Hsub.
Qed.

Lemma inv_shrinks w w' : shrinks w w' → Inv w → Inv w'.
Proof. intros Hs. by apply inv_quieter, shrinks_quieter. Qed.

Lemma inv_insert_no_readers w ch rw' :
  Inv w → Actions.length (r_actions (r_ rw')) = 0 → Inv (set_chans <[ch := rw']> w).
Proof.
  intros HI Hr ch' rw Hch'. simpl in Hch'. destruct (decide (ch = ch')) as [<-|Hne].
  - rewrite lookup_insert_eq in Hch'. injection Hch' as <-. done.
  - rewrite lookup_insert_ne in Hch' by done. intros Hr'. by eapply HI.
Qed.

Lemma inv_alter_empty_buffer w ch f :
  Inv w → (∀ rw, chans w !! ch = Some rw → RW_length (f rw) = 0) →
  Inv (set_chans (alter f ch) w).
Proof.
  intros HI Hf ch' rw' Hch'. simpl in Hch'. destruct (decide (ch = ch')) as [<-|Hne].
  - rewrite lookup_alter_eq in Hch'. destruct (chans w !! ch) as [rw|] eqn:Hch; [|done].
    injection Hch' as <-. intros _. by apply Hf.
  - rewrite lookup_alter_ne in Hch' by done. intros Hr'. by eapply HI.
Qed.

Section ActionsLength.
Context {T : Type} `{Countable T}.

Lemma pop_length_le (a : Actions.t T) : Actions.length (Actions.pop a).2 ≤ Actions.length a.
Proof.
  unfold Actions.length. destruct (pop_last a) as [_ ->]. apply removelast_length_le.
Qed.

Lemma removeBy_length_le (a : Actions.t T) i :
  Actions.length (Actions.removeBy i a).2 ≤ Actions.length a.
Proof.
  destruct a as [l ks]. unfold Actions.length, Actions.removeBy, Actions._pop.
  cbn [Actions.actions Actions.keys].
  pose proof (removelast_length_le l).
  destruct (last l); [|done].
  destruct (i =? length (removelast l)); [done|].
  destruct (removelast l !! i); simpl; [by rewrite length_insert|done].
Qed.

End ActionsLength.

(** Taking a waiter out of a pool and running its callback only removes
    waiters. *)
Lemma shrinks_Writer_invoke ch w : shrinks w (Writer_invoke ch w).2.
Proof.
  unfold Writer_invoke. munfold.
  destruct (chans w !! ch) as [rw|] eqn:Hch; [|apply shrinks_refl].
  set (pool := w_actions (w_ rw)).
  assert (Hfin : ∀ rest w0, chans w0 = chans w →
    Actions.actions rest ⊆ Actions.actions pool →
    Actions.length rest ≤ Actions.length pool →
    shrinks w (modify_writer ch (λ _, rest) w0)).
  { intros rest w0 Hc0 Hsub Hlen.
    eapply shrinks_trans; [by apply (shrinks_same_chans w w0)|].
    eapply shrinks_alter_at; [by rewrite Hc0|]. by split_and!. }
  destruct (Actions.length pool) as [|[|n]] eqn:Hlen; [apply shrinks_refl| |].
  - pose proof (pop_subseteq pool) as Hs. pose proof (pop_length_le pool) as Hl.
    rewrite Hlen in Hl.
    destruct (Actions.pop pool) as [o rest]. simpl in Hs, Hl.
    destruct o as [p|]; simpl; [|by apply Hfin].
    eapply shrinks_trans; [|apply shrinks_WirteAction_invoke]. by apply Hfin.
  - unfold random_index.
    pose proof (removeBy_subseteq pool (hd 0 (rng w) `mod` S (S n))) as Hs.
    pose proof (removeBy_length_le pool (hd 0 (rng w) `mod` S (S n))) as Hl.
    rewrite Hlen in Hl.
    destruct (Actions.removeBy _ pool) as [o rest]. simpl in Hs, Hl.
    destruct o as [p|]; simpl; [|by apply Hfin].
    eapply shrinks_trans; [|apply shrinks_WirteAction_invoke]. by apply Hfin.
Qed.

Lemma shrinks_Reader_invoke ch val w : shrinks w (Reader_invoke ch val w).2.
Proof.
  unfold Reader_invoke. munfold.
  destruct (chans w !! ch) as [rw|] eqn:Hch; [|apply shrinks_refl].
  set (pool := r_actions (r_ rw)).
  assert (Hfin : ∀ rest w0, chans w0 = chans w →
    Actions.actions rest ⊆ Actions.actions pool →
    Actions.length rest ≤ Actions.length pool →
    shrinks w (modify_reader ch (λ _, rest) w0)).
  { intros rest w0 Hc0 Hsub Hlen.
    eapply shrinks_trans; [by apply (shrinks_same_chans w w0)|].
    eapply shrinks_alter_at; [by rewrite Hc0|]. by split_and!. }
  destruct (Actions.length pool) as [|[|n]] eqn:Hlen; [apply shrinks_refl| |].
  - pose proof (pop_subseteq pool) as Hs. pose proof (pop_length_le pool) as Hl.
    rewrite Hlen in Hl.
    destruct (Actions.pop pool) as [o rest]. simpl in Hs, Hl.
    destruct o as [p|]; simpl; [|by apply Hfin].
    eapply shrinks_trans; [|apply shrinks_ReadAction_invoke]. by apply Hfin.
  - unfold random_index.
    pose proof (removeBy_subseteq pool (hd 0 (rng w) `mod` S (S n))) as Hs.
    pose proof (removeBy_length_le pool (hd 0 (rng w) `mod` S (S n))) as Hl.
    rewrite Hlen in Hl.
    destruct (Actions.removeBy _ pool) as [o rest]. simpl in Hs, Hl.
    destruct o as [p|]; simpl; [|by apply Hfin].
    eapply shrinks_trans; [|apply shrinks_ReadAction_invoke]. by apply Hfin.
Qed.

Lemma shrinks_RW_tryRead_uncached ch w : shrinks w (RW_tryRead_uncached ch w).2.
Proof.
  unfold RW_tryRead_uncached, Writer_isEmpty. munfold.
  destruct (chans w !! ch) as [rw|] eqn:Hch; [|apply shrinks_refl].
  destruct (isClosed rw); [apply shrinks_refl|]. rewrite Hch.
  destruct (_ =? 0); [apply shrinks_refl|].
  pose proof (shrinks_Writer_invoke ch w) as Hs.
  by destruct (Writer_invoke ch w) as [[v|e] w1].
Qed.

Lemma Ring_pop_cases ring :
  (Ring.size_ ring = 0 ∧ Ring.pop ring = (noResult, ring)) ∨
  (Ring.size_ ring ≠ 0 ∧ ∃ v ring',
     Ring.pop ring = ({| IteratorResult.done := Some false; IteratorResult.value := v |}, ring') ∧
     Ring.size_ ring' < Ring.size_ ring).
Proof.
  unfold Ring.pop. destruct (Nat.eqb_spec (Ring.size_ ring) 0) as [E|E]; [by left|].
  right. split; [done|]. eexists _, _. split; [done|]. simpl. lia.
Qed.

Lemma inv_RW_tryRead ch w : Inv w → Inv (RW_tryRead ch w).2.
Proof.
  intros HI. unfold RW_tryRead. munfold.
  destruct (chans w !! ch) as [rw|] eqn:Hch; [|done].
  destruct (list_ rw) as [ring|] eqn:Hl;
    [|exact (inv_shrinks _ _ (shrinks_RW_tryRead_uncached ch w) HI)].
  unfold list_pop. rewrite Hch, Hl.
  destruct (Ring_pop_cases ring) as [[Hz ->]|(Hnz & v & ring' & -> & Hlt)].
  - rewrite set_list__id, set_chans_insert_id by done. simpl.
    exact (inv_shrinks _ _ (shrinks_RW_tryRead_uncached ch w) HI).
  - simpl. set (rw1 := set_list_ (λ _, Some ring') rw).
    set (w1 := set_chans <[ch := rw1]> w).
    assert (Hr : Actions.length (r_actions (r_ rw)) = 0).
    { destruct (decide (Actions.length (r_actions (r_ rw)) = 0)) as [|Hne]; [done|].
      specialize (HI ch rw Hch Hne). unfold RW_length, Ring.length in HI.
      rewrite Hl in HI. lia. }
    assert (HI1 : Inv w1) by exact (inv_insert_no_readers w ch rw1 HI Hr).
    assert (Hch1 : chans w1 !! ch = Some rw1) by (simpl; by rewrite lookup_insert_eq).
    unfold Writer_isEmpty. munfold. rewrite Hch1.
    destruct (_ =? 0); simpl; [done|].
    pose proof (shrinks_Writer_invoke ch w1) as Hs.
    destruct (Writer_invoke ch w1) as [[v'|e] w2]; simpl in Hs; [|exact (inv_shrinks _ _ Hs HI1)].
    assert (HI2 : Inv w2) by exact (inv_shrinks _ _ Hs HI1).
    unfold list_push.
    pose proof (Hs ch) as Hsch. rewrite Hch1 in Hsch.
    inversion Hsch as [? rw2 (Hl2 & Hr2 & _ & Hrl2 & _) Heq1 Heq2|]; subst.
    simpl in Hl2. rewrite Hl2.
    destruct (Ring.push v' ring') as [b ring3]. simpl.
    refine (inv_insert_no_readers w2 ch _ HI2 _). simpl in *. lia.
Qed.

Lemma inv_RW_tryWrite ch v w : Inv w → Inv (RW_tryWrite ch v w).2.
Proof.
  intros HI. unfold RW_tryWrite, Reader_isEmpty. munfold.
  destruct (chans w !! ch) as [rw|] eqn:Hch; [|done].
  destruct (isClosed rw); [done|]. rewrite Hch.
  destruct (Nat.eqb_spec (Actions.length (r_actions (r_ rw))) 0) as [Hr|Hr].
  - destruct (list_ rw) as [ring|] eqn:Hl; [|done].
    unfold list_push. rewrite Hch, Hl.
    destruct (Ring.push v ring) as [b ring']. simpl.
    exact (inv_insert_no_readers w ch (set_list_ _ rw) HI Hr).
  - pose proof (shrinks_Reader_invoke ch
                  {| IteratorResult.done := None; IteratorResult.value := v |} w) as Hs.
    destruct (Reader_invoke ch _ w) as [[?|e] w1]; exact (inv_shrinks _ _ Hs HI).
Qed.

Lemma inv_Chan_tryRead ch opts w : Inv w → Inv (Chan_tryRead ch opts w).2.
Proof.
  intros HI. unfold Chan_tryRead. munfold.
  destruct (signal_aborted (signal opts) w); [by destruct (silent opts)|].
  pose proof (inv_RW_tryRead ch w HI) as H1.
  destruct (RW_tryRead ch w) as [[[val|]|e] w1]; try done.
  by destruct (truthy _).
Qed.

Lemma inv_Chan_tryWrite ch v opts w : Inv w → Inv (Chan_tryWrite ch v opts w).2.
Proof.
  intros HI. unfold Chan_tryWrite. munfold.
  destruct (signal_aborted (signal opts) w); [by destruct (silent opts)|].
  pose proof (inv_RW_tryWrite ch v w HI) as H1.
  destruct (RW_tryWrite ch v w) as [[[[|]|]|e] w1]; try done.
  by destruct (silent opts).
Qed.

(** [tryRead] answering "nothing yet": the store is as before and the
    buffer of the channel is empty. *)
Lemma Chan_tryRead_NotReady ch opts w val w1 :
  Chan_tryRead ch opts w = (Return val, w1) →
  ReadValue.closed val = Some false → ReadValue.ok val = false →
  w1 = w ∧ ∃ rw, chans w !! ch = Some rw ∧ RW_length rw = 0.
Proof.
  unfold Chan_tryRead. munfold.
  destruct (signal_aborted (signal opts) w).
  { destruct (silent opts); [|done]. by intros [= <- <-]. }
  destruct (RW_tryRead ch w) as [[[r|]|e] w'] eqn:Hr; try done.
  - destruct (truthy (IteratorResult.done r)) eqn:Hd.
    + intros [= <- <-] _ _.
      apply RW_tryRead_NotReady in Hr as [-> (rw & ? & ? & _)]; [|done]. eauto.
    + by intros [= <- <-].
  - by intros [= <- <-].
Qed.

Lemma Reader_connect_eq ch cb w :
  Reader_connect ch cb w =
    (Return (next w),
     modify_reader ch (Actions.push (next w))
       (set_acts <[next w := ReadAction (Some ch) (Some cb)]> (set_next S w))).
Proof. reflexivity. Qed.

Lemma Writer_connect_eq ch v cb w :
  Writer_connect ch v cb w =
    (Return (next w),
     modify_writer ch (Actions.push (next w))
       (set_acts <[next w := WirteAction (Some ch) v (Some cb)]> (set_next S w))).
Proof. reflexivity. Qed.

Lemma new_Promise_eq w :
  new_Promise w = (Return (next w), set_promises <[next w := Pending]> (set_next S w)).
Proof. reflexivity. Qed.

Lemma inv_same_chans w w' : chans w' = chans w → Inv w → Inv w'.
Proof. intros E. exact (inv_quieter _ _ (quieter_same_chans _ _ E)). Qed.

Lemma inv_Reader_connect ch cb w :
  Inv w → (∀ rw, chans w !! ch = Some rw → RW_length rw = 0) →
  Inv (Reader_connect ch cb w).2.
Proof.
  intros HI Hempty. rewrite Reader_connect_eq. simpl.
  refine (inv_alter_empty_buffer _ ch _ (inv_same_chans w _ eq_refl HI) _).
  intros rw Hch. exact (Hempty rw Hch).
Qed.

Lemma quieter_Writer_connect ch v cb w : quieter w (Writer_connect ch v cb w).2.
Proof.
  rewrite Writer_connect_eq. simpl.
  eapply quieter_trans; [|apply quieter_alter]; [by apply quieter_same_chans|].
  intros rw. by split.
Qed.

Lemma inv_Chan_read ch opts w : Inv w → Inv (Chan_read ch opts w).2.
Proof.
  intros HI. unfold Chan_read. munfold.
  pose proof (inv_Chan_tryRead ch opts w HI) as HI1.
  destruct (Chan_tryRead ch opts w) as [[val|e] w1] eqn:Htry; [|done].
  destruct (ReadValue.closed val) as [[|]|] eqn:Hc; simpl; try done.
  destruct (ReadValue.ok val) eqn:Hok; simpl; [done|].
  apply Chan_tryRead_NotReady in Htry as [-> (rw & Hch & Hlen)]; [|done..].
  refine (inv_same_chans _ _ (chans_addEventListener _ _ _) _).
  refine (inv_same_chans _ _ eq_refl
            (inv_alter_empty_buffer _ ch (set_r_ (set_r_actions (Actions.push _)))
               (inv_same_chans w _ eq_refl HI) _)).
  intros rw' Hch'. change (chans w !! ch = Some rw') in Hch'.
  change (RW_length rw' = 0). by simplify_eq.
Qed.

Lemma inv_Chan_write ch v opts w : Inv w → Inv (Chan_write ch v opts w).2.
Proof.
  intros HI. unfold Chan_write. munfold.
  pose proof (inv_Chan_tryWrite ch v opts w HI) as HI1.
  destruct (Chan_tryWrite ch v opts w) as [[val|e] w1] eqn:Htry; [|done].
  destruct (_ || _); [done|]. simpl.
  refine (inv_same_chans _ _ (chans_addEventListener _ _ _) _).
  refine (inv_quieter w1 _ _ HI1).
  eapply quieter_trans; [|apply quieter_same_chans; reflexivity].
  eapply quieter_trans; [|apply quieter_alter]; [by apply quieter_same_chans|].
  intros rw. by split.
Qed.

Lemma shrinking_ret {A} (a : A) : shrinking (mret a).
Proof. intros w. apply shrinks_refl. Qed.

Lemma shrinking_throw {A} e : shrinking (throw (A:=A) e).
Proof. intros w. apply shrinks_refl. Qed.

Lemma shrinking_bind {A B} (m : M A) (f : A → M B) :
  shrinking m → (∀ a, shrinking (f a)) → shrinking (m ≫= f).
Proof.
  intros Hm Hf w. unfold mbind, M_bind. specialize (Hm w).
  destruct (m w) as [[a|e] w1]; [|done].
  eapply shrinks_trans; [exact Hm|apply Hf].
Qed.

Lemma shrinking_effect (f : World → World) : (∀ w, shrinks w (f w)) → shrinking (effect f).
Proof. intros Hf w. apply Hf. Qed.

Lemma shrinking_gets {A} (f : World → A) : shrinking (gets f).
Proof. intros w. apply shrinks_refl. Qed.

Lemma shrinking_get_rw ch : shrinking (get_rw ch).
Proof. intros w. unfold get_rw. destruct (chans w !! ch); apply shrinks_refl. Qed.

Lemma shrinking_get_case c : shrinking (get_case c).
Proof. intros w. unfold get_case. destruct (cases w !! c); apply shrinks_refl. Qed.

Lemma shrinking_fresh : shrinking fresh.
Proof. intros w. by apply shrinks_same_chans. Qed.

Lemma shrinking_random_index n : shrinking (random_index n).
Proof. intros w. by apply shrinks_same_chans. Qed.

Lemma shrinking_new_Promise : shrinking new_Promise.
Proof. intros w. by apply shrinks_same_chans. Qed.

Lemma shrinks_set_flag ch f w :
  (∀ rw, list_ (f rw) = list_ rw ∧ r_actions (r_ (f rw)) = r_actions (r_ rw) ∧
         w_actions (w_ (f rw)) = w_actions (w_ rw)) →
  shrinks w (set_chans (alter f ch) w).
Proof.
  intros Hf. apply shrinks_alter. intros rw. destruct (Hf rw) as (? & Hr & Hw).
  unfold rw_shrinks. rewrite Hr, Hw. by split_and!.
Qed.

Lemma shrinks_clear_readers ch w : shrinks w (modify_reader ch Actions.clear w).
Proof.
  apply shrinks_alter. intros rw. split_and!; simpl; try done.
  - apply list_subseteq_nil.
  - unfold Actions.length. simpl. lia.
Qed.

Lemma shrinks_clear_writers ch w : shrinks w (modify_writer ch Actions.clear w).
Proof.
  apply shrinks_alter. intros rw. split_and!; simpl; try done.
  - apply list_subseteq_nil.
  - unfold Actions.length. simpl. lia.
Qed.

Lemma shrinking_Writer_close ch : shrinking (Writer_close ch).
Proof.
  apply shrinking_bind; [apply shrinking_get_rw|]. intros rw.
  destruct (w_closed_ (w_ rw)); [apply shrinking_ret|].
  apply shrinking_bind; [apply shrinking_effect; intros w; by apply shrinks_set_flag|].
  intros _. cbv zeta. destruct (Actions.length _ =? 0); [apply shrinking_ret|].
  apply shrinking_bind;
    [apply shrinking_effect; intros w; apply shrinks_Writer_close_loop|].
  intros _. apply shrinking_effect, shrinks_clear_writers.
Qed.

Lemma shrinking_Reader_close ch : shrinking (Reader_close ch).
Proof.
  apply shrinking_bind; [apply shrinking_get_rw|]. intros rw.
  destruct (r_closed (r_ rw)); [apply shrinking_ret|].
  apply shrinking_bind; [apply shrinking_effect; intros w; by apply shrinks_set_flag|].
  intros _. cbv zeta. destruct (Actions.length _ =? 0); [apply shrinking_ret|].
  apply shrinking_bind;
    [apply shrinking_effect; intros w; apply shrinks_Reader_close_loop|].
  intros _. apply shrinking_effect, shrinks_clear_readers.
Qed.

Lemma shrinking_RW_close ch : shrinking (RW_close ch).
Proof.
  apply shrinking_bind; [apply shrinking_get_rw|]. intros rw.
  destruct (isClosed rw); [apply shrinking_ret|].
  apply shrinking_bind; [apply shrinking_effect; intros w; by apply shrinks_set_flag|].
  intros _. apply shrinking_bind; [apply shrinking_Writer_close|].
  intros _. apply shrinking_bind; [apply shrinking_Reader_close|].
  intros _. apply shrinking_bind; [|intros; apply shrinking_ret].
  destruct (closed_ rw); [|apply shrinking_ret].
  apply shrinking_bind; [apply shrinking_effect; intros w; by apply shrinks_set_flag|].
  intros _. apply shrinking_effect. intros w.
  apply shrinks_settle, shrinks_refl.
Qed.

Lemma shrinking_RW_wait ch : shrinking (RW_wait ch).
Proof.
  apply shrinking_bind; [apply shrinking_get_rw|]. intros rw.
  destruct (isClosed rw); [apply shrinking_ret|].
  destruct (closed_ rw); [apply shrinking_ret|].
  apply shrinking_bind; [apply shrinking_new_Promise|]. intros p.
  apply shrinking_bind; [|intros; apply shrinking_ret].
  apply shrinking_effect. intros w. by apply shrinks_set_flag.
Qed.

Lemma shrinking_Case_reset c : shrinking (Case_reset c).
Proof.
  apply shrinking_bind; [apply shrinking_get_case|].
  intros [ch v|ch x v]; apply shrinking_effect; intros w; by apply shrinks_same_chans.
Qed.

Lemma shrinking_reset_all cs : shrinking (reset_all cs).
Proof.
  induction cs as [|c cs IH]; [apply shrinking_ret|].
  simpl. apply shrinking_bind; [apply shrinking_Case_reset|]. intros _. apply IH.
Qed.

Lemma shrinking_shuffle arrs c : shrinking (shuffle arrs c).
Proof.
  revert arrs. induction c as [|c IH]; intros arrs; [apply shrinking_ret|].
  simpl. apply shrinking_bind; [apply shrinking_random_index|]. intros r.
  destruct (arrs !! c); [destruct (arrs !! r)|]; apply IH.
Qed.

Lemma inv_new_Chan buf w : Inv w → Inv (new_Chan buf w).2.
Proof.
  intros HI. change (Inv (set_chans <[next w := RW_create buf]> (set_next S w))).
  refine (inv_insert_no_readers _ _ _ (inv_same_chans w _ eq_refl HI) _). done.
Qed.

Lemma RW_tryWrite_Closed ch v w w' :
  RW_tryWrite ch v w = (Return None, w') → w' = w.
Proof.
  unfold RW_tryWrite, Reader_isEmpty. munfold.
  destruct (chans w !! ch) as [rw|] eqn:Hch; [|done].
  destruct (isClosed rw); [by intros [= <-]|]. rewrite Hch.
  destruct (_ =? 0).
  - destruct (list_ rw); [|done]. by destruct (list_push ch v w) as [[b|e] w1].
  - by destruct (Reader_invoke _ _ _) as [[?|e] w1].
Qed.

(** A [tryInvoke] that returns false changed nothing, and found the
    buffer empty when the case is a read case. *)
Lemma Case_tryInvoke_false c silent w w' :
  Case_tryInvoke c silent w = (Return false, w') → w' = w ∧ armable w c.
Proof.
  unfold Case_tryInvoke. munfold.
  destruct (cases w !! c) as [[ch slot|ch x slot]|] eqn:Hc; [| |done].
  - unfold ReadCase_tryInvoke. munfold.
    destruct (RW_tryRead ch w) as [[[val|]|e] w1] eqn:Hr; try done.
    destruct (truthy (IteratorResult.done val)) eqn:Hd; [|done].
    intros [= <-]. apply RW_tryRead_NotReady in Hr as [-> (rw & Hch & Hlen & _)]; [|done].
    split; [done|]. intros ch' v' rw' Hc' Hch'. by simplify_eq.
  - unfold WriteCase_tryInvoke, Chan_tryWrite. munfold. simpl.
    destruct (RW_tryWrite ch x w) as [[[[|]|]|e] w1] eqn:Hw; try done.
    + intros [= <-]. apply RW_tryWrite_Full in Hw as [-> _].
      split; [done|]. intros ch' v' rw' Hc'. by simplify_eq.
    + destruct silent; [|done]. simpl. intros [= <-].
      apply RW_tryWrite_Closed in Hw as ->.
      split; [done|]. intros ch' v' rw' Hc'. by simplify_eq.
Qed.

Lemma inv_Case_tryInvoke c silent w : Inv w → Inv (Case_tryInvoke c silent w).2.
Proof.
  intros HI. unfold Case_tryInvoke. munfold.
  destruct (cases w !! c) as [[ch slot|ch x slot]|] eqn:Hc; [| |done].
  - unfold ReadCase_tryInvoke. munfold.
    pose proof (inv_RW_tryRead ch w HI) as H1.
    destruct (RW_tryRead ch w) as [[[val|]|e] w1]; try done.
    by destruct (truthy _).
  - unfold WriteCase_tryInvoke. munfold.
    pose proof (inv_Chan_tryWrite ch x {| signal := None; silent := silent |} w HI) as H1.
    destruct (Chan_tryWrite _ _ _ w) as [[val|e] w1]; [|done].
    by destruct (WriteValue.ok val) as [[|]|].
Qed.

Lemma try_cases_spec cs silent w :
  Inv w →
  Inv (try_cases cs silent w).2 ∧
  ((try_cases cs silent w).1 = Return None →
     (try_cases cs silent w).2 = w ∧ Forall (armable w) cs).
Proof.
  revert w. induction cs as [|c cs IH]; intros w HI; [done|].
  simpl. munfold.
  pose proof (inv_Case_tryInvoke c silent w HI) as H1.
  destruct (Case_tryInvoke c silent w) as [[[|]|e] w1] eqn:Hc; try done.
  apply Case_tryInvoke_false in Hc as [-> Harm].
  destruct (IH w HI) as [H2 H3]. split; [done|].
  intros Hn. destruct (H3 Hn) as [-> ?]. split; [done|]. by constructor.
Qed.

Lemma armable_frame w w' c :
  cases w' = cases w →
  (∀ ch rw', chans w' !! ch = Some rw' →
     ∃ rw, chans w !! ch = Some rw ∧ RW_length rw' = RW_length rw) →
  armable w c → armable w' c.
Proof.
  intros Hc Hch Harm ch v rw' Hcase Hrw'. rewrite Hc in Hcase.
  destruct (Hch ch rw' Hrw') as (rw & Hrw & ->). by eapply Harm.
Qed.

Lemma lookup_alter_keeps_length (m : gmap nat RW) ch f ch' rw' :
  (∀ rw, RW_length (f rw) = RW_length rw) →
  alter f ch m !! ch' = Some rw' →
  ∃ rw, m !! ch' = Some rw ∧ RW_length rw' = RW_length rw.
Proof.
  intros Hf. destruct (decide (ch = ch')) as [<-|Hne].
  - rewrite lookup_alter_eq. destruct (m !! ch) as [rw|]; [|done].
    intros [= <-]. eauto.
  - rewrite lookup_alter_ne by done. eauto.
Qed.

(** Arming one case. *)
Lemma Case_invoke_spec c cb w :
  Inv w → armable w c →
  Inv (Case_invoke c cb w).2 ∧ ∀ c', armable w c' → armable (Case_invoke c cb w).2 c'.
Proof.
  intros HI Harm. unfold Case_invoke. munfold.
  destruct (cases w !! c) as [[ch slot|ch x slot]|] eqn:Hc; [| |done].
  - unfold RW_read. rewrite Reader_connect_eq. cbn [snd]. split.
    + refine (inv_alter_empty_buffer _ ch _ (inv_same_chans w _ eq_refl HI) _).
      intros rw Hch. exact (Harm ch slot rw Hc Hch).
    + intros c'. apply armable_frame; [done|].
      intros ch' rw'. by apply lookup_alter_keeps_length.
  - unfold RW_write. rewrite Writer_connect_eq. cbn [snd]. split.
    + pose proof (quieter_Writer_connect ch x (WriteCaseCb c cb) w) as Hq.
      rewrite Writer_connect_eq in Hq. exact (inv_quieter _ _ Hq HI).
    + intros c'. apply armable_frame; [done|].
      intros ch' rw'. by apply lookup_alter_keeps_length.
Qed.

Lemma inv_arm_all cs cb w : Inv w → Forall (armable w) cs → Inv (arm_all cs cb w).2.
Proof.
  revert w. induction cs as [|c cs IH]; intros w HI Hall; [done|].
  inversion Hall as [|? ? Hc Hcs]; subst.
  destruct (Case_invoke_spec c cb w HI Hc) as [HI1 Hframe].
  simpl. munfold.
  destruct (Case_invoke c cb w) as [[conn|e] w1]; [|done].
  assert (HI2 : Inv (arm_all cs cb w1).2).
  { apply IH; [done|]. eapply Forall_impl; [exact Hcs|]. intros c'. apply Hframe. }
  by destruct (arm_all cs cb w1) as [[conns|e] w2].
Qed.

Lemma inv_selectChan opts w : Inv w → Inv (selectChan opts w).2.
Proof.
  intros HI. unfold selectChan. munfold.
  destruct (signal_aborted _ w); [by destruct (SelectOptions.silent opts)|].
  destruct (match SelectOptions.chans opts with Some l => omap id l | None => [] end)
    as [|c cs].
  { destruct (SelectOptions.default opts); [done|].
    destruct (SelectOptions.signal opts); [|done].
    simpl. refine (inv_same_chans _ _ _ HI). done. }
  set (cs0 := c :: cs).
  pose proof (shrinking_reset_all cs0 w) as Hs1.
  destruct (reset_all cs0 w) as [[[]|e] w1]; [|exact (inv_shrinks _ _ Hs1 HI)].
  assert (HI1 : Inv w1) by exact (inv_shrinks _ _ Hs1 HI).
  pose proof (shrinking_shuffle cs0 (length cs0) w1) as Hs2.
  destruct (shuffle cs0 (length cs0) w1) as [[cs1|e] w2]; [|exact (inv_shrinks _ _ Hs2 HI1)].
  assert (HI2 : Inv w2) by exact (inv_shrinks _ _ Hs2 HI1).
  destruct (try_cases_spec cs1 (SelectOptions.silent opts) w2 HI2) as [HI3 Hnone].
  destruct (try_cases cs1 (SelectOptions.silent opts) w2) as [[[c1|]|e] w3]; try done.
  destruct (SelectOptions.default opts); [done|].
  destruct (Hnone eq_refl) as [Heq Harm]. simpl in Heq. subst w3.
  rewrite new_Promise_eq.
  set (w4 := set_promises <[next w2 := Pending]> (set_next S w2)).
  assert (HI4 : Inv w4) by exact (inv_same_chans w2 w4 eq_refl HI2).
  assert (Harm4 : Forall (armable w4) cs1).
  { eapply Forall_impl; [exact Harm|]. intros c'. apply armable_frame; [done|]. eauto. }
  pose proof (inv_arm_all cs1 (SelectCb (next w2)) w4 HI4 Harm4) as HI5.
  destruct (arm_all cs1 (SelectCb (next w2)) w4) as [[conns|e] w5]; [|done].
  simpl. refine (inv_same_chans _ _ (chans_addEventListener _ _ _) _).
  exact (inv_same_chans w5 _ eq_refl HI5).
Qed.

Lemma inv_exec op w : Inv w → armed_after_try op w → Inv (exec op w).
Proof.
  intros HI Hd. destruct op; simpl.
  - by apply inv_new_Chan.
  - exact (inv_same_chans w _ eq_refl HI).
  - exact (inv_shrinks _ _ (shrinks_AbortController_abort _ _ _) HI).
  - by apply inv_Chan_tryRead.
  - by apply inv_Chan_read.
  - by apply inv_Chan_tryWrite.
  - by apply inv_Chan_write.
  - exact (inv_shrinks _ _ (shrinking_RW_close _ _) HI).
  - exact (inv_shrinks _ _ (shrinking_RW_wait _ _) HI).
  - exact (inv_same_chans w _ eq_refl HI).
  - exact (inv_same_chans w _ eq_refl HI).
  - exact (inv_shrinks _ _ (shrinking_Case_reset _ _) HI).
  - by apply inv_Case_tryInvoke.
  - apply Case_invoke_spec; [done|]. simpl in Hd.
    intros ch v rw Hc Hch. rewrite Hc in Hd.
    assert (Ht : Case_tryInvoke c false w = (Return false, (ReadCase_tryInvoke c ch w).2)).
    { unfold Case_tryInvoke. munfold. rewrite Hc.
      by destruct (ReadCase_tryInvoke c ch w) as [r w1]; simpl in *; subst. }
    apply Case_tryInvoke_false in Ht as [_ Harm]. by eapply Harm.
  - exact (inv_shrinks _ _ (shrinks_Connection_disconnect _ _) HI).
  - by apply inv_selectChan.
Qed.

Lemma inv_empty_world draws : Inv (empty_world draws).
Proof. intros ch rw Hch. simpl in Hch. by rewrite lookup_empty in Hch. Qed.

Lemma inv_run ops w : Inv w → disciplined ops w → Inv (run ops w).
Proof.
  revert w. induction ops as [|op ops IH]; intros w HI Hd; [done|].
  destruct Hd as [Hop Hrest]. simpl. apply IH; [by apply inv_exec|done].
Qed.

Lemma RW_tryWrite_handoff ch v w rw :
  chans w !! ch = Some rw → isClosed rw = false →
  Actions.length (r_actions (r_ rw)) ≠ 0 →
  RW_tryWrite ch v w =
    match Reader_invoke ch {| IteratorResult.done := None; IteratorResult.value := v |} w with
    | (Return _, w') => (Return (Some true), w')
    | (Throw e, w') => (Throw e, w')
    end.
Proof.
  intros Hch Hcl Hr. unfold RW_tryWrite, Reader_isEmpty. munfold.
  rewrite Hch, Hcl, Hch. by destruct (Nat.eqb_spec (Actions.length (r_actions (r_ rw))) 0).
Qed.

(** C8 (amended): in every store reached from the empty one by public
    operations in which a caller arms a read case only when its [tryInvoke]
    returns false at that moment (as [selectChan] does), a channel with a
    parked reader has an empty buffer; so the handoff branch of [tryWrite]
    runs only over an empty buffer. *)
Theorem parked_reader_means_empty_buffer (draws : list nat) (ops : list Op)
    (ch : nat) (rw : RW) (v : jsval) :
  disciplined ops (empty_world draws) →
  chans (run ops (empty_world draws)) !! ch = Some rw →
  Actions.length (r_actions (r_ rw)) ≠ 0 →
  RW_length rw = 0 ∧
  (isClosed rw = false →
   RW_tryWrite ch v (run ops (empty_world draws)) =
     match Reader_invoke ch {| IteratorResult.done := None; IteratorResult.value := v |}
             (run ops (empty_world draws)) with
     | (Return _, w') => (Return (Some true), w')
     | (Throw e, w') => (Throw e, w')
     end).
Proof.
  intros Hd Hch Hr. split.
  - exact (inv_run ops _ (inv_empty_world draws) Hd ch rw Hch Hr).
  - intros Hcl. exact (RW_tryWrite_handoff _ _ _ rw Hch Hcl Hr).
Qed.

Lemma parked_reader_means_empty_buffer_witness :
  disciplined select_parks_reader (empty_world []) ∧
  ∃ rw, chans (run select_parks_reader (empty_world [])) !! 0 = Some rw ∧
        Actions.actions (r_actions (r_ rw)) = [3] ∧ RW_length rw = 0.
Proof.
  assert (Hd : disciplined select_parks_reader (empty_world [])) by (simpl; tauto).
  split; [exact Hd|].
  assert (Hr : (λ o : option RW,
                  match o with
                  | Some rw => Actions.actions (r_actions (r_ rw))
                  | None => []
                  end) (chans (run select_parks_reader (empty_world [])) !! 0) = [3])
    by (vm_compute; reflexivity).
  destruct (chans (run select_parks_reader (empty_world [])) !! 0) as [rw|] eqn:Hch;
    [|discriminate Hr].
  exists rw. split; [reflexivity|]. split; [exact Hr|].
  apply (parked_reader_means_empty_buffer [] select_parks_reader 0 rw VNull Hd Hch).
  unfold Actions.length. rewrite Hr. discriminate.
Defined.

Lemma arming_over_buffer_parks_reader_beside_value :
  ¬ readers_imply_empty_buffer (run arming_over_buffer (empty_world [])) ∧
  ReadCase_read 1 (exec (OpTryWrite 0 (VNum 2) no_options)
                     (run arming_over_buffer (empty_world [])))
    = Some (value_read (VNum 2)) ∧
  (RW_tryRead 0 (exec (OpTryWrite 0 (VNum 2) no_options)
                   (run arming_over_buffer (empty_world [])))).1
    = Return (Some {| IteratorResult.done := Some false; IteratorResult.value := VNum 1 |}).
Proof.
  split_and!; [|reflexivity|reflexivity].
  intros HI.
  assert (Hch : ∃ rw, chans (run arming_over_buffer (empty_world [])) !! 0 = Some rw ∧
                      Actions.length (r_actions (r_ rw)) = 1 ∧ RW_length rw = 1).
  { eexists. split; [reflexivity|]. split; reflexivity. }
  destruct Hch as (rw & Hch & Hr & Hlen).
  specialize (HI 0 rw Hch). rewrite Hr, Hlen in HI. by specialize (HI ltac:(done)).
Qed.

(** ** What a parked read case stores, and the async iterator *)

Lemma cases_settle p s w : cases (settle p s w) = cases w.
Proof. unfold settle. by destruct (promises w !! p) as [[]|]. Qed.

Lemma cases_removeEventListener sig p w : cases (removeEventListener sig p w) = cases w.
Proof. by destruct sig. Qed.

Lemma cases_Connection_disconnect a w : cases (Connection_disconnect a w) = cases w.
Proof.
  unfold Connection_disconnect.
  by destruct (acts w !! a) as [[[r|] cb|[x|] v cb]|].
Qed.

Lemma cases_disconnect_all conns w : cases (disconnect_all conns w) = cases w.
Proof.
  revert w. induction conns as [|c conns IH]; intros w; [done|].
  simpl. by rewrite IH, cases_Connection_disconnect.
Qed.

Lemma cases_CaseCallback_call cb c e r w : cases (CaseCallback_call cb c e r w) = cases w.
Proof.
  destruct cb as [p|tag]; simpl; [|done].
  destruct (closures w !! p) as [[| |conns opts|]|]; try done.
  unfold resolve, reject.
  destruct e; [destruct (silent opts)|];
    by rewrite cases_settle, cases_disconnect_all, cases_removeEventListener.
Qed.

(** C1 (what the code does): when a parked read case completes with
    end-of-stream (its connection is invoked with [noResult], as
    [Reader.close] does), the stored outcome is [{closed: true, ok: true,
    value: undefined}]: [closed] and [ok] are both true. *)
Theorem ReadCase_invoke_end_of_stream_outcome (w : World) (a c ch : nat)
    (reader : option nat) (cb : CaseCallback) (slot : option ReadValue.t) :
  acts w !! a = Some (ReadAction reader (Some (ReadCaseCb c cb))) →
  cases w !! c = Some (ReadCase ch slot) →
  ReadCase_read c (ReadAction_invoke a noResult w) = Some end_of_stream_stored ∧
  ReadValue.closed end_of_stream_stored = Some true ∧
  ReadValue.ok end_of_stream_stored = true.
Proof.
  intros Ha Hc. split; [|done].
  unfold ReadAction_invoke, ReadCase_read. rewrite Ha. simpl.
  rewrite cases_CaseCallback_call. simpl. by rewrite lookup_alter_eq, Hc.
Qed.

Lemma ReadCase_invoke_end_of_stream_outcome_witness :
  Actions.actions (reader_actions 0 parked_read_case) = [3] ∧
  ReadCase_read 1 (ReadAction_invoke 3 noResult parked_read_case) = Some end_of_stream_stored.
Proof.
  split; [reflexivity|].
  eapply (ReadCase_invoke_end_of_stream_outcome parked_read_case 3 1); reflexivity.
Defined.




(** The iterator of [ch.values()] on the same channel delivers the three
    envelopes and completes. *)
Lemma values_iterator_drains_closed_channel :
  (let '(rs, c, _) := for_await (values_next 0 no_options) 5 GenStart closed_with_three in
   (map ReadValue.value rs, c)) = ([VNum 10; VNum 20; VNum 30], Completed).
Proof. reflexivity. Qed.

(** The whole run: [selectChan] parks the case, [close] completes it, and
    the select resolves with a case whose outcome has both flags set. *)
Lemma select_then_close_stores_ok_true :
  ReadCase_read 1 parked_read_case_closed = Some end_of_stream_stored ∧
  promises parked_read_case_closed !! 2 = Some (Resolved (SCase 1)).
Proof. split; reflexivity. Qed.

(** * Further properties of the code *)

Lemma push_wf v r : Ring.wf r → Ring.wf (Ring.push v r).2.
Proof.
  intros Hwf. destruct (decide (Ring.size_ r = length (Ring.arrs r))) as [E|E].
  - by rewrite push_full.
  - destruct (push_room v r Hwf) as (r' & -> & ? & _); [destruct Hwf; lia|done].
Qed.

Lemma pop_wf r : Ring.wf r → Ring.wf (Ring.pop r).2.
Proof.
  intros Hwf. destruct (Ring.contents r) as [|x rest] eqn:Hc.
  - rewrite pop_empty; [done|]. by rewrite <- contents_length, Hc.
  - by destruct (pop_head r x rest Hwf Hc) as (r' & -> & ? & _).
Qed.

Lemma push_capacity v r : Ring.capacity (Ring.push v r).2 = Ring.capacity r.
Proof.
  unfold Ring.capacity, Ring.push. destruct (_ =? _); simpl; [done|by rewrite length_insert].
Qed.

Lemma pop_capacity r : Ring.capacity (Ring.pop r).2 = Ring.capacity r.
Proof.
  unfold Ring.capacity, Ring.pop. destruct (_ =? _); simpl; [done|by rewrite length_insert].
Qed.

(** X1: for a ring that satisfies the class invariant, [length <= capacity];
    [push] and [pop] keep the invariant and the capacity; [push] returns
    true exactly when there was room, and [pop] reports [done] exactly when
    the ring was empty. *)
Theorem Ring_invariant_kept (r : Ring.t) (v : jsval) :
  Ring.wf r →
  Ring.length r ≤ Ring.capacity r ∧
  Ring.wf (Ring.push v r).2 ∧ Ring.capacity (Ring.push v r).2 = Ring.capacity r ∧
  Ring.wf (Ring.pop r).2 ∧ Ring.capacity (Ring.pop r).2 = Ring.capacity r ∧
  ((Ring.push v r).1 = true ↔ Ring.length r < Ring.capacity r) ∧
  (IteratorResult.done (Ring.pop r).1 = Some true ↔ Ring.length r = 0).
Proof.
  intros Hwf. unfold Ring.length, Ring.capacity. split_and!.
  - by destruct Hwf.
  - by apply push_wf.
  - apply push_capacity.
  - by apply pop_wf.
  - apply pop_capacity.
  - unfold Ring.push.
    destruct (Nat.eqb_spec (Ring.size_ r) (length (Ring.arrs r))); simpl.
    + split; [done|lia].
    + destruct Hwf. split; [lia|done].
  - unfold Ring.pop. destruct (Nat.eqb_spec (Ring.size_ r) 0); simpl; [done|].
    split; [done|lia].
Qed.

Lemma Ring_invariant_kept_witness :
  Ring.wf wrapped_ring ∧ Ring.offset_ wrapped_ring = 2 ∧
  Ring.wf (Ring.push (VNum 5) wrapped_ring).2 ∧ Ring.wf (Ring.pop wrapped_ring).2.
Proof.
  assert (Hwf : Ring.wf wrapped_ring) by (split; simpl; lia).
  destruct (Ring_invariant_kept wrapped_ring (VNum 5) Hwf) as (_ & Hpush & _ & Hpop & _).
  split_and!; [exact Hwf|reflexivity|exact Hpush|exact Hpop].
Defined.

(** X2: the ring is a bounded first-in first-out queue.  Seen through
    its contents (oldest first), a [push] with room appends the value at
    the back, a [push] on a full ring returns false and changes nothing, a
    [pop] takes the oldest value off the front, and a [pop] on an empty
    ring returns [noResult] and changes nothing; this holds wherever the
    head has wrapped to. *)
Theorem Ring_is_fifo (r : Ring.t) (v : jsval) :
  Ring.wf r →
  (Ring.length r < Ring.capacity r →
     (Ring.push v r).1 = true ∧ Ring.contents (Ring.push v r).2 = Ring.contents r ++ [v]) ∧
  (Ring.length r = Ring.capacity r → Ring.push v r = (false, r)) ∧
  (∀ x rest, Ring.contents r = x :: rest →
     (Ring.pop r).1 = {| IteratorResult.done := Some false; IteratorResult.value := x |} ∧
     Ring.contents (Ring.pop r).2 = rest) ∧
  (Ring.contents r = [] → Ring.pop r = (noResult, r)).
Proof.
  intros Hwf. unfold Ring.length, Ring.capacity. split_and!.
  - intros Hlt. by destruct (push_room v r Hwf Hlt) as (r' & -> & _ & ? & _).
  - apply push_full.
  - intros x rest Hc. by destruct (pop_head r x rest Hwf Hc) as (r' & -> & _ & ? & _).
  - intros Hc. apply pop_empty. by rewrite <- contents_length, Hc.
Qed.

Lemma Ring_is_fifo_witness :
  Ring.contents wrapped_ring = [VNum 3; VNum 4] ∧
  Ring.contents (Ring.push (VNum 5) wrapped_ring).2 = [VNum 3; VNum 4; VNum 5] ∧
  (Ring.pop wrapped_ring).1
    = {| IteratorResult.done := Some false; IteratorResult.value := VNum 3 |} ∧
  Ring.contents (Ring.pop wrapped_ring).2 = [VNum 4].
Proof.
  assert (Hwf : Ring.wf wrapped_ring) by (split; simpl; lia).
  destruct (Ring_is_fifo wrapped_ring (VNum 5) Hwf) as (Hpush & _ & Hpop & _).
  destruct Hpush as [_ Hc]; [change (2 < 3); lia|].
  destruct (Hpop (VNum 3) [VNum 4] eq_refl) as [Hv Hrest].
  split_and!; [reflexivity|exact Hc|exact Hv|exact Hrest].
Defined.

Section ActionsExtras.
Context {T : Type} `{Countable T}.
Implicit Types (a : Actions.t T).

Lemma push_remove a (w : T) :
  Actions.coherent a → w ∉ Actions.actions a → Actions.remove w (Actions.push w a) = a.
Proof.
  intros Hc Hw. pose proof (coherent_not_stored a w Hc Hw) as Hk.
  destruct a as [l ks]. simpl in Hk. unfold Actions.remove, Actions.push.
  cbn [Actions.actions Actions.keys]. rewrite lookup_insert_eq, _pop_snoc.
  cbn [Actions.actions Actions.keys]. rewrite Nat.eqb_refl.
  by rewrite delete_insert_id.
Qed.

Lemma push_pop a (w : T) :
  Actions.coherent a → w ∉ Actions.actions a →
  Actions.pop (Actions.push w a) = (Some w, a).
Proof.
  intros Hc Hw. pose proof (coherent_not_stored a w Hc Hw) as Hk.
  destruct a as [l ks]. simpl in Hk. unfold Actions.pop, Actions.push.
  cbn [Actions.actions Actions.keys]. rewrite _pop_snoc.
  cbn [Actions.actions Actions.keys]. by rewrite delete_insert_id.
Qed.

(** X3: round trip of the waiter set.  After [push(w)] of a waiter that was
    not stored into a coherent set, [remove(w)], [pop()] and
    [removeBy(length - 1)] each give back exactly the set as it was, array
    and index; the latter two return [w]. *)
Theorem Actions_push_then_take_back a (w : T) :
  Actions.coherent a → w ∉ Actions.actions a →
  Actions.remove w (Actions.push w a) = a ∧
  Actions.pop (Actions.push w a) = (Some w, a) ∧
  Actions.removeBy (Actions.length a) (Actions.push w a) = (Some w, a).
Proof.
  intros Hc Hw. split_and!; [by apply push_remove|by apply push_pop|].
  pose proof (coherent_not_stored a w Hc Hw) as Hk.
  destruct a as [l ks]. simpl in Hk.
  unfold Actions.removeBy, Actions.push, Actions.length.
  cbn [Actions.actions Actions.keys]. rewrite _pop_snoc.
  cbn [Actions.actions Actions.keys]. rewrite Nat.eqb_refl.
  by rewrite delete_insert_id.
Qed.

Lemma lookup_keys_remove a w y :
  Actions.coherent a → w ∈ Actions.actions a → y ≠ w →
  is_Some (Actions.keys (Actions.remove w a) !! y) ↔ is_Some (Actions.keys a !! y).
Proof.
  intros Hc Hw Hne. apply (coherent_stored_iff a w Hc) in Hw as [i Hi].
  destruct a as [l ks]. unfold Actions.remove. cbn [Actions.keys] in *. rewrite Hi.
  pose proof Hi as Hli. apply (Hc i w) in Hli; simpl in Hli.
  destruct l as [|x l' _] using rev_ind; [done|].
  rewrite _pop_snoc. cbn [Actions.actions Actions.keys].
  assert (Hx : is_Some (ks !! x)).
  { apply (coherent_stored_iff _ x Hc). simpl. apply elem_of_app. right.
    apply list_elem_of_here. }
  destruct (i =? length l'); cbn [Actions.keys].
  - by rewrite lookup_delete_ne.
  - destruct (decide (x = y)) as [->|Hxy].
    + rewrite lookup_insert_eq. split; [done|]. by eexists.
    + by rewrite lookup_insert_ne, lookup_delete_ne.
Qed.

Lemma remove_stored_length a w :
  Actions.coherent a → w ∈ Actions.actions a →
  S (Actions.length (Actions.remove w a)) = Actions.length a.
Proof.
  intros Hc Hw. apply (coherent_stored_iff a w Hc) in Hw as [i Hi].
  destruct a as [l ks]. unfold Actions.remove, Actions.length.
  cbn [Actions.keys Actions.actions] in *. rewrite Hi.
  pose proof Hi as Hli. apply (Hc i w) in Hli; simpl in Hli.
  destruct l as [|x l' _] using rev_ind; [done|].
  rewrite _pop_snoc. cbn [Actions.actions Actions.keys]. rewrite length_app. simpl.
  destruct (i =? length l'); cbn [Actions.actions]; [lia|]. rewrite length_insert. lia.
Qed.

Lemma elem_of_remove a (w y : T) :
  Actions.coherent a → w ∈ Actions.actions a →
  y ∈ Actions.actions (Actions.remove w a) ↔ y ∈ Actions.actions a ∧ y ≠ w.
Proof.
  intros Hc Hw.
  pose proof (coherent_remove a w Hc) as Hc'.
  rewrite (coherent_stored_iff _ y Hc'), (coherent_stored_iff _ y Hc).
  destruct (decide (y = w)) as [->|Hne].
  - split; [|by intros [_ ?]]. intros [j Hj]. exfalso.
    apply (coherent_stored_iff a w Hc) in Hw as [i Hi].
    destruct a as [l ks]. unfold Actions.remove in Hj. cbn [Actions.keys] in *.
    rewrite Hi in Hj. pose proof Hi as Hli. apply (Hc i w) in Hli; simpl in Hli.
    destruct l as [|x l' _] using rev_ind; [done|].
    rewrite _pop_snoc in Hj. cbn [Actions.actions Actions.keys] in Hj.
    destruct (Nat.eqb_spec i (length l')) as [->|Hi']; cbn [Actions.keys] in Hj.
    + by rewrite lookup_delete_eq in Hj.
    + assert (x ≠ w).
      { intros ->. apply Hi'. eapply (coherent_inj _ _ _ w Hc); [exact Hli|]. simpl.
        by rewrite lookup_app_r, Nat.sub_diag. }
      rewrite lookup_insert_ne, lookup_delete_eq in Hj; done.
  - rewrite (lookup_keys_remove a w y Hc Hw Hne). tauto.
Qed.

(** After [remove(w)] on a coherent set, [w] is not stored, whether it
    was or not. *)
Lemma not_elem_of_remove a (w : T) :
  Actions.coherent a → w ∉ Actions.actions (Actions.remove w a).
Proof.
  intros Hc. destruct (decide (w ∈ Actions.actions a)) as [Hin|Hout].
  - intros Hw. by apply (elem_of_remove a w w Hc Hin) in Hw as [_ ?].
  - by rewrite remove_missing by (by apply coherent_not_stored).
Qed.

(** X5: [remove(w)] of a stored waiter from a coherent set takes out [w]
    and nothing else: afterwards the stored waiters are exactly the former
    ones other than [w], and the length has dropped by one. *)
Theorem Actions_remove_takes_out_exactly_one a (w : T) :
  Actions.coherent a → w ∈ Actions.actions a →
  (∀ y, y ∈ Actions.actions (Actions.remove w a) ↔ y ∈ Actions.actions a ∧ y ≠ w) ∧
  S (Actions.length (Actions.remove w a)) = Actions.length a.
Proof.
  intros Hc Hw. split; [|by apply remove_stored_length].
  intros y. by apply elem_of_remove.
Qed.

(** X4: on a coherent set and a valid index [i], [removeBy(i)] returns the
    waiter stored at [i] and leaves exactly the set that [remove] of that
    waiter leaves. *)
Theorem Actions_removeBy_takes_out_exactly_that a (i : nat) :
  Actions.coherent a → i < Actions.length a →
  ∃ x, Actions.actions a !! i = Some x ∧ (Actions.removeBy i a).1 = Some x ∧
       (Actions.removeBy i a).2 = Actions.remove x a.
Proof.
  intros Hc Hi. destruct (lookup_lt_is_Some_2 _ _ Hi) as [x Hx].
  exists x. split; [done|]. destruct (coherent_removeBy a i Hc Hi) as [_ Hr].
  split; [by rewrite Hr|].
  pose proof Hx as Hk. apply (Hc i x) in Hk.
  destruct a as [l ks]. unfold Actions.removeBy, Actions.remove.
  cbn [Actions.keys Actions.actions] in *. rewrite Hk.
  destruct l as [|y l' _] using rev_ind; [done|].
  rewrite _pop_snoc. cbn [Actions.actions Actions.keys fst snd].
  destruct (Nat.eqb_spec i (length l')) as [->|Hne]; cbn [snd].
  - rewrite lookup_app_r, Nat.sub_diag in Hx by done. by injection Hx as ->.
  - unfold Actions.length in Hi. cbn [Actions.actions] in Hi.
    rewrite length_app in Hi; simpl in Hi.
    rewrite lookup_app_l in Hx by lia. by rewrite Hx.
Qed.

End ActionsExtras.

Lemma Actions_push_then_take_back_witness :
  Actions.remove 2 (Actions.push 2 two_waiters) = two_waiters ∧
  Actions.pop (Actions.push 2 two_waiters) = (Some 2, two_waiters).
Proof.
  assert (Hc : Actions.coherent two_waiters).
  { apply coherent_push; [apply coherent_push; [apply coherent_empty|]|]; simpl.
    - apply not_elem_of_nil.
    - intros Hin. apply list_elem_of_singleton in Hin. discriminate. }
  assert (Hfresh : 2 ∉ Actions.actions two_waiters).
  { simpl. intros Hin. apply elem_of_cons in Hin as [Hin|Hin]; [discriminate|].
    apply list_elem_of_singleton in Hin. discriminate. }
  destruct (Actions_push_then_take_back two_waiters 2 Hc Hfresh) as (H1 & H2 & _).
  by split.
Defined.

Lemma Actions_remove_takes_out_exactly_one_witness :
  (∀ y, y ∈ Actions.actions (Actions.remove 0 two_waiters)
        ↔ y ∈ Actions.actions two_waiters ∧ y ≠ 0) ∧
  Actions.actions (Actions.remove 0 two_waiters) = [1].
Proof.
  assert (Hc : Actions.coherent two_waiters).
  { apply coherent_push; [apply coherent_push; [apply coherent_empty|]|]; simpl.
    - apply not_elem_of_nil.
    - intros Hin. apply list_elem_of_singleton in Hin. discriminate. }
  assert (Hin : 0 ∈ Actions.actions two_waiters) by apply list_elem_of_here.
  destruct (Actions_remove_takes_out_exactly_one two_waiters 0 Hc Hin) as [Hmem _].
  split; [exact Hmem|reflexivity].
Defined.

Lemma Actions_removeBy_takes_out_exactly_that_witness :
  ∃ x, Actions.actions two_waiters !! 0 = Some x ∧
       (Actions.removeBy 0 two_waiters).1 = Some x ∧
       (Actions.removeBy 0 two_waiters).2 = Actions.remove x two_waiters.
Proof.
  assert (Hc : Actions.coherent two_waiters).
  { apply coherent_push; [apply coherent_push; [apply coherent_empty|]|]; simpl.
    - apply not_elem_of_nil.
    - intros Hin. apply list_elem_of_singleton in Hin. discriminate. }
  apply (Actions_removeBy_takes_out_exactly_that two_waiters 0 Hc). change (0 < 2). lia.
Defined.

Lemma insert_Permutation {A} (l : list A) i y :
  i < length l → <[i := y]> l ≡ₚ y :: delete i l.
Proof.
  intros Hi. rewrite insert_take_drop by done. rewrite delete_take_drop.
  by rewrite Permutation_middle.
Qed.

(** Exchanging two slots of an array permutes it. *)
Lemma swap_Permutation {A} (l : list A) i j x y :
  l !! i = Some x → l !! j = Some y → <[j := x]> (<[i := y]> l) ≡ₚ l.
Proof.
  intros Hi Hj. pose proof (lookup_lt_Some _ _ _ Hi). pose proof (lookup_lt_Some _ _ _ Hj).
  destruct (decide (i = j)) as [->|Hne].
  - rewrite list_insert_insert_eq. simplify_eq. by rewrite list_insert_id.
  - assert (Hj' : <[i := y]> l !! j = Some y) by (by rewrite list_lookup_insert_ne).
    etrans; [apply insert_Permutation; by rewrite length_insert|].
    etrans; [|symmetry; apply (delete_Permutation l i x Hi)].
    apply Permutation_skip.
    pose proof (delete_Permutation _ _ _ Hj') as H1.
    pose proof (insert_Permutation l i y ltac:(done)) as H2.
    eapply (Permutation_cons_inv (a:=y)). etrans; [symmetry; exact H1|exact H2].
Qed.

Lemma set_rng_set_rng f g w : set_rng f (set_rng g w) = set_rng (λ l, f (g l)) w.
Proof. done. Qed.

Lemma shuffle_spec arrs c w :
  c ≤ length arrs →
  ∃ arrs', shuffle arrs c w = (Return arrs', set_rng (λ l, drop c l) w) ∧ arrs' ≡ₚ arrs.
Proof.
  revert arrs w. induction c as [|c IH]; intros arrs w Hc.
  - exists arrs. split.
    + destruct w.
      reflexivity.
    + reflexivity.
  - simpl. unfold mbind, M_bind, random_index.
    assert (Hr : hd 0 (rng w) `mod` S c < length arrs).
    { pose proof (Nat.mod_upper_bound (hd 0 (rng w)) (S c)). lia. }
    destruct (lookup_lt_is_Some_2 arrs c) as [x Hx]; [lia|].
    destruct (lookup_lt_is_Some_2 arrs _ Hr) as [y Hy].
    rewrite Hx, Hy.
    destruct (IH (<[hd 0 (rng w) `mod` S c := x]> (<[c := y]> arrs)) (set_rng (λ l, tl l) w))
      as (arrs' & -> & Hp).
    { rewrite !length_insert. lia. }
    exists arrs'. split.
    + f_equal. rewrite set_rng_set_rng. destruct w as [? ? ? ? ? ? ? rg ?].
      unfold set_rng. simpl. f_equal. destruct rg; simpl; [by rewrite drop_nil|done].
    + rewrite Hp. by apply swap_Permutation.
Qed.

(** X6: [shuffle(arrs, c)] with [c <= arrs.length] returns a permutation
    of the array it was given (no case is lost or duplicated) and draws
    exactly [c] random numbers. *)
Theorem shuffle_permutes arrs c w :
  c ≤ length arrs →
  ∃ arrs', shuffle arrs c w = (Return arrs', set_rng (λ l, drop c l) w) ∧ arrs' ≡ₚ arrs.
Proof. apply shuffle_spec. Qed.

Lemma shuffle_permutes_witness :
  ∃ arrs', shuffle [10; 11; 12] 3 (empty_world [2; 0; 0])
             = (Return arrs', set_rng (λ l, drop 3 l) (empty_world [2; 0; 0])) ∧
           arrs' ≡ₚ [10; 11; 12].
Proof. apply (shuffle_permutes [10; 11; 12] 3 (empty_world [2; 0; 0])). simpl. lia. Defined.

Section Framing.
Context (R : World → World → Prop).
Context (R_refl : ∀ w, R w w) (R_trans : ∀ w1 w2 w3, R w1 w2 → R w2 w3 → R w1 w3).

Lemma framing_ret {A} (a : A) : framing R (mret a).
Proof using R_refl. intros w. apply R_refl. Qed.

Lemma framing_throw {A} e : framing R (throw (A:=A) e).
Proof using R_refl. intros w. apply R_refl. Qed.

Lemma framing_gets {A} (f : World → A) : framing R (gets f).
Proof using R_refl. intros w. apply R_refl. Qed.

Lemma framing_get_rw ch : framing R (get_rw ch).
Proof using R_refl. intros w. unfold get_rw. destruct (chans w !! ch); apply R_refl. Qed.

Lemma framing_get_case c : framing R (get_case c).
Proof using R_refl. intros w. unfold get_case. destruct (cases w !! c); apply R_refl. Qed.

Lemma framing_effect (f : World → World) : (∀ w, R w (f w)) → framing R (effect f).
Proof. intros Hf w. apply Hf. Qed.

Lemma framing_bind {A B} (m : M A) (f : A → M B) :
  framing R m → (∀ a, framing R (f a)) → framing R (m ≫= f).
Proof using R_trans.
  intros Hm Hf w. unfold mbind, M_bind. specialize (Hm w).
  destruct (m w) as [[a|e] w1]; [|done].
  eapply R_trans; [exact Hm|apply Hf].
Qed.

Lemma framing_foldl {A} (f : World → A → World) (l : list A) w :
  (∀ x w0, R w0 (f w0 x)) → R w (foldl f w l).
Proof using R_refl R_trans.
  intros Hf. revert w. induction l as [|x l IH]; intros w; [apply R_refl|].
  simpl. eapply R_trans; [apply Hf|apply IH].
Qed.

End Framing.

Lemma same_case_shapes_refl w : same_case_shapes w w.
Proof. done. Qed.

Lemma same_case_shapes_trans w1 w2 w3 :
  same_case_shapes w1 w2 → same_case_shapes w2 w3 → same_case_shapes w1 w3.
Proof. unfold same_case_shapes. congruence. Qed.

Lemma same_case_shapes_same_cases w w' : cases w' = cases w → same_case_shapes w w'.
Proof. unfold same_case_shapes. by intros ->. Qed.

Lemma same_case_shapes_alter f c w :
  (∀ cs, erase_slot (f cs) = erase_slot cs) →
  same_case_shapes w (set_cases (alter f c) w).
Proof.
  intros Hf. unfold same_case_shapes. simpl. apply map_eq. intros c'.
  rewrite !lookup_fmap. destruct (decide (c = c')) as [->|Hne].
  - rewrite lookup_alter_eq. destruct (cases w !! c'); simpl; [|done]. by rewrite Hf.
  - by rewrite lookup_alter_ne.
Qed.

Lemma same_case_shapes_lookup w w' c cs :
  same_case_shapes w w' → cases w !! c = Some cs →
  ∃ cs', cases w' !! c = Some cs' ∧ erase_slot cs' = erase_slot cs.
Proof.
  intros Hs Hc. assert (H1 : (erase_slot <$> cases w') !! c = (erase_slot <$> cases w) !! c)
    by (by rewrite Hs).
  rewrite !lookup_fmap, Hc in H1. destruct (cases w' !! c) as [cs'|]; [|done].
  exists cs'. split; [done|]. by injection H1.
Qed.

Lemma erase_set_read_value_ v cs : erase_slot (set_read_value_ v cs) = erase_slot cs.
Proof. by destruct cs. Qed.

Lemma erase_set_write_value_ v cs : erase_slot (set_write_value_ v cs) = erase_slot cs.
Proof. by destruct cs. Qed.

Lemma same_case_shapes_ReadCallback_call cb val w :
  same_case_shapes w (ReadCallback_call cb val w).
Proof.
  destruct cb as [p|c cb]; simpl.
  - destruct (closures w !! p) as [[| | |]|]; try done.
    apply same_case_shapes_same_cases. unfold resolve.
    by rewrite cases_settle, cases_removeEventListener.
  - eapply same_case_shapes_trans;
      [apply same_case_shapes_alter; intros; apply erase_set_read_value_|].
    apply same_case_shapes_same_cases, cases_CaseCallback_call.
Qed.

Lemma same_case_shapes_WriteCallback_call cb val r w :
  same_case_shapes w (WriteCallback_call cb val r w).
Proof.
  destruct cb as [p|c cb]; simpl.
  - destruct (closures w !! p) as [[| | |]|]; try done.
    apply same_case_shapes_same_cases. unfold resolve, reject.
    destruct val; [|destruct (silent opts)];
      by rewrite cases_settle, cases_removeEventListener.
  - destruct val;
      (eapply same_case_shapes_trans;
         [apply same_case_shapes_alter; intros; apply erase_set_write_value_|]);
      apply same_case_shapes_same_cases, cases_CaseCallback_call.
Qed.

Lemma same_case_shapes_ReadAction_invoke a val w :
  same_case_shapes w (ReadAction_invoke a val w).
Proof.
  unfold ReadAction_invoke. destruct (acts w !! a) as [[r [cb|]|]|]; try done.
  apply same_case_shapes_ReadCallback_call.
Qed.

Lemma same_case_shapes_WirteAction_invoke a w :
  same_case_shapes w (WirteAction_invoke a w).
Proof.
  unfold WirteAction_invoke. destruct (acts w !! a) as [[|x v [cb|]]|]; try done.
  apply same_case_shapes_WriteCallback_call.
Qed.

Local Ltac shapes_step :=
  first
    [ apply framing_ret; exact same_case_shapes_refl
    | apply framing_throw; exact same_case_shapes_refl
    | apply framing_gets; exact same_case_shapes_refl
    | apply framing_get_rw; exact same_case_shapes_refl
    | apply framing_get_case; exact same_case_shapes_refl
    | apply (framing_bind _ same_case_shapes_trans) ].

Lemma shapes_Writer_invoke ch : framing same_case_shapes (Writer_invoke ch).
Proof.
  unfold Writer_invoke. shapes_step; [shapes_step|]. intros rw.
  destruct (Actions.length _) as [|[|n]]; [shapes_step| |].
  - destruct (Actions.pop _) as [[p|] rest].
    + shapes_step; [by apply framing_effect|]. intros _.
      shapes_step; [shapes_step|]. intros v.
      shapes_step; [|intros; shapes_step].
      apply framing_effect, same_case_shapes_WirteAction_invoke.
    + shapes_step; [by apply framing_effect|]. intros _. shapes_step.
  - shapes_step; [by intros w|]. intros i.
    destruct (Actions.removeBy _ _) as [[p|] rest].
    + shapes_step; [by apply framing_effect|]. intros _.
      shapes_step; [shapes_step|]. intros v.
      shapes_step; [|intros; shapes_step].
      apply framing_effect, same_case_shapes_WirteAction_invoke.
    + shapes_step; [by apply framing_effect|]. intros _. shapes_step.
Qed.

Lemma shapes_Reader_invoke ch val : framing same_case_shapes (Reader_invoke ch val).
Proof.
  unfold Reader_invoke. shapes_step; [shapes_step|]. intros rw.
  destruct (Actions.length _) as [|[|n]]; [shapes_step| |].
  - destruct (Actions.pop _) as [[p|] rest].
    + shapes_step; [by apply framing_effect|]. intros _.
      apply framing_effect, same_case_shapes_ReadAction_invoke.
    + shapes_step; [by apply framing_effect|]. intros _. shapes_step.
  - shapes_step; [by intros w|]. intros i.
    destruct (Actions.removeBy _ _) as [[p|] rest].
    + shapes_step; [by apply framing_effect|]. intros _.
      apply framing_effect, same_case_shapes_ReadAction_invoke.
    + shapes_step; [by apply framing_effect|]. intros _. shapes_step.
Qed.

Lemma shapes_list_pop ch : framing same_case_shapes (list_pop ch).
Proof.
  intros w. unfold list_pop. destruct (chans w !! ch) as [rw|]; [|done].
  destruct (list_ rw); [|done]. by destruct (Ring.pop _).
Qed.

Lemma shapes_list_push ch v : framing same_case_shapes (list_push ch v).
Proof.
  intros w. unfold list_push. destruct (chans w !! ch) as [rw|]; [|done].
  destruct (list_ rw); [|done]. by destruct (Ring.push _ _).
Qed.

Lemma shapes_RW_tryRead_uncached ch : framing same_case_shapes (RW_tryRead_uncached ch).
Proof.
  unfold RW_tryRead_uncached, Writer_isEmpty. shapes_step; [shapes_step|]. intros rw.
  destruct (isClosed rw); [shapes_step|].
  shapes_step; [shapes_step; [shapes_step|intros; shapes_step]|]. intros [|]; [shapes_step|].
  shapes_step; [apply shapes_Writer_invoke|]. intros; shapes_step.
Qed.

Lemma shapes_RW_tryRead ch : framing same_case_shapes (RW_tryRead ch).
Proof.
  unfold RW_tryRead, Writer_isEmpty. shapes_step; [shapes_step|]. intros rw.
  destruct (list_ rw); [|apply shapes_RW_tryRead_uncached].
  shapes_step; [apply shapes_list_pop|]. intros result.
  destruct (negb _); [|apply shapes_RW_tryRead_uncached].
  shapes_step; [shapes_step; [shapes_step|intros; shapes_step]|]. intros b.
  shapes_step; [|intros; shapes_step].
  destruct (negb _); [|shapes_step].
  shapes_step; [apply shapes_Writer_invoke|]. intros v.
  shapes_step; [apply shapes_list_push|]. intros; shapes_step.
Qed.

Lemma shapes_RW_tryWrite ch v : framing same_case_shapes (RW_tryWrite ch v).
Proof.
  unfold RW_tryWrite, Reader_isEmpty. shapes_step; [shapes_step|]. intros rw.
  destruct (isClosed rw); [shapes_step|].
  shapes_step; [shapes_step; [shapes_step|intros; shapes_step]|]. intros [|].
  - destruct (list_ rw); [|shapes_step].
    shapes_step; [apply shapes_list_push|]. intros; shapes_step.
  - shapes_step; [apply shapes_Reader_invoke|]. intros; shapes_step.
Qed.

Lemma shapes_Chan_tryWrite ch v opts : framing same_case_shapes (Chan_tryWrite ch v opts).
Proof.
  unfold Chan_tryWrite. shapes_step; [shapes_step|]. intros [|].
  - shapes_step; [shapes_step|]. intros r. destruct (silent opts); shapes_step.
  - shapes_step; [apply shapes_RW_tryWrite|]. intros [[|]|]; try shapes_step.
    destruct (silent opts); shapes_step.
Qed.

Lemma bind_Return {A B} (m : M A) (f : A → M B) w b w' :
  (m ≫= f) w = (Return b, w') → ∃ a w1, m w = (Return a, w1) ∧ f a w1 = (Return b, w').
Proof.
  unfold mbind, M_bind. destruct (m w) as [[a|e] w1]; [|done]. intros Hf. by exists a, w1.
Qed.

Lemma shapes_Case_reset c : framing same_case_shapes (Case_reset c).
Proof.
  unfold Case_reset. shapes_step; [shapes_step|]. intros [ch v|ch x v];
    apply framing_effect; intros w; apply same_case_shapes_alter; intros;
    [apply erase_set_read_value_|apply erase_set_write_value_].
Qed.

Lemma shapes_ReadCase_tryInvoke c ch : framing same_case_shapes (ReadCase_tryInvoke c ch).
Proof.
  unfold ReadCase_tryInvoke. shapes_step; [apply shapes_RW_tryRead|]. intros [val|].
  - destruct (truthy _); [shapes_step|]. shapes_step; [|intros; shapes_step].
    apply framing_effect; intros w; apply same_case_shapes_alter; intros;
      apply erase_set_read_value_.
  - shapes_step; [|intros; shapes_step].
    apply framing_effect; intros w; apply same_case_shapes_alter; intros;
      apply erase_set_read_value_.
Qed.

Lemma shapes_WriteCase_tryInvoke c ch v silent :
  framing same_case_shapes (WriteCase_tryInvoke c ch v silent).
Proof.
  unfold WriteCase_tryInvoke. shapes_step; [apply shapes_Chan_tryWrite|]. intros val.
  destruct (WriteValue.ok val) as [[|]|]; [|shapes_step|];
    (shapes_step; [|intros; shapes_step]);
    apply framing_effect; intros w; apply same_case_shapes_alter; intros;
      apply erase_set_write_value_.
Qed.

Lemma shapes_Case_tryInvoke c silent : framing same_case_shapes (Case_tryInvoke c silent).
Proof.
  unfold Case_tryInvoke. shapes_step; [shapes_step|]. intros [ch v|ch x v];
    [apply shapes_ReadCase_tryInvoke|apply shapes_WriteCase_tryInvoke].
Qed.

Lemma Chan_tryWrite_ok_defined ch v opts w val w' :
  Chan_tryWrite ch v opts w = (Return val, w') → WriteValue.ok val ≠ None.
Proof.
  unfold Chan_tryWrite. intros (aborted & w1 & _ & Hk)%bind_Return.
  destruct aborted.
  - apply bind_Return in Hk as (reason & w2 & _ & Hk).
    destruct (silent opts); [|done]. by injection Hk as <- _.
  - apply bind_Return in Hk as (result & w2 & _ & Hk).
    destruct result as [[|]|]; [| |destruct (silent opts); [|done]];
      by injection Hk as <- _.
Qed.

(** What a successful [tryInvoke] leaves in the slot of its case. *)
Lemma Case_tryInvoke_true c silent w w' :
  Case_tryInvoke c silent w = (Return true, w') →
  (∃ rv, ReadCase_read c w' = Some rv ∧ (rv = end_of_stream_read ∨ ∃ v, rv = value_read v)) ∨
  WriteCase_write c w' = Some ok_written.
Proof.
  unfold Case_tryInvoke. intros (cs & w0 & Hcs & Hk)%bind_Return.
  unfold get_case in Hcs. destruct (cases w !! c) as [cs'|] eqn:Hc; [|done].
  injection Hcs as <- <-. destruct cs' as [ch old|ch x old].
  - left. unfold ReadCase_tryInvoke in Hk.
    apply bind_Return in Hk as (val & w1 & Hr & Hk).
    pose proof (shapes_RW_tryRead ch w) as Hs. rewrite Hr in Hs. simpl in Hs.
    destruct (same_case_shapes_lookup _ _ _ _ Hs Hc) as (cs1 & Hc1 & He).
    destruct cs1 as [ch1 old1|]; [|done]. simpl in He.
    destruct val as [val|].
    + destruct (truthy _); [done|].
      apply bind_Return in Hk as ([] & w2 & Hw2 & Hk). injection Hk as <-.
      injection Hw2 as <-. unfold ReadCase_read. simpl.
      rewrite lookup_alter_eq, Hc1. simpl. eexists; split; [done|]. right. by eexists.
    + apply bind_Return in Hk as ([] & w2 & Hw2 & Hk). injection Hk as <-.
      injection Hw2 as <-. unfold ReadCase_read. simpl.
      rewrite lookup_alter_eq, Hc1. simpl. eexists; split; [done|]. by left.
  - right. unfold WriteCase_tryInvoke in Hk.
    apply bind_Return in Hk as (val & w1 & Hr & Hk).
    pose proof (shapes_Chan_tryWrite ch x {| signal := None; silent := silent |} w) as Hs.
    rewrite Hr in Hs. simpl in Hs.
    destruct (same_case_shapes_lookup _ _ _ _ Hs Hc) as (cs1 & Hc1 & He).
    destruct cs1 as [|ch1 x1 old1]; [done|]. simpl in He.
    pose proof (Chan_tryWrite_ok_defined _ _ _ _ _ _ Hr) as Hok.
    destruct (WriteValue.ok val) as [[|]|]; [|done|done].
    apply bind_Return in Hk as ([] & w2 & Hw2 & Hk). injection Hk as <-.
    injection Hw2 as <-. unfold WriteCase_write. simpl.
    by rewrite lookup_alter_eq, Hc1.
Qed.

Lemma try_cases_Some cs silent w c w' :
  try_cases cs silent w = (Return (Some c), w') →
  c ∈ cs ∧ ∃ w0, Case_tryInvoke c silent w0 = (Return true, w').
Proof.
  revert w. induction cs as [|c0 cs IH]; intros w; simpl; [done|].
  intros (b & w1 & Hb & Hk)%bind_Return. destruct b.
  - injection Hk as -> ->. split; [apply list_elem_of_here|]. by exists w.
  - destruct (IH _ Hk) as [Hin Hw0]. split; [by apply list_elem_of_further|done].
Qed.

Lemma try_cases_None cs silent w w' :
  try_cases cs silent w = (Return None, w') → w' = w.
Proof.
  revert w. induction cs as [|c0 cs IH]; intros w; simpl.
  - by intros [= <-].
  - intros (b & w1 & Hb & Hk)%bind_Return. destruct b; [done|].
    apply Case_tryInvoke_false in Hb as [-> _]. by apply IH.
Qed.

Lemma given_cases_elem opts c :
  c ∈ given_cases opts → ∃ l, SelectOptions.chans opts = Some l ∧ Some c ∈ l.
Proof.
  unfold given_cases. destruct (SelectOptions.chans opts) as [l|]; [|by intros ?%elem_of_nil].
  intros (x & Hx & Hid)%list_elem_of_omap. exists l. split; [done|].
  destruct x as [x|]; [|done]. simpl in Hid. by simplify_eq.
Qed.

Lemma only_slots_and_rng_refl w : only_slots_and_rng w w.
Proof. by repeat split. Qed.

Lemma only_slots_and_rng_trans w1 w2 w3 :
  only_slots_and_rng w1 w2 → only_slots_and_rng w2 w3 → only_slots_and_rng w1 w3.
Proof.
  intros (?&?&?&?&?&?&?&?) (?&?&?&?&?&?&?&?).
  split; [by eapply same_case_shapes_trans|]. repeat split; congruence.
Qed.

Lemma slots_Case_reset c : framing only_slots_and_rng (Case_reset c).
Proof.
  intros w. pose proof (shapes_Case_reset c w) as Hs.
  unfold Case_reset, get_case in *. munfold. destruct (cases w !! c) as [[ch v|ch x v]|];
    simpl in *; by repeat split.
Qed.

Lemma slots_reset_all cs : framing only_slots_and_rng (reset_all cs).
Proof.
  induction cs as [|c cs IH]; simpl.
  - apply framing_ret, only_slots_and_rng_refl.
  - apply (framing_bind _ only_slots_and_rng_trans); [apply slots_Case_reset|done].
Qed.

Lemma slots_shuffle arrs c : framing only_slots_and_rng (shuffle arrs c).
Proof.
  revert arrs. induction c as [|c IH]; intros arrs; simpl.
  - apply framing_ret, only_slots_and_rng_refl.
  - apply (framing_bind _ only_slots_and_rng_trans); [by intros w|]. intros r.
    destruct (arrs !! c), (arrs !! r); apply IH.
Qed.

Lemma cleared_Case_reset c c' w :
  cleared c w → cleared c (Case_reset c' w).2.
Proof.
  unfold cleared, ReadCase_read, WriteCase_write, Case_reset, get_case. munfold.
  destruct (cases w !! c') as [[ch v|ch x v]|] eqn:Hc'; simpl; [| |done].
  - destruct (decide (c' = c)) as [->|Hne].
    + rewrite lookup_alter_eq, Hc'. done.
    + by rewrite lookup_alter_ne.
  - destruct (decide (c' = c)) as [->|Hne].
    + rewrite lookup_alter_eq, Hc'. done.
    + by rewrite lookup_alter_ne.
Qed.

Lemma Case_reset_clears c w w' :
  Case_reset c w = (Return (), w') → cleared c w'.
Proof.
  unfold cleared, ReadCase_read, WriteCase_write, Case_reset, get_case. munfold.
  destruct (cases w !! c) as [[ch v|ch x v]|] eqn:Hc; [| |done];
    intros [= <-]; simpl; by rewrite lookup_alter_eq, Hc.
Qed.

Lemma reset_all_clears cs w w' :
  reset_all cs w = (Return (), w') → ∀ c, c ∈ cs ∨ cleared c w → cleared c w'.
Proof.
  revert w. induction cs as [|c0 cs IH]; intros w; simpl.
  - intros [= <-] c [?%elem_of_nil|?]; done.
  - intros ([] & w1 & Hr & Hk)%bind_Return c Hc. apply (IH _ Hk).
    destruct Hc as [[->|Hin]%elem_of_cons|Hcl]; [right|by left|right].
    + by eapply Case_reset_clears.
    + pose proof (cleared_Case_reset c c0 w Hcl) as H1. by rewrite Hr in H1.
Qed.

Lemma cleared_frame c w w' : cases w' = cases w → cleared c w → cleared c w'.
Proof. unfold cleared, ReadCase_read, WriteCase_write. by intros ->. Qed.

Lemma cases_shuffle arrs c w : cases (shuffle arrs c w).2 = cases w.
Proof.
  revert arrs w. induction c as [|c IH]; intros arrs w; simpl; [done|].
  unfold mbind, M_bind, random_index.
  destruct (arrs !! c), (arrs !! (hd 0 (rng w) `mod` S c)); by rewrite IH.
Qed.

(** What [selectChan] does once the signal is known not to be aborted and
    some case is given. *)
Lemma selectChan_with_cases opts w :
  signal_aborted (SelectOptions.signal opts) w = false → given_cases opts ≠ [] →
  selectChan opts w =
    (_ ← reset_all (given_cases opts);
     chans ← shuffle (given_cases opts) (length (given_cases opts));
     ready ← try_cases chans (SelectOptions.silent opts);
     match ready with
     | Some c => mret (SelCase c)
     | None =>
         if SelectOptions.default opts then mret SelNull
         else
           p ← new_Promise;
           conns ← arm_all chans (SelectCb p);
           _ ← effect (set_closures
                  <[p := SelectClosure conns
                           (mkOptions (SelectOptions.signal opts) (SelectOptions.silent opts))]>);
           _ ← effect (addEventListener (SelectOptions.signal opts) p);
           mret (SelPromise p)
     end) w.
Proof.
  intros Ha Hne. unfold selectChan, given_cases in *.
  unfold mbind at 1, M_bind at 1, gets at 1. rewrite Ha.
  destruct (match SelectOptions.chans opts with Some l => omap id l | None => [] end);
    [done|done].
Qed.

Lemma selectChan_aborted opts w :
  signal_aborted (SelectOptions.signal opts) w = true →
  selectChan opts w =
    (if SelectOptions.silent opts
     then Return (SelAborted (signal_reason (SelectOptions.signal opts) w))
     else Throw (signal_reason (SelectOptions.signal opts) w), w).
Proof.
  intros Ha. unfold selectChan. munfold. rewrite Ha.
  by destruct (SelectOptions.silent opts).
Qed.

Lemma selectChan_no_cases opts w :
  signal_aborted (SelectOptions.signal opts) w = false → given_cases opts = [] →
  selectChan opts w =
    (if SelectOptions.default opts then mret SelNull
     else
       match SelectOptions.signal opts with
       | Some s =>
           p ← new_Promise;
           _ ← effect (set_closures <[p := EmptySelectClosure s (SelectOptions.silent opts)]>);
           _ ← effect (addEventListener (SelectOptions.signal opts) p);
           mret (SelPromise p)
       | None => mret SelNever
       end) w.
Proof.
  intros Ha Hne. unfold selectChan, given_cases in *.
  unfold mbind at 1, M_bind at 1, gets at 1. rewrite Ha. by rewrite Hne.
Qed.

(** X7: whenever [selectChan] returns a case at once, it is one of the
    cases passed in [opts.chans], and its outcome is already stored: a read
    case holds either a value ([closed: false, ok: true]) or the
    end-of-stream envelope ([closed: true, ok: false, value: null]), a
    write case holds [{ ok: true }]. *)
Theorem selectChan_returns_a_given_case_with_its_outcome opts w c w' :
  selectChan opts w = (Return (SelCase c), w') →
  (∃ l, SelectOptions.chans opts = Some l ∧ Some c ∈ l) ∧
  ((∃ rv, ReadCase_read c w' = Some rv ∧
          (rv = end_of_stream_read ∨ ∃ v, rv = value_read v)) ∨
   WriteCase_write c w' = Some ok_written).
Proof.
  intros Hsel.
  destruct (signal_aborted (SelectOptions.signal opts) w) eqn:Ha.
  { rewrite selectChan_aborted in Hsel by done.
    by destruct (SelectOptions.silent opts). }
  destruct (decide (given_cases opts = [])) as [He|Hne].
  { rewrite selectChan_no_cases in Hsel by done.
    destruct (SelectOptions.default opts); [done|].
    by destruct (SelectOptions.signal opts). }
  rewrite selectChan_with_cases in Hsel by done.
  apply bind_Return in Hsel as ([] & w1 & Hreset & Hsel).
  apply bind_Return in Hsel as (cs & w2 & Hsh & Hsel).
  apply bind_Return in Hsel as (ready & w3 & Htry & Hsel).
  destruct (shuffle_spec (given_cases opts) (length (given_cases opts)) w1) as (cs' & Hs' & Hperm);
    [done|].
  rewrite Hs' in Hsh. injection Hsh as <- <-.
  destruct ready as [c'|].
  - injection Hsel as <- <-.
    apply try_cases_Some in Htry as [Hin (w0 & Hinv)]. split.
    + apply given_cases_elem. by rewrite <- Hperm.
    + by eapply Case_tryInvoke_true.
  - destruct (SelectOptions.default opts); [done|].
    apply bind_Return in Hsel as (p & w4 & _ & Hsel).
    apply bind_Return in Hsel as (conns & w5 & _ & Hsel).
    apply bind_Return in Hsel as (? & w6 & _ & Hsel).
    apply bind_Return in Hsel as (? & w7 & _ & Hsel). done.
Qed.

Lemma selectChan_returns_a_given_case_with_its_outcome_witness :
  (∃ l, Some [Some 1] = Some l ∧ Some 1 ∈ l) ∧
  ((∃ rv, ReadCase_read 1
            (selectChan {| SelectOptions.default := false; SelectOptions.silent := false;
                           SelectOptions.signal := None;
                           SelectOptions.chans := Some [Some 1] |} ready_read_case).2 = Some rv ∧
          (rv = end_of_stream_read ∨ ∃ v, rv = value_read v)) ∨
   WriteCase_write 1
     (selectChan {| SelectOptions.default := false; SelectOptions.silent := false;
                    SelectOptions.signal := None;
                    SelectOptions.chans := Some [Some 1] |} ready_read_case).2 = Some ok_written).
Proof.
  apply (selectChan_returns_a_given_case_with_its_outcome
           {| SelectOptions.default := false; SelectOptions.silent := false;
              SelectOptions.signal := None; SelectOptions.chans := Some [Some 1] |}
           ready_read_case 1).
  vm_compute. reflexivity.
Defined.

(** X8: with [default: true], [selectChan] never returns a promise.  When
    it returns [null], nothing was done to any channel, action, promise,
    closure or signal (only outcome slots and the random supply differ), and
    the outcome slot of every case passed in is empty. *)
Theorem selectChan_default_never_waits opts w r w' :
  SelectOptions.default opts = true → selectChan opts w = (r, w') →
  (∀ p, r ≠ Return (SelPromise p)) ∧ r ≠ Return SelNever ∧
  (r = Return SelNull →
     only_slots_and_rng w w' ∧
     ∀ l c, SelectOptions.chans opts = Some l → Some c ∈ l →
       ReadCase_read c w' = None ∧ WriteCase_write c w' = None).
Proof.
  intros Hd Hsel.
  destruct (signal_aborted (SelectOptions.signal opts) w) eqn:Ha.
  { rewrite selectChan_aborted in Hsel by done. injection Hsel as <- <-.
    by destruct (SelectOptions.silent opts). }
  destruct (decide (given_cases opts = [])) as [He|Hne].
  { rewrite selectChan_no_cases in Hsel by done. rewrite Hd in Hsel.
    injection Hsel as <- <-. split_and!; [done|done|]. intros _.
    split; [apply only_slots_and_rng_refl|]. intros l c Hl Hin.
    unfold given_cases in He. rewrite Hl in He.
    assert (c ∈ omap id l) as Hc by (apply list_elem_of_omap; by exists (Some c)).
    rewrite He in Hc. by apply elem_of_nil in Hc. }
  rewrite selectChan_with_cases in Hsel by done.
  unfold mbind at 1, M_bind at 1 in Hsel.
  pose proof (slots_reset_all (given_cases opts) w) as Hf1.
  destruct (reset_all (given_cases opts) w) as [[[]|e] w1] eqn:Hreset;
    [|injection Hsel as <- <-; done].
  unfold mbind at 1, M_bind at 1 in Hsel.
  pose proof (slots_shuffle (given_cases opts) (length (given_cases opts)) w1) as Hf2.
  pose proof (cases_shuffle (given_cases opts) (length (given_cases opts)) w1) as Hc2.
  destruct (shuffle _ _ w1) as [[cs|e] w2] eqn:Hsh; [|injection Hsel as <- <-; done].
  unfold mbind at 1, M_bind at 1 in Hsel.
  destruct (try_cases cs (SelectOptions.silent opts) w2) as [[[c'|]|e] w3] eqn:Htry;
    [injection Hsel as <- <-; done| |injection Hsel as <- <-; done].
  rewrite Hd in Hsel. injection Hsel as <- <-.
  apply try_cases_None in Htry as ->. split_and!; [done|done|]. intros _. split.
  - eapply only_slots_and_rng_trans; [exact Hf1|exact Hf2].
  - intros l c Hl Hin.
    assert (c ∈ given_cases opts) as Hc.
    { unfold given_cases. rewrite Hl. apply list_elem_of_omap. by exists (Some c). }
    apply (cleared_frame c w1 w2 Hc2).
    apply (reset_all_clears _ _ _ Hreset). by left.
Qed.

Lemma selectChan_default_never_waits_witness :
  selectChan {| SelectOptions.default := true; SelectOptions.silent := false;
                SelectOptions.signal := None; SelectOptions.chans := Some [Some 1] |}
    idle_read_case = (Return SelNull, set_rng (λ _, []) idle_read_case) ∧
  ((∀ p, Return SelNull ≠ Return (SelPromise p)) ∧
   Return SelNull ≠ Return SelNever ∧
   (Return SelNull = Return SelNull →
      only_slots_and_rng idle_read_case (set_rng (λ _, []) idle_read_case) ∧
      ∀ l c, Some [Some 1] = Some l → Some c ∈ l →
        ReadCase_read c (set_rng (λ _, []) idle_read_case) = None ∧
        WriteCase_write c (set_rng (λ _, []) idle_read_case) = None)).
Proof.
  assert (Hrun : selectChan {| SelectOptions.default := true; SelectOptions.silent := false;
                SelectOptions.signal := None; SelectOptions.chans := Some [Some 1] |}
    idle_read_case = (Return SelNull, set_rng (λ _, []) idle_read_case))
    by (vm_compute; reflexivity).
  split; [exact Hrun|].
  exact (selectChan_default_never_waits
           {| SelectOptions.default := true; SelectOptions.silent := false;
              SelectOptions.signal := None; SelectOptions.chans := Some [Some 1] |}
           _ _ _ eq_refl Hrun).
Defined.

Lemma only_chans_and_acts_refl w : only_chans_and_acts w w.
Proof. by repeat split. Qed.

Lemma only_chans_and_acts_trans w1 w2 w3 :
  only_chans_and_acts w1 w2 → only_chans_and_acts w2 w3 → only_chans_and_acts w1 w3.
Proof.
  intros (?&?&?&?&?&?&?) (?&?&?&?&?&?&?). repeat split; congruence.
Qed.

Lemma Connection_disconnect_only a w : only_chans_and_acts w (Connection_disconnect a w).
Proof.
  unfold Connection_disconnect.
  destruct (acts w !! a) as [[[r|] cb|[x|] v cb]|]; by repeat split.
Qed.

Lemma disconnect_all_only conns w : only_chans_and_acts w (disconnect_all conns w).
Proof.
  unfold disconnect_all.
  apply (framing_foldl _ only_chans_and_acts_refl only_chans_and_acts_trans).
  intros. apply Connection_disconnect_only.
Qed.

Lemma settle_fields p s w :
  closures (settle p s w) = closures w ∧ signals (settle p s w) = signals w ∧
  ∀ q, q ≠ p → promises (settle p s w) !! q = promises w !! q.
Proof.
  unfold settle. destruct (promises w !! p) as [[| |]|]; split_and!; try done.
  intros q Hq. simpl. by rewrite lookup_insert_ne.
Qed.

Lemma settle_pending p s w :
  promises w !! p = Some Pending → promises (settle p s w) !! p = Some s.
Proof. intros Hp. unfold settle. rewrite Hp. simpl. by rewrite lookup_insert_eq. Qed.

(** The listener of another promise leaves a promise, its closure and
    the signals as they are. *)
Lemma settle_other q s p w :
  q ≠ p →
  closures (settle q s w) = closures w ∧ signals (settle q s w) = signals w ∧
  promises (settle q s w) !! p = promises w !! p.
Proof.
  intros Hne. destruct (settle_fields q s w) as (Hc & Hs & Hp).
  split_and!; [done|done|]. apply Hp. congruence.
Qed.

Lemma onAbort_other q p w :
  q ≠ p →
  closures (onAbort q w) = closures w ∧ signals (onAbort q w) = signals w ∧
  promises (onAbort q w) !! p = promises w !! p.
Proof.
  intros Hne. unfold onAbort.
  destruct (closures w !! q) as [[a opts|a opts|conns opts|s silent]|]; [| | | |done].
  - destruct (Connection_disconnect_only a w) as (_&Hp&Hc&Hs&_).
    unfold resolve, reject.
    destruct (silent opts);
      match goal with |- context [settle q ?s ?w0] =>
        destruct (settle_other q s p w0 Hne) as (E1&E2&E3) end;
      by rewrite E1, E2, E3, Hp, Hc, Hs.
  - destruct (Connection_disconnect_only a w) as (_&Hp&Hc&Hs&_).
    unfold resolve, reject.
    destruct (silent opts);
      match goal with |- context [settle q ?s ?w0] =>
        destruct (settle_other q s p w0 Hne) as (E1&E2&E3) end;
      by rewrite E1, E2, E3, Hp, Hc, Hs.
  - destruct (disconnect_all_only conns w) as (_&Hp&Hc&Hs&_).
    unfold resolve, reject.
    destruct (silent opts);
      match goal with |- context [settle q ?s ?w0] =>
        destruct (settle_other q s p w0 Hne) as (E1&E2&E3) end;
      by rewrite E1, E2, E3, Hp, Hc, Hs.
  - unfold resolve, reject.
    destruct silent;
      match goal with |- context [settle q ?s ?w0] =>
        destruct (settle_other q s p w0 Hne) as (E1&E2&E3) end;
      by rewrite E1, E2, E3.
Qed.

Lemma onAbort_others l p w :
  p ∉ l →
  closures (foldl (λ w' q, onAbort q w') w l) = closures w ∧
  signals (foldl (λ w' q, onAbort q w') w l) = signals w ∧
  promises (foldl (λ w' q, onAbort q w') w l) !! p = promises w !! p.
Proof.
  revert w. induction l as [|q l IH]; intros w Hp; [done|]. simpl.
  apply not_elem_of_cons in Hp as [Hne Hp].
  destruct (IH (onAbort q w) Hp) as (->&->&->). by apply onAbort_other.
Qed.

(** X9: [selectChan] with no case left after filtering (and a signal that
    has not aborted) returns [null] under [default], the shared never-settling
    promise when there is no signal, and otherwise a fresh pending promise,
    leaving the channels alone; when the controller then aborts, that
    promise is rejected with the reason, or resolved with [{ reason }] in
    silent mode. *)
Theorem selectChan_without_cases opts w :
  signal_aborted (SelectOptions.signal opts) w = false → given_cases opts = [] →
  (SelectOptions.default opts = true → selectChan opts w = (Return SelNull, w)) ∧
  (SelectOptions.default opts = false → SelectOptions.signal opts = None →
     selectChan opts w = (Return SelNever, w)) ∧
  (SelectOptions.default opts = false →
     ∀ s sg, SelectOptions.signal opts = Some s → signals w !! s = Some sg →
       next w ∉ listeners sg →
       ∃ w1, selectChan opts w = (Return (SelPromise (next w)), w1) ∧
         promises w1 !! next w = Some Pending ∧ chans w1 = chans w ∧
         ∀ reason, promises (AbortController_abort s reason w1) !! next w =
           Some (if SelectOptions.silent opts then Resolved (SAborted reason)
                 else Rejected reason)).
Proof.
  intros Ha He. rewrite selectChan_no_cases by done. split_and!.
  - by intros ->.
  - by intros -> ->.
  - intros -> s sg Hs Hsg Hfresh. rewrite Hs in *. eexists. split; [reflexivity|].
    simpl. split_and!; [by rewrite lookup_insert_eq|done|]. intros reason.
    unfold AbortController_abort. simpl. rewrite lookup_alter_eq, Hsg. simpl.
    unfold signal_aborted in Ha. rewrite Hsg in Ha. rewrite Ha.
    rewrite foldl_app. simpl.
    match goal with |- context [foldl _ ?w0 (listeners sg)] =>
      destruct (onAbort_others (listeners sg) (next w) w0 Hfresh) as (Hc & Hsig & Hp);
      set (w2 := foldl _ w0 (listeners sg)) in * end.
    simpl in Hc, Hsig, Hp. rewrite lookup_insert_eq in Hp.
    unfold onAbort. rewrite Hc, lookup_insert_eq.
    assert (Hr : signal_reason (Some s) w2 = reason).
    { unfold signal_reason. rewrite Hsig. by rewrite lookup_insert_eq. }
    rewrite Hr. unfold resolve, reject.
    by destruct (SelectOptions.silent opts); apply settle_pending.
Qed.

Lemma selectChan_without_cases_witness :
  selectChan {| SelectOptions.default := false; SelectOptions.silent := true;
                SelectOptions.signal := Some 0; SelectOptions.chans := Some [None] |}
    one_signal =
    (Return (SelPromise 1),
     (selectChan {| SelectOptions.default := false; SelectOptions.silent := true;
                SelectOptions.signal := Some 0; SelectOptions.chans := Some [None] |}
        one_signal).2) ∧
  promises (AbortController_abort 0 (VStr "stop")
     (selectChan {| SelectOptions.default := false; SelectOptions.silent := true;
                SelectOptions.signal := Some 0; SelectOptions.chans := Some [None] |}
        one_signal).2) !! 1 = Some (Resolved (SAborted (VStr "stop"))).
Proof.
  destruct (proj2 (proj2 (selectChan_without_cases
     {| SelectOptions.default := false; SelectOptions.silent := true;
        SelectOptions.signal := Some 0; SelectOptions.chans := Some [None] |}
     one_signal eq_refl eq_refl)) eq_refl 0
     {| aborted := false; sreason := VUndefined; listeners := [] |} eq_refl eq_refl
     ltac:(apply not_elem_of_nil)) as (w1 & Hsel & _ & _ & Habort).
  rewrite Hsel. split; [reflexivity|]. apply Habort.
Defined.

(** X10: with a signal that has already aborted, [tryRead], [read],
    [tryWrite] and [write] all finish at once without looking at the
    channel: they throw the signal's reason, or in silent mode return the
    envelope carrying it ([closed: null, ok: false] for reads,
    [ok: false, error: true] for writes); [read] and [write] return it
    directly, not a promise, and the store is unchanged. *)
Theorem aborted_signal_stops_every_operation ch v opts w :
  signal_aborted (signal opts) w = true →
  Chan_tryRead ch opts w =
    (if silent opts
     then Return {| ReadValue.closed := None; ReadValue.reason := signal_reason (signal opts) w;
                    ReadValue.ok := false; ReadValue.value := VNull |}
     else Throw (signal_reason (signal opts) w), w) ∧
  Chan_read ch opts w =
    (if silent opts
     then Return (inl {| ReadValue.closed := None;
                         ReadValue.reason := signal_reason (signal opts) w;
                         ReadValue.ok := false; ReadValue.value := VNull |})
     else Throw (signal_reason (signal opts) w), w) ∧
  Chan_tryWrite ch v opts w =
    (if silent opts
     then Return {| WriteValue.ok := Some false; WriteValue.error := Some true;
                    WriteValue.reason := signal_reason (signal opts) w |}
     else Throw (signal_reason (signal opts) w), w) ∧
  Chan_write ch v opts w =
    (if silent opts
     then Return (inl {| WriteValue.ok := Some false; WriteValue.error := Some true;
                         WriteValue.reason := signal_reason (signal opts) w |})
     else Throw (signal_reason (signal opts) w), w).
Proof.
  intros Ha.
  assert (Hr : Chan_tryRead ch opts w =
    (if silent opts
     then Return {| ReadValue.closed := None; ReadValue.reason := signal_reason (signal opts) w;
                    ReadValue.ok := false; ReadValue.value := VNull |}
     else Throw (signal_reason (signal opts) w), w)).
  { unfold Chan_tryRead. munfold. rewrite Ha. by destruct (silent opts). }
  assert (Hw : Chan_tryWrite ch v opts w =
    (if silent opts
     then Return {| WriteValue.ok := Some false; WriteValue.error := Some true;
                    WriteValue.reason := signal_reason (signal opts) w |}
     else Throw (signal_reason (signal opts) w), w)).
  { unfold Chan_tryWrite. munfold. rewrite Ha. by destruct (silent opts). }
  split_and!; [done| |done|].
  - unfold Chan_read. unfold mbind at 1, M_bind at 1. rewrite Hr. by destruct (silent opts).
  - unfold Chan_write. unfold mbind at 1, M_bind at 1. rewrite Hw. by destruct (silent opts).
Qed.

Lemma RW_tryRead_nothing ch w rw :
  chans w !! ch = Some rw → isClosed rw = false → RW_length rw = 0 →
  Actions.length (w_actions (w_ rw)) = 0 →
  RW_tryRead ch w = (Return (Some noResult), w).
Proof.
  intros Hch Hopen Hlen Hw.
  assert (Hu : RW_tryRead_uncached ch w = (Return (Some noResult), w)).
  { unfold RW_tryRead_uncached, Writer_isEmpty. munfold.
    repeat (first [rewrite Hch | rewrite Hopen | rewrite Hw]; cbv beta iota). done. }
  unfold RW_tryRead. unfold mbind at 1, M_bind at 1, get_rw. rewrite Hch.
  unfold RW_length in Hlen. destruct (list_ rw) as [ring|] eqn:Hl; [|done].
  unfold mbind at 1, M_bind at 1. rewrite (list_pop_empty ch w rw ring Hch Hl Hlen).
  done.
Qed.

Lemma Chan_tryRead_nothing ch opts w rw :
  signal_aborted (signal opts) w = false →
  chans w !! ch = Some rw → isClosed rw = false → RW_length rw = 0 →
  Actions.length (w_actions (w_ rw)) = 0 →
  Chan_tryRead ch opts w = (Return nothing_read, w).
Proof.
  intros Ha Hch Hopen Hlen Hw. unfold Chan_tryRead.
  unfold mbind at 1, M_bind at 1, gets at 1. rewrite Ha.
  unfold mbind at 1, M_bind at 1. by rewrite (RW_tryRead_nothing ch w rw).
Qed.

Lemma RW_tryWrite_blocked ch v w rw :
  chans w !! ch = Some rw → isClosed rw = false → RW_length rw = RW_capacity rw →
  Actions.length (r_actions (r_ rw)) = 0 →
  RW_tryWrite ch v w = (Return (Some false), w).
Proof.
  intros Hch Hopen Hfull Hr. rewrite (RW_tryWrite_no_reader ch v w rw) by done.
  unfold RW_length, RW_capacity in Hfull. destruct (list_ rw) as [ring|] eqn:Hl; [|done].
  unfold list_push. rewrite Hch, Hl. rewrite push_full by done.
  by rewrite set_list__id, set_chans_insert_id.
Qed.

Lemma Chan_tryWrite_blocked ch v opts w rw :
  signal_aborted (signal opts) w = false →
  chans w !! ch = Some rw → isClosed rw = false → RW_length rw = RW_capacity rw →
  Actions.length (r_actions (r_ rw)) = 0 →
  Chan_tryWrite ch v opts w = (Return not_written, w).
Proof.
  intros Ha Hch Hopen Hfull Hr. unfold Chan_tryWrite.
  unfold mbind at 1, M_bind at 1, gets at 1. rewrite Ha.
  unfold mbind at 1, M_bind at 1. by rewrite (RW_tryWrite_blocked ch v w rw).
Qed.

(** [Chan.read] with nothing to read parks a fresh reader behind a fresh
    pending promise. *)
Lemma Chan_read_parks ch opts w rw :
  signal_aborted (signal opts) w = false →
  chans w !! ch = Some rw → isClosed rw = false → RW_length rw = 0 →
  Actions.length (w_actions (w_ rw)) = 0 →
  Chan_read ch opts w =
    (Return (inr (next w)),
     addEventListener (signal opts) (next w)
       (set_closures <[next w := ReadClosure (S (next w)) opts]>
          (modify_reader ch (Actions.push (S (next w)))
             (set_acts <[S (next w) := ReadAction (Some ch) (Some (ChanReadCb (next w)))]>
                (set_next S (set_promises <[next w := Pending]> (set_next S w))))))).
Proof.
  intros Ha Hch Hopen Hlen Hw. unfold Chan_read.
  unfold mbind at 1, M_bind at 1. rewrite (Chan_tryRead_nothing ch opts w rw) by done.
  cbn [nothing_read ReadValue.closed ReadValue.ok closed_isnt_false orb].
  unfold mbind at 1, M_bind at 1. rewrite new_Promise_eq.
  unfold mbind at 1, M_bind at 1. unfold RW_read. rewrite Reader_connect_eq.
  reflexivity.
Qed.

Lemma Chan_write_parks ch v opts w rw :
  signal_aborted (signal opts) w = false →
  chans w !! ch = Some rw → isClosed rw = false → RW_length rw = RW_capacity rw →
  Actions.length (r_actions (r_ rw)) = 0 →
  Chan_write ch v opts w =
    (Return (inr (next w)),
     addEventListener (signal opts) (next w)
       (set_closures <[next w := WriteClosure (S (next w)) opts]>
          (modify_writer ch (Actions.push (S (next w)))
             (set_acts <[S (next w) := WirteAction (Some ch) v (Some (ChanWriteCb (next w)))]>
                (set_next S (set_promises <[next w := Pending]> (set_next S w))))))).
Proof.
  intros Ha Hch Hopen Hfull Hr. unfold Chan_write.
  unfold mbind at 1, M_bind at 1. rewrite (Chan_tryWrite_blocked ch v opts w rw) by done.
  cbn [not_written WriteValue.ok WriteValue.error truthy orb].
  unfold mbind at 1, M_bind at 1. rewrite new_Promise_eq.
  unfold mbind at 1, M_bind at 1. unfold RW_write. rewrite Writer_connect_eq.
  reflexivity.
Qed.

Lemma alter_insert_id_chans ch (f : RW → RW) rw w :
  chans w !! ch = Some rw → f rw = rw → set_chans (alter f ch) w = w.
Proof.
  intros Hch Hf. destruct w as [cs ? ? ? ? ? ? ? ?]. unfold set_chans. simpl in *. f_equal.
  apply map_eq. intros k. destruct (decide (ch = k)) as [->|Hne].
  - by rewrite lookup_alter_eq, Hch; simpl; rewrite Hf.
  - by rewrite lookup_alter_ne.
Qed.


(** X11: rendezvous, reader first.  On an open channel with nothing
    buffered and nobody parked, [read()] returns a fresh pending promise; a
    following [tryWrite(v)] returns [{ ok: true }], resolves that promise
    with [{ closed: false, ok: true, value: v }], and leaves the channel
    exactly as it was before the read (nothing buffered, nobody parked). *)
Theorem read_then_tryWrite_hands_the_value_over ch opts v w rw :
  signal_aborted (signal opts) w = false →
  chans w !! ch = Some rw → isClosed rw = false → RW_length rw = 0 →
  r_actions (r_ rw) = Actions.empty → Actions.length (w_actions (w_ rw)) = 0 →
  ∃ w1 w2,
    Chan_read ch opts w = (Return (inr (next w)), w1) ∧
    promises w1 !! next w = Some Pending ∧
    Chan_tryWrite ch v no_options w1 = (Return ok_written, w2) ∧
    promises w2 !! next w = Some (Resolved (SRead (value_read v))) ∧
    chans w2 = chans w.
Proof.
  intros Ha Hch Hopen Hlen Hr Hw.
  rewrite (Chan_read_parks ch opts w rw) by done.
  match goal with |- context [(Return (inr (next w)), ?w0)] => set (w1 := w0) end.
  set (w2 := modify_reader ch (λ _, Actions.empty) w1).
  exists w1, (ReadAction_invoke (S (next w))
                {| IteratorResult.done := None; IteratorResult.value := v |} w2).
  split; [reflexivity|].
  split; [subst w1; destruct (signal opts); simpl; by rewrite lookup_insert_eq|].
  rewrite Chan_tryWrite_no_options.
  set (rw1 := set_r_ (set_r_actions (Actions.push (S (next w)))) rw).
  assert (Hch1 : chans w1 !! ch = Some rw1).
  { subst w1. destruct (signal opts); simpl; by rewrite lookup_alter_eq, Hch. }
  assert (Hpool : r_actions (r_ rw1) = Actions.push (S (next w)) Actions.empty).
  { subst rw1. simpl. by rewrite Hr. }
  rewrite (RW_tryWrite_handoff ch v w1 rw1 Hch1); [|done|by rewrite Hpool].
  unfold Reader_invoke. unfold mbind at 1, M_bind at 1, get_rw. rewrite Hch1, Hpool.
  change (Actions.length (Actions.push (S (next w)) Actions.empty)) with 1.
  cbv beta iota. rewrite push_pop; [|apply coherent_empty|apply not_elem_of_nil].
  munfold. fold w2. split; [reflexivity|].
  assert (Hacts : acts w2 !! S (next w) =
                  Some (ReadAction (Some ch) (Some (ChanReadCb (next w))))).
  { subst w2 w1. destruct (signal opts); simpl; by rewrite lookup_insert_eq. }
  assert (Hclo : closures w2 !! next w = Some (ReadClosure (S (next w)) opts)).
  { subst w2 w1. destruct (signal opts); simpl; by rewrite lookup_insert_eq. }
  assert (Hp : promises (removeEventListener (signal opts) (next w) w2) !! next w
               = Some Pending).
  { subst w2 w1. destruct (signal opts); simpl; by rewrite lookup_insert_eq. }
  unfold ReadAction_invoke. rewrite Hacts. unfold ReadCallback_call. rewrite Hclo.
  cbn [truthy IteratorResult.done IteratorResult.value]. unfold resolve.
  split; [by apply settle_pending|].
  rewrite chans_settle, chans_removeEventListener.
  subst w2 w1. unfold modify_reader.
  destruct (signal opts); simpl;
    (apply map_eq; intros k; destruct (decide (ch = k)) as [<-|Hne];
      [rewrite !lookup_alter_eq, Hch; simpl; f_equal;
       destruct rw as [l [rc ra] wr ic c]; simpl in *; by subst
      |by rewrite !lookup_alter_ne]).
Qed.

(** X12: rendezvous, writer first.  On an open unbuffered channel with
    nobody parked, [write(v)] returns a fresh pending promise; a following
    [tryRead()] returns [{ closed: false, ok: true, value: v }], resolves
    that promise with [{ ok: true }], and leaves the channel exactly as it
    was before the write. *)
Theorem write_then_tryRead_hands_the_value_over ch opts v w rw :
  signal_aborted (signal opts) w = false →
  chans w !! ch = Some rw → isClosed rw = false → list_ rw = None →
  Actions.length (r_actions (r_ rw)) = 0 → w_actions (w_ rw) = Actions.empty →
  ∃ w1 w2,
    Chan_write ch v opts w = (Return (inr (next w)), w1) ∧
    promises w1 !! next w = Some Pending ∧
    Chan_tryRead ch no_options w1 = (Return (value_read v), w2) ∧
    promises w2 !! next w = Some (Resolved (SWrite ok_written)) ∧
    chans w2 = chans w.
Proof.
  intros Ha Hch Hopen Hl Hr Hw.
  rewrite (Chan_write_parks ch v opts w rw); [|done|done|done| |done].
  2:{ unfold RW_length, RW_capacity. by rewrite Hl. }
  match goal with |- context [(Return (inr (next w)), ?w0)] => set (w1 := w0) end.
  set (w2 := modify_writer ch (λ _, Actions.empty) w1).
  exists w1, (WirteAction_invoke (S (next w)) w2).
  split; [reflexivity|].
  split; [subst w1; destruct (signal opts); simpl; by rewrite lookup_insert_eq|].
  rewrite Chan_tryRead_no_options.
  set (rw1 := set_w_ (set_w_actions (Actions.push (S (next w)))) rw).
  assert (Hch1 : chans w1 !! ch = Some rw1).
  { subst w1. destruct (signal opts); simpl; by rewrite lookup_alter_eq, Hch. }
  assert (Hpool : w_actions (w_ rw1) = Actions.push (S (next w)) Actions.empty).
  { subst rw1. simpl. by rewrite Hw. }
  assert (Hacts : acts w2 !! S (next w) =
                  Some (WirteAction (Some ch) v (Some (ChanWriteCb (next w))))).
  { subst w2 w1. destruct (signal opts); simpl; by rewrite lookup_insert_eq. }
  assert (Hrun : RW_tryRead ch w1 =
    (Return (Some {| IteratorResult.done := None; IteratorResult.value := v |}),
     WirteAction_invoke (S (next w)) w2)).
  { assert (Hl1 : list_ rw1 = None) by done.
    assert (Hopen1 : isClosed rw1 = false) by done.
    unfold RW_tryRead, RW_tryRead_uncached, Writer_isEmpty, Writer_invoke. munfold.
    repeat (first [rewrite Hch1 | rewrite Hpool | rewrite Hl1 | rewrite Hopen1
                  | rewrite push_pop by (apply coherent_empty || apply not_elem_of_nil)
                  | progress change (Actions.length (Actions.push (S (next w)) Actions.empty))
                      with 1
                  | progress cbn [Nat.eqb] ]; cbv beta iota).
    fold w2. unfold WirteAction_value. by rewrite Hacts. }
  rewrite Hrun. cbn [truthy IteratorResult.done IteratorResult.value].
  split; [reflexivity|].
  assert (Hclo : closures w2 !! next w = Some (WriteClosure (S (next w)) opts)).
  { subst w2 w1. destruct (signal opts); simpl; by rewrite lookup_insert_eq. }
  assert (Hp : promises (removeEventListener (signal opts) (next w) w2) !! next w
               = Some Pending).
  { subst w2 w1. destruct (signal opts); simpl; by rewrite lookup_insert_eq. }
  unfold WirteAction_invoke. rewrite Hacts. unfold WriteCallback_call. rewrite Hclo.
  unfold resolve.
  split; [by apply settle_pending|].
  rewrite chans_settle, chans_removeEventListener.
  subst w2 w1. unfold modify_writer.
  destruct (signal opts); simpl;
    (apply map_eq; intros k; destruct (decide (ch = k)) as [<-|Hne];
      [rewrite !lookup_alter_eq, Hch; simpl; f_equal;
       destruct rw as [l rr [wc wa] ic c]; simpl in *; by subst
      |by rewrite !lookup_alter_ne]).
Qed.

Lemma settle_keeps p q s s' w :
  promises w !! p = Some s → s ≠ Pending → promises (settle q s' w) !! p = Some s.
Proof.
  intros Hp Hs. unfold settle. destruct (promises w !! q) as [[| |]|] eqn:Hq; try done.
  simpl. destruct (decide (q = p)) as [->|Hne]; [congruence|by rewrite lookup_insert_ne].
Qed.

Lemma settle_frame p s w :
  chans (settle p s w) = chans w ∧ acts (settle p s w) = acts w ∧
  closures (settle p s w) = closures w.
Proof. unfold settle. by destruct (promises w !! p) as [[| |]|]. Qed.

(** A settled promise stays as it is whatever is settled next. *)
Lemma settle_unchanged p q s w :
  q ≠ p ∨ promises w !! p ≠ Some Pending →
  promises (settle q s w) !! p = promises w !! p.
Proof.
  intros Hor. unfold settle. destruct (promises w !! q) as [[| |]|] eqn:Hq; try done.
  simpl. destruct (decide (q = p)) as [->|Hne]; [|by rewrite lookup_insert_ne].
  destruct Hor; congruence.
Qed.

Lemma promises_removeEventListener sig p w :
  promises (removeEventListener sig p w) = promises w.
Proof. by destruct sig. Qed.

Lemma acts_removeEventListener sig p w : acts (removeEventListener sig p w) = acts w.
Proof. by destruct sig. Qed.

Lemma closures_removeEventListener sig p w :
  closures (removeEventListener sig p w) = closures w.
Proof. by destruct sig. Qed.

Section PlainWaiters.
Context (ch : nat).

Lemma Reader_close_loop_plain l fuel : ∀ i w,
  let s := Resolved (SRead end_of_stream_read) in
  Actions.actions (reader_actions ch w) = l → plain_reads s l w →
  let w' := Reader_close_loop fuel i ch w in
  chans w' = chans w ∧ acts w' = acts w ∧ closures w' = closures w ∧
  plain_reads s l w' ∧
  (∀ p, promises w !! p = Some s → promises w' !! p = Some s) ∧
  (∀ j a r p, i ≤ j < i + fuel → l !! j = Some a →
     acts w !! a = Some (ReadAction r (Some (ChanReadCb p))) →
     promises w' !! p = Some s).
Proof.
  induction fuel as [|fuel IH]; intros i w s Hl Hplain; simpl.
  { split_and!; try done. intros; lia. }
  rewrite Hl. destruct (l !! i) as [a|] eqn:Hi.
  2:{ split_and!; try done. intros j a r p Hj Hja. apply lookup_ge_None in Hi.
      apply lookup_lt_Some in Hja. lia. }
  destruct (Hplain a) as (r & p & act & opts & Ha & Hc & Hp);
    [by eapply list_elem_of_lookup_2|].
  set (ws := ReadAction_invoke a noResult w).
  assert (Hws : ws = settle p s (removeEventListener (signal opts) p w)).
  { subst ws. unfold ReadAction_invoke. rewrite Ha. unfold ReadCallback_call. by rewrite Hc. }
  assert (Hframe : chans ws = chans w ∧ acts ws = acts w ∧ closures ws = closures w).
  { rewrite Hws. destruct (settle_frame p s (removeEventListener (signal opts) p w))
      as (-> & -> & ->).
    by rewrite chans_removeEventListener, acts_removeEventListener,
      closures_removeEventListener. }
  destruct Hframe as (Hfc & Hfa & Hfcl).
  assert (Hset : promises w !! p = Some Pending → promises ws !! p = Some s).
  { intros Hq. rewrite Hws. apply settle_pending. by rewrite promises_removeEventListener. }
  assert (Hsame : ∀ q, p ≠ q ∨ promises w !! q ≠ Some Pending →
                       promises ws !! q = promises w !! q).
  { intros q Hq. rewrite Hws, settle_unchanged, promises_removeEventListener; [done|].
    by rewrite promises_removeEventListener. }
  assert (Hkeep : ∀ q, promises w !! q = Some s → promises ws !! q = Some s).
  { intros q Hq. rewrite Hsame; [done|]. right. rewrite Hq. by subst s. }
  assert (Hplain' : plain_reads s l ws).
  { intros a' Ha'. destruct (Hplain a' Ha') as (r' & p' & act' & opts' & ? & ? & Hp').
    exists r', p', act', opts'. rewrite Hfa, Hfcl. split_and!; [done|done|].
    destruct Hp' as [Hp'|Hp']; [|right; by apply Hkeep].
    destruct (decide (p = p')) as [<-|Hne]; [right; by apply Hset|].
    left. rewrite Hsame; [done|by left]. }
  assert (Hl' : Actions.actions (reader_actions ch ws) = l).
  { unfold reader_actions. by rewrite Hfc. }
  destruct (IH (S i) ws Hl' Hplain') as (Ic & Ia & Icl & Ipl & Ikeep & Idone).
  split_and!; [congruence|congruence|congruence|done|by auto|].
  intros j a' r' p' Hj Hja Haa'.
  destruct (decide (j = i)) as [->|Hne].
  - assert (a' = a) as -> by congruence. assert (p' = p) as -> by congruence.
    apply Ikeep. destruct Hp as [Hp|Hp]; [by apply Hset|by apply Hkeep].
  - eapply (Idone j a' r' p'); [lia|done|by rewrite Hfa].
Qed.

Lemma Writer_close_loop_plain l fuel : ∀ i w,
  Actions.actions (writer_actions ch w) = l → plain_writes l w →
  let w' := Writer_close_loop fuel i ch ChannelClosed w in
  chans w' = chans w ∧ acts w' = acts w ∧ closures w' = closures w ∧
  plain_writes l w' ∧
  (∀ p s, promises w !! p = Some s → s ≠ Pending → promises w' !! p = Some s) ∧
  (∀ j a x v p act opts, i ≤ j < i + fuel → l !! j = Some a →
     acts w !! a = Some (WirteAction x v (Some (ChanWriteCb p))) →
     closures w !! p = Some (WriteClosure act opts) →
     promises w' !! p = Some (closed_write_outcome opts)).
Proof.
  induction fuel as [|fuel IH]; intros i w Hl Hplain; simpl.
  { split_and!; try done. intros; lia. }
  rewrite Hl. destruct (l !! i) as [a|] eqn:Hi.
  2:{ split_and!; try done. intros j a x v p act opts Hj Hja. apply lookup_ge_None in Hi.
      apply lookup_lt_Some in Hja. lia. }
  destruct (Hplain a) as (x & v & p & act & opts & Ha & Hc & Hp);
    [by eapply list_elem_of_lookup_2|].
  set (ws := WirteAction_close a ChannelClosed w).
  assert (Hws : ws = settle p (closed_write_outcome opts)
                       (removeEventListener (signal opts) p w)).
  { subst ws. unfold WirteAction_close. rewrite Ha. unfold WriteCallback_call. rewrite Hc.
    unfold closed_write_outcome, resolve, reject. by destruct (silent opts). }
  assert (Hframe : chans ws = chans w ∧ acts ws = acts w ∧ closures ws = closures w).
  { rewrite Hws.
    destruct (settle_frame p (closed_write_outcome opts)
                (removeEventListener (signal opts) p w)) as (-> & -> & ->).
    by rewrite chans_removeEventListener, acts_removeEventListener,
      closures_removeEventListener. }
  destruct Hframe as (Hfc & Hfa & Hfcl).
  assert (Hset : promises w !! p = Some Pending →
                 promises ws !! p = Some (closed_write_outcome opts)).
  { intros Hq. rewrite Hws. apply settle_pending. by rewrite promises_removeEventListener. }
  assert (Hsame : ∀ q, p ≠ q ∨ promises w !! q ≠ Some Pending →
                       promises ws !! q = promises w !! q).
  { intros q Hq. rewrite Hws, settle_unchanged, promises_removeEventListener; [done|].
    by rewrite promises_removeEventListener. }
  assert (Hkeep : ∀ q s, promises w !! q = Some s → s ≠ Pending → promises ws !! q = Some s).
  { intros q s Hq Hs. rewrite Hsame; [done|]. right. congruence. }
  assert (Hnp : closed_write_outcome opts ≠ Pending).
  { unfold closed_write_outcome. by destruct (silent opts). }
  assert (Hplain' : plain_writes l ws).
  { intros a' Ha'.
    destruct (Hplain a' Ha') as (x' & v' & p' & act' & opts' & ? & Hc' & Hp').
    exists x', v', p', act', opts'. rewrite Hfa, Hfcl. split_and!; [done|done|].
    destruct (decide (p = p')) as [<-|Hne].
    - assert (opts' = opts) as -> by congruence.
      right. destruct Hp' as [Hp'|Hp']; [by apply Hset|by apply Hkeep].
    - rewrite Hsame; [done|by left]. }
  assert (Hl' : Actions.actions (writer_actions ch ws) = l).
  { unfold writer_actions. by rewrite Hfc. }
  destruct (IH (S i) ws Hl' Hplain') as (Ic & Ia & Icl & Ipl & Ikeep & Idone).
  split_and!; [congruence|congruence|congruence|done| |].
  { intros q s Hq Hs. apply Ikeep; [|done]. by apply Hkeep. }
  intros j a' x' v' p' act' opts' Hj Hja Haa' Hcc'.
  destruct (decide (j = i)) as [->|Hne].
  - assert (a' = a) as -> by congruence. assert (p' = p) as -> by congruence.
    assert (opts' = opts) as -> by congruence.
    apply Ikeep; [|done].
    destruct Hp as [Hp|Hp]; [by apply Hset|by apply Hkeep].
  - eapply (Idone j a' x' v' p' act' opts'); [lia|done|by rewrite Hfa|by rewrite Hfcl].
Qed.

End PlainWaiters.

Lemma settled_stay_refl w : settled_stay w w.
Proof. by intros p s. Qed.

Lemma settled_stay_trans w1 w2 w3 :
  settled_stay w1 w2 → settled_stay w2 w3 → settled_stay w1 w3.
Proof. intros H1 H2 p s Hp Hs. apply H2; [|done]. by apply H1. Qed.

Lemma settled_stay_same w w' : promises w' = promises w → settled_stay w w'.
Proof. intros E p s. by rewrite E. Qed.

Lemma settled_stay_settle q s w : settled_stay w (settle q s w).
Proof. intros p s' Hp Hs. by apply settle_keeps. Qed.

Lemma settled_stay_CaseCallback_call cb c hasError reason w :
  settled_stay w (CaseCallback_call cb c hasError reason w).
Proof.
  destruct cb as [p|tag]; simpl; [|by apply settled_stay_same].
  destruct (closures w !! p) as [[| |conns opts|]|]; try apply settled_stay_refl.
  assert (Hd : settled_stay w (disconnect_all conns (removeEventListener (signal opts) p w))).
  { apply settled_stay_same. destruct (disconnect_all_only conns
      (removeEventListener (signal opts) p w)) as (_ & -> & _).
    apply promises_removeEventListener. }
  unfold resolve, reject.
  destruct hasError; [destruct (silent opts)|];
    (eapply settled_stay_trans; [exact Hd|apply settled_stay_settle]).
Qed.

Lemma settled_stay_ReadCallback_call cb val w : settled_stay w (ReadCallback_call cb val w).
Proof.
  destruct cb as [p|c cb]; simpl.
  - destruct (closures w !! p) as [[a opts| | |]|]; try apply settled_stay_refl.
    unfold resolve. eapply settled_stay_trans; [|apply settled_stay_settle].
    apply settled_stay_same, promises_removeEventListener.
  - eapply settled_stay_trans; [|apply settled_stay_CaseCallback_call].
    by apply settled_stay_same.
Qed.

Lemma settled_stay_WriteCallback_call cb val reason w :
  settled_stay w (WriteCallback_call cb val reason w).
Proof.
  destruct cb as [p|c cb]; simpl.
  - destruct (closures w !! p) as [[|a opts| |]|]; try apply settled_stay_refl.
    unfold resolve, reject.
    destruct val; [|destruct (silent opts)];
      (eapply settled_stay_trans; [|apply settled_stay_settle]);
      apply settled_stay_same, promises_removeEventListener.
  - destruct val;
      (eapply settled_stay_trans; [|apply settled_stay_CaseCallback_call]);
      by apply settled_stay_same.
Qed.

Lemma settled_stay_ReadAction_invoke a val w : settled_stay w (ReadAction_invoke a val w).
Proof.
  unfold ReadAction_invoke. destruct (acts w !! a) as [[r [cb|]|]|];
    try apply settled_stay_refl. apply settled_stay_ReadCallback_call.
Qed.

Lemma settled_stay_WirteAction_invoke a w : settled_stay w (WirteAction_invoke a w).
Proof.
  unfold WirteAction_invoke. destruct (acts w !! a) as [[|x v [cb|]]|];
    try apply settled_stay_refl. apply settled_stay_WriteCallback_call.
Qed.

Lemma settled_stay_WirteAction_close a e w : settled_stay w (WirteAction_close a e w).
Proof.
  unfold WirteAction_close. destruct (acts w !! a) as [[|x v [cb|]]|];
    try apply settled_stay_refl. apply settled_stay_WriteCallback_call.
Qed.

Lemma settled_stay_Reader_close_loop fuel : ∀ i ch w,
  settled_stay w (Reader_close_loop fuel i ch w).
Proof.
  induction fuel as [|fuel IH]; intros i ch w; simpl; [apply settled_stay_refl|].
  destruct (_ !! i); [|apply settled_stay_refl].
  eapply settled_stay_trans; [apply settled_stay_ReadAction_invoke|apply IH].
Qed.

Lemma settled_stay_Writer_close_loop fuel : ∀ i ch e w,
  settled_stay w (Writer_close_loop fuel i ch e w).
Proof.
  induction fuel as [|fuel IH]; intros i ch e w; simpl; [apply settled_stay_refl|].
  destruct (_ !! i); [|apply settled_stay_refl].
  eapply settled_stay_trans; [apply settled_stay_WirteAction_close|apply IH].
Qed.

Local Ltac stay_step :=
  first
    [ apply framing_ret; exact settled_stay_refl
    | apply framing_throw; exact settled_stay_refl
    | apply framing_gets; exact settled_stay_refl
    | apply framing_get_rw; exact settled_stay_refl
    | apply framing_get_case; exact settled_stay_refl
    | apply (framing_bind _ settled_stay_trans) ].

Lemma stay_Reader_close ch : framing settled_stay (Reader_close ch).
Proof.
  unfold Reader_close. stay_step; [stay_step|]. intros rw.
  destruct (r_closed _); [stay_step|].
  stay_step; [apply framing_effect; intros; by apply settled_stay_same|]. intros _.
  destruct (_ =? 0); [stay_step|].
  stay_step; [apply framing_effect; intros; apply settled_stay_Reader_close_loop|].
  intros _. apply framing_effect; intros; by apply settled_stay_same.
Qed.

Lemma stay_Writer_close ch : framing settled_stay (Writer_close ch).
Proof.
  unfold Writer_close. stay_step; [stay_step|]. intros rw.
  destruct (w_closed_ _); [stay_step|].
  stay_step; [apply framing_effect; intros; by apply settled_stay_same|]. intros _.
  destruct (_ =? 0); [stay_step|].
  stay_step; [apply framing_effect; intros; apply settled_stay_Writer_close_loop|].
  intros _. apply framing_effect; intros; by apply settled_stay_same.
Qed.

Lemma bind_run {A B} (m : M A) (f : A → M B) w a w1 :
  m w = (Return a, w1) → (m ≫= f) w = f a w1.
Proof. intros Hm. unfold mbind, M_bind. by rewrite Hm. Qed.

Lemma get_rw_eq ch w rw : chans w !! ch = Some rw → get_rw ch w = (Return rw, w).
Proof. intros Hch. unfold get_rw. by rewrite Hch. Qed.

(** With no writer parked, [Writer.close] at most raises its flag. *)
Lemma Writer_close_idle ch w rw :
  chans w !! ch = Some rw → Actions.length (w_actions (w_ rw)) = 0 →
  ∃ w' rw', Writer_close ch w = (Return (), w') ∧
    acts w' = acts w ∧ closures w' = closures w ∧ promises w' = promises w ∧
    chans w' !! ch = Some rw' ∧ r_ rw' = r_ rw ∧ isClosed rw' = isClosed rw ∧
    closed_ rw' = closed_ rw ∧ list_ rw' = list_ rw ∧
    w_actions (w_ rw') = w_actions (w_ rw).
Proof.
  intros Hch Hn. unfold Writer_close. rewrite (bind_run _ _ _ _ _ (get_rw_eq _ _ _ Hch)).
  destruct (w_closed_ (w_ rw)).
  - exists w, rw. by split_and!.
  - rewrite (bind_run (effect _) _ _ _ _ eq_refl). rewrite Hn. cbn [Nat.eqb].
    eexists _, _. split; [reflexivity|]. simpl. rewrite lookup_alter_eq, Hch. simpl.
    by split_and!.
Qed.

Lemma Reader_close_idle ch w rw :
  chans w !! ch = Some rw → Actions.length (r_actions (r_ rw)) = 0 →
  ∃ w' rw', Reader_close ch w = (Return (), w') ∧
    acts w' = acts w ∧ closures w' = closures w ∧ promises w' = promises w ∧
    chans w' !! ch = Some rw' ∧ w_ rw' = w_ rw ∧ isClosed rw' = isClosed rw ∧
    closed_ rw' = closed_ rw ∧ list_ rw' = list_ rw ∧
    r_actions (r_ rw') = r_actions (r_ rw).
Proof.
  intros Hch Hn. unfold Reader_close. rewrite (bind_run _ _ _ _ _ (get_rw_eq _ _ _ Hch)).
  destruct (r_closed (r_ rw)).
  - exists w, rw. by split_and!.
  - rewrite (bind_run (effect _) _ _ _ _ eq_refl). rewrite Hn. cbn [Nat.eqb].
    eexists _, _. split; [reflexivity|]. simpl. rewrite lookup_alter_eq, Hch. simpl.
    by split_and!.
Qed.

(** [Reader.close] over waiters parked by [Chan.read]: each promise is
    resolved with the end-of-stream envelope and the pool is emptied. *)
Lemma Reader_close_plain ch w rw :
  let s := Resolved (SRead end_of_stream_read) in
  chans w !! ch = Some rw → r_closed (r_ rw) = false →
  plain_reads s (Actions.actions (r_actions (r_ rw))) w →
  ∃ w' rw', Reader_close ch w = (Return (), w') ∧
    (∀ a r p, a ∈ Actions.actions (r_actions (r_ rw)) →
       acts w !! a = Some (ReadAction r (Some (ChanReadCb p))) →
       promises w' !! p = Some s) ∧
    chans w' !! ch = Some rw' ∧ isClosed rw' = isClosed rw ∧ closed_ rw' = closed_ rw ∧
    Actions.length (r_actions (r_ rw')) = 0.
Proof.
  intros s Hch Hrc Hplain. unfold Reader_close.
  rewrite (bind_run _ _ _ _ _ (get_rw_eq _ _ _ Hch)). rewrite Hrc.
  rewrite (bind_run (effect _) _ _ _ _ eq_refl).
  set (flag := set_r_ (λ r, {| r_closed := true; r_actions := r_actions r |})).
  set (w0 := set_chans (alter flag ch) w).
  assert (Hch0 : chans w0 !! ch = Some (flag rw)).
  { subst w0. simpl. by rewrite lookup_alter_eq, Hch. }
  destruct (Nat.eqb_spec (Actions.length (r_actions (r_ rw))) 0) as [Hn|Hn].
  { exists w0, (flag rw). split; [done|]. split_and!; try done.
    intros a r p Ha. apply nil_length_inv in Hn. rewrite Hn in Ha.
    by apply elem_of_nil in Ha. }
  rewrite (bind_run (effect _) _ _ _ _ eq_refl).
  set (l := Actions.actions (r_actions (r_ rw))) in *.
  assert (Hl0 : Actions.actions (reader_actions ch w0) = l).
  { unfold reader_actions. by rewrite Hch0. }
  destruct (Reader_close_loop_plain ch l (Actions.length (r_actions (r_ rw))) 0 w0 Hl0)
    as (Hc & Ha & Hcl & _ & _ & Hdone); [exact Hplain|].
  eexists _, _. split; [reflexivity|]. split_and!.
  - intros a r p Hin Hact. apply list_elem_of_lookup in Hin as [j Hj].
    change (promises (Reader_close_loop (Actions.length (r_actions (r_ rw))) 0 ch w0) !! p
            = Some s).
    eapply (Hdone j a r p); [|done|done]. apply lookup_lt_Some in Hj.
    unfold Actions.length. fold l. lia.
  - simpl. rewrite lookup_alter_eq, Hc, Hch0. reflexivity.
  - done.
  - done.
  - done.
Qed.

Lemma RW_close_closed ch w rw :
  chans w !! ch = Some rw → isClosed rw = true → RW_close ch w = (Return false, w).
Proof.
  intros Hch Hcl. unfold RW_close. rewrite (bind_run _ _ _ _ _ (get_rw_eq _ _ _ Hch)).
  by rewrite Hcl.
Qed.

(** X13: on a channel that is open (neither the channel nor its reader
    carries the closed flag), with no parked writer, and whose reader pool
    holds only waiters parked by [read()] with their promises still
    pending, [close()] returns true and resolves the promise of every one
    of them with the end-of-stream envelope
    [{ closed: true, ok: false, value: null }]; afterwards the channel is
    closed, no reader is parked, and a second [close()] returns false and
    changes nothing. *)
Theorem close_ends_every_parked_read ch w rw :
  chans w !! ch = Some rw → isClosed rw = false → r_closed (r_ rw) = false →
  Actions.length (w_actions (w_ rw)) = 0 →
  (∀ a, a ∈ Actions.actions (r_actions (r_ rw)) → ∃ p, parked_by_read w a p) →
  ∃ w2 rw2, Chan_close ch w = (Return true, w2) ∧
    (∀ a p, a ∈ Actions.actions (r_actions (r_ rw)) → parked_by_read w a p →
       promises w2 !! p = Some (Resolved (SRead end_of_stream_read))) ∧
    chans w2 !! ch = Some rw2 ∧ isClosed rw2 = true ∧
    Actions.length (r_actions (r_ rw2)) = 0 ∧
    Chan_close ch w2 = (Return false, w2).
Proof.
  intros Hch Hopen Hrc Hnw Hparked. unfold Chan_close at 1, RW_close.
  rewrite (bind_run _ _ _ _ _ (get_rw_eq _ _ _ Hch)). rewrite Hopen.
  rewrite (bind_run (effect _) _ _ _ _ eq_refl).
  set (wa := set_chans (alter (set_isClosed true) ch) w).
  assert (Hcha : chans wa !! ch = Some (set_isClosed true rw)).
  { subst wa. simpl. by rewrite lookup_alter_eq, Hch. }
  destruct (Writer_close_idle ch wa _ Hcha Hnw)
    as (wb & rwb & Hwc & Hab & Hclb & Hpb & Hchb & Hrb & Hib & Hcb & _).
  rewrite (bind_run _ _ _ _ _ Hwc).
  assert (Hpool : Actions.actions (r_actions (r_ rwb)) = Actions.actions (r_actions (r_ rw)))
    by (by rewrite Hrb).
  destruct (Reader_close_plain ch wb rwb Hchb) as (wc & rwc & Hrcl & Hdone & Hchc & Hic & Hcc & Hlen).
  { by rewrite Hrb. }
  { rewrite Hpool. intros a Ha. destruct (Hparked a Ha) as (p & [r Hact] & (act & opts & Hclo) & Hp).
    exists r, p, act, opts. rewrite Hab, Hclb, Hpb. split_and!; [done|done|by left]. }
  rewrite (bind_run _ _ _ _ _ Hrcl).
  assert (Hres : ∀ a p, a ∈ Actions.actions (r_actions (r_ rw)) → parked_by_read w a p →
            promises wc !! p = Some (Resolved (SRead end_of_stream_read))).
  { intros a p Ha ([r Hact] & _ & _). apply (Hdone a r p); [by rewrite Hpool|].
    by rewrite Hab. }
  destruct (closed_ rw) as [c|]; cbv beta iota.
  - unfold mbind, M_bind, effect, mret, M_ret.
    eexists _, (set_closed_ None rwc). split; [reflexivity|]. split_and!.
    + intros a p Ha Hpa. unfold Completer_resolve, resolve. apply settle_keeps; [|done]. by eapply Hres.
    + unfold Completer_resolve, resolve. rewrite chans_settle. simpl. by rewrite lookup_alter_eq, Hchc.
    + simpl. by rewrite Hic, Hib.
    + done.
    + apply (RW_close_closed _ _ (set_closed_ None rwc)).
      * unfold Completer_resolve, resolve. rewrite chans_settle. simpl. by rewrite lookup_alter_eq, Hchc.
      * simpl. by rewrite Hic, Hib.
  - unfold mbind, M_bind, effect, mret, M_ret.
    exists wc, rwc. split; [reflexivity|]. split_and!; [done|done| |done|].
    + by rewrite Hic, Hib.
    + apply (RW_close_closed _ _ rwc); [done|]. by rewrite Hic, Hib.
Qed.

Lemma Writer_close_plain ch w rw :
  chans w !! ch = Some rw → w_closed_ (w_ rw) = false →
  plain_writes (Actions.actions (w_actions (w_ rw))) w →
  ∃ w' rw', Writer_close ch w = (Return (), w') ∧
    (∀ a x v p act opts, a ∈ Actions.actions (w_actions (w_ rw)) →
       acts w !! a = Some (WirteAction x v (Some (ChanWriteCb p))) →
       closures w !! p = Some (WriteClosure act opts) →
       promises w' !! p = Some (closed_write_outcome opts)) ∧
    chans w' !! ch = Some rw' ∧ isClosed rw' = isClosed rw ∧ closed_ rw' = closed_ rw ∧
    Actions.length (w_actions (w_ rw')) = 0 ∧ r_ rw' = r_ rw.
Proof.
  intros Hch Hrc Hplain. unfold Writer_close.
  rewrite (bind_run _ _ _ _ _ (get_rw_eq _ _ _ Hch)). rewrite Hrc.
  rewrite (bind_run (effect _) _ _ _ _ eq_refl).
  set (flag := set_w_ (λ x, {| w_closed_ := true; w_actions := w_actions x |})).
  set (w0 := set_chans (alter flag ch) w).
  assert (Hch0 : chans w0 !! ch = Some (flag rw)).
  { subst w0. simpl. by rewrite lookup_alter_eq, Hch. }
  destruct (Nat.eqb_spec (Actions.length (w_actions (w_ rw))) 0) as [Hn|Hn].
  { exists w0, (flag rw). split; [done|]. split_and!; try done.
    intros a x v p act opts Ha. apply nil_length_inv in Hn. rewrite Hn in Ha.
    by apply elem_of_nil in Ha. }
  rewrite (bind_run (effect _) _ _ _ _ eq_refl).
  set (l := Actions.actions (w_actions (w_ rw))) in *.
  assert (Hl0 : Actions.actions (writer_actions ch w0) = l).
  { unfold writer_actions. by rewrite Hch0. }
  destruct (Writer_close_loop_plain ch l (Actions.length (w_actions (w_ rw))) 0 w0 Hl0)
    as (Hc & Ha & Hcl & _ & _ & Hdone); [exact Hplain|].
  eexists _, _. split; [reflexivity|]. split_and!.
  - intros a x v p act opts Hin Hact Hclo. apply list_elem_of_lookup in Hin as [j Hj].
    change (promises (Writer_close_loop (Actions.length (w_actions (w_ rw))) 0 ch
                        ChannelClosed w0) !! p = Some (closed_write_outcome opts)).
    eapply (Hdone j a x v p act opts); [|done|done|done]. apply lookup_lt_Some in Hj.
    unfold Actions.length. fold l. lia.
  - simpl. rewrite lookup_alter_eq, Hc, Hch0. reflexivity.
  - done.
  - done.
  - done.
  - done.
Qed.

Lemma Reader_close_returns ch w rw :
  chans w !! ch = Some rw → ∃ w', Reader_close ch w = (Return (), w').
Proof.
  intros Hch. unfold Reader_close. rewrite (bind_run _ _ _ _ _ (get_rw_eq _ _ _ Hch)).
  destruct (r_closed _); [by eexists|]. rewrite (bind_run (effect _) _ _ _ _ eq_refl).
  destruct (_ =? 0); [by eexists|]. rewrite (bind_run (effect _) _ _ _ _ eq_refl).
  by eexists.
Qed.

Lemma closed_write_outcome_settled opts : closed_write_outcome opts ≠ Pending.
Proof. unfold closed_write_outcome. by destruct (silent opts). Qed.

(** X14: on a channel that is open (neither the channel nor its writer
    carries the closed flag), with no parked reader, and whose writer pool
    holds only waiters parked by [write()] with their promises still
    pending, [close()] returns true and settles the promise of every one of
    them: rejected with the "channel already closed" error, or, for a
    silent write, resolved with [{ ok: false, error: true, reason }]
    carrying that error; afterwards the channel is closed, no writer is
    parked, and a second [close()] returns false and changes nothing. *)
Theorem close_fails_every_parked_write ch w rw :
  chans w !! ch = Some rw → isClosed rw = false → w_closed_ (w_ rw) = false →
  Actions.length (r_actions (r_ rw)) = 0 →
  (∀ a, a ∈ Actions.actions (w_actions (w_ rw)) → ∃ p opts, parked_by_write w a p opts) →
  ∃ w2 rw2, Chan_close ch w = (Return true, w2) ∧
    (∀ a p opts, a ∈ Actions.actions (w_actions (w_ rw)) → parked_by_write w a p opts →
       promises w2 !! p = Some (closed_write_outcome opts)) ∧
    chans w2 !! ch = Some rw2 ∧ isClosed rw2 = true ∧
    Actions.length (w_actions (w_ rw2)) = 0 ∧
    Chan_close ch w2 = (Return false, w2).
Proof.
  intros Hch Hopen Hwc Hnr Hparked. unfold Chan_close at 1, RW_close.
  rewrite (bind_run _ _ _ _ _ (get_rw_eq _ _ _ Hch)). rewrite Hopen.
  rewrite (bind_run (effect _) _ _ _ _ eq_refl).
  set (wa := set_chans (alter (set_isClosed true) ch) w).
  assert (Hcha : chans wa !! ch = Some (set_isClosed true rw)).
  { subst wa. simpl. by rewrite lookup_alter_eq, Hch. }
  destruct (Writer_close_plain ch wa _ Hcha Hwc)
    as (wb & rwb & Hwcl & Hdone & Hchb & Hib & Hcb & Hlenb & Hrb).
  { intros a Ha.
    destruct (Hparked a Ha) as (p & opts & (x & v & Hact) & (act & Hclo) & Hp).
    exists x, v, p, act, opts. split_and!; [done|done|by left]. }
  rewrite (bind_run _ _ _ _ _ Hwcl).
  destruct (Reader_close_idle ch wb rwb Hchb)
    as (wc & rwc & Hrcl & Hac & Hclc & Hpc & Hchc & Hwsame & Hic & Hcc & _);
    [by rewrite Hrb|].
  rewrite (bind_run _ _ _ _ _ Hrcl).
  assert (Hres : ∀ a p opts, a ∈ Actions.actions (w_actions (w_ rw)) →
            parked_by_write w a p opts → promises wc !! p = Some (closed_write_outcome opts)).
  { intros a p opts Ha ((x & v & Hact) & (act & Hclo) & _). rewrite Hpc. by eapply Hdone. }
  destruct (closed_ rw) as [c|]; cbv beta iota.
  - unfold mbind, M_bind, effect, mret, M_ret.
    eexists _, (set_closed_ None rwc). split; [reflexivity|]. split_and!.
    + intros a p opts Ha Hpa. unfold Completer_resolve, resolve.
      apply settle_keeps; [|apply closed_write_outcome_settled]. by eapply Hres.
    + unfold Completer_resolve, resolve. rewrite chans_settle. simpl.
      by rewrite lookup_alter_eq, Hchc.
    + simpl. by rewrite Hic, Hib.
    + simpl. by rewrite Hwsame.
    + apply (RW_close_closed _ _ (set_closed_ None rwc)).
      * unfold Completer_resolve, resolve. rewrite chans_settle. simpl.
        by rewrite lookup_alter_eq, Hchc.
      * simpl. by rewrite Hic, Hib.
  - unfold mbind, M_bind, effect, mret, M_ret.
    exists wc, rwc. split; [reflexivity|]. split_and!; [done|done| | |].
    + by rewrite Hic, Hib.
    + by rewrite Hwsame.
    + apply (RW_close_closed _ _ rwc); [done|]. by rewrite Hic, Hib.
Qed.

Lemma RW_wait_closed ch w rw :
  chans w !! ch = Some rw → isClosed rw = true → RW_wait ch w = (Return None, w).
Proof.
  intros Hch Hcl. unfold RW_wait. rewrite (bind_run _ _ _ _ _ (get_rw_eq _ _ _ Hch)).
  by rewrite Hcl.
Qed.

(** X17: on an open channel on which nobody is parked and no [wait()] is
    outstanding, [wait()] returns a fresh pending promise, that of a new
    [Completer]; a second [wait()] returns the same promise; [close()] then
    returns true and resolves it with [null]; afterwards [wait()] returns
    [null].  ([Completer] is not among the sources: it is modelled from the
    spec, see [new_Completer].) *)
Theorem wait_is_resolved_by_close ch w rw :
  chans w !! ch = Some rw → isClosed rw = false → closed_ rw = None →
  Actions.length (r_actions (r_ rw)) = 0 → Actions.length (w_actions (w_ rw)) = 0 →
  ∃ w1 w2,
    Chan_wait ch w = (Return (Some (next w)), w1) ∧
    promises w1 !! next w = Some Pending ∧
    Chan_wait ch w1 = (Return (Some (next w)), w1) ∧
    Chan_close ch w1 = (Return true, w2) ∧
    promises w2 !! next w = Some (Resolved SNull) ∧
    Chan_wait ch w2 = (Return None, w2).
Proof.
  intros Hch Hopen Hnone Hr Hw. unfold Chan_wait at 1, RW_wait.
  rewrite (bind_run _ _ _ _ _ (get_rw_eq _ _ _ Hch)). rewrite Hopen, Hnone.
  unfold new_Completer. rewrite (bind_run _ _ _ _ _ (new_Promise_eq w)).
  rewrite (bind_run (effect _) _ _ _ _ eq_refl).
  set (w1 := set_chans (alter (set_closed_ (Some (next w))) ch)
               (set_promises <[next w := Pending]> (set_next S w))).
  set (rw1 := set_closed_ (Some (next w)) rw).
  assert (Hch1 : chans w1 !! ch = Some rw1).
  { subst w1. simpl. by rewrite lookup_alter_eq, Hch. }
  assert (Hp1 : promises w1 !! next w = Some Pending).
  { subst w1. simpl. by rewrite lookup_insert_eq. }
  clearbody w1.
  assert (Hwait1 : Chan_wait ch w1 = (Return (Some (next w)), w1)).
  { unfold Chan_wait, RW_wait. rewrite (bind_run _ _ _ _ _ (get_rw_eq _ _ _ Hch1)).
    by replace (isClosed rw1) with false by done. }
  assert (Hclose : ∃ w2 rw2, Chan_close ch w1 = (Return true, w2) ∧
            promises w2 !! next w = Some (Resolved SNull) ∧
            chans w2 !! ch = Some rw2 ∧ isClosed rw2 = true).
  { unfold Chan_close, RW_close. rewrite (bind_run _ _ _ _ _ (get_rw_eq _ _ _ Hch1)).
    replace (isClosed rw1) with false by done.
    rewrite (bind_run (effect _) _ _ _ _ eq_refl).
    set (wa := set_chans (alter (set_isClosed true) ch) w1).
    assert (Hcha : chans wa !! ch = Some (set_isClosed true rw1)).
    { subst wa. simpl. by rewrite lookup_alter_eq, Hch1. }
    destruct (Writer_close_idle ch wa _ Hcha Hw)
      as (wb & rwb & Hwc & Hab & Hclb & Hpb & Hchb & Hrb & Hib & Hcb & _).
    rewrite (bind_run _ _ _ _ _ Hwc).
    destruct (Reader_close_idle ch wb rwb Hchb)
      as (wc & rwc & Hrc & Hac & Hclc & Hpc & Hchc & _ & Hic & _); [by rewrite Hrb|].
    rewrite (bind_run _ _ _ _ _ Hrc).
    replace (closed_ rw1) with (Some (next w)) by done. cbv beta iota.
    unfold mbind, M_bind, effect, mret, M_ret.
    eexists _, (set_closed_ None rwc). split; [reflexivity|]. split_and!.
    - unfold Completer_resolve, resolve. apply settle_pending. simpl. by rewrite Hpc, Hpb.
    - unfold Completer_resolve, resolve. rewrite chans_settle. simpl. by rewrite lookup_alter_eq, Hchc.
    - simpl. by rewrite Hic, Hib. }
  destruct Hclose as (w2 & rw2 & Hclose & Hp2 & Hch2 & Hcl2).
  exists w1, w2. split_and!; try done.
  by apply (RW_wait_closed ch w2 rw2).
Qed.

(** One round of the [values()] iterator over a closed channel: the head
    of the buffer is yielded. *)
Lemma values_next_buffered ch opts st w rw ring v rest :
  st = GenStart ∨ (∃ r, st = GenYield r) →
  signal_aborted (signal opts) w = false →
  chans w !! ch = Some rw → list_ rw = Some ring → Ring.wf ring →
  Ring.contents ring = v :: rest → Actions.length (w_actions (w_ rw)) = 0 →
  ∃ ring', Ring.wf ring' ∧ Ring.contents ring' = rest ∧
    values_next ch opts st w =
      (Yielded (value_read v), GenStart,
       set_chans <[ch := set_list_ (λ _, Some ring') rw]> w).
Proof.
  intros Hst Ha Hch Hl Hwf Hc Hw.
  destruct (RW_tryRead_buffered ch w rw ring v rest Hch Hl Hwf Hc)
    as (w' & rw' & ring' & Hrun & _ & _ & Hwf' & _ & Hidle & _).
  destruct (Hidle Hw) as [Hrest ->].
  exists ring'. split_and!; [done|done|].
  assert (Hread : Chan_read ch opts w =
            (Return (inl (value_read v)), set_chans <[ch := set_list_ (λ _, Some ring') rw]> w)).
  { unfold Chan_read, Chan_tryRead.
    unfold mbind at 1, M_bind at 1. unfold mbind at 1, M_bind at 1, gets at 1. rewrite Ha.
    unfold mbind at 1, M_bind at 1. rewrite Hrun. reflexivity. }
  unfold values_next. destruct Hst as [->|[r ->]]; by rewrite Hread.
Qed.

Lemma values_next_closed_drained ch opts st w rw :
  st = GenStart ∨ (∃ r, st = GenYield r) →
  signal_aborted (signal opts) w = false →
  chans w !! ch = Some rw → isClosed rw = true → RW_length rw = 0 →
  values_next ch opts st w = (Finished, GenDone, w).
Proof.
  intros Hst Ha Hch Hcl Hlen.
  assert (Hu : RW_tryRead_uncached ch w = (Return None, w)).
  { unfold RW_tryRead_uncached. rewrite (bind_run _ _ _ _ _ (get_rw_eq _ _ _ Hch)).
    by rewrite Hcl. }
  assert (Hrun : RW_tryRead ch w = (Return None, w)).
  { unfold RW_tryRead. rewrite (bind_run _ _ _ _ _ (get_rw_eq _ _ _ Hch)).
    unfold RW_length in Hlen. destruct (list_ rw) as [ring|] eqn:Hl; [|done].
    by rewrite (bind_run _ _ _ _ _ (list_pop_empty ch w rw ring Hch Hl Hlen)). }
  assert (Hread : Chan_read ch opts w = (Return (inl end_of_stream_read), w)).
  { unfold Chan_read, Chan_tryRead.
    unfold mbind at 1, M_bind at 1. unfold mbind at 1, M_bind at 1, gets at 1. rewrite Ha.
    unfold mbind at 1, M_bind at 1. rewrite Hrun. reflexivity. }
  unfold values_next. destruct Hst as [->|[r ->]]; by rewrite Hread.
Qed.

(** X18: the iterator of [values()] over a closed channel with no parked
    writer yields every buffered value, oldest first, each as
    [{ closed: false, ok: true, value }], and then completes; one call of
    [next] per value and one more are enough. *)
Theorem values_iterator_drains_a_closed_channel ch opts w rw ring fuel :
  signal_aborted (signal opts) w = false →
  chans w !! ch = Some rw → isClosed rw = true → list_ rw = Some ring → Ring.wf ring →
  Actions.length (w_actions (w_ rw)) = 0 →
  length (Ring.contents ring) < fuel →
  ∃ w', for_await (values_next ch opts) fuel GenStart w
        = (map value_read (Ring.contents ring), Completed, w').
Proof.
  intros Ha Hch Hcl Hl Hwf Hw.
  remember (Ring.contents ring) as vs eqn:Hvs.
  revert fuel w rw ring Ha Hch Hcl Hl Hwf Hw Hvs.
  induction vs as [|v vs IH]; intros fuel w rw ring Ha Hch Hcl Hl Hwf Hw Hvs Hfuel.
  - destruct fuel as [|fuel]; [simpl in Hfuel; lia|]. cbn [for_await].
    rewrite (values_next_closed_drained ch opts GenStart w rw); [by eexists|by left|done..|].
    unfold RW_length. rewrite Hl. unfold Ring.length. by rewrite <- contents_length, <- Hvs.
  - destruct fuel as [|fuel]; [simpl in Hfuel; lia|]. simpl in Hfuel.
    cbn [for_await].
    destruct (values_next_buffered ch opts GenStart w rw ring v vs)
      as (ring' & Hwf' & Hc' & ->); [by left|done..|].
    set (w1 := set_chans <[ch := set_list_ (λ _, Some ring') rw]> w).
    destruct (IH fuel w1 (set_list_ (λ _, Some ring') rw) ring') as (w' & ->);
      [done|subst w1; simpl; by rewrite lookup_insert_eq|done|done|done|done|done|lia|].
    by eexists.
Qed.

(** X19: under a signal that has already aborted, the loop over
    [values(opts)] raises the signal's reason at once; in silent mode it
    never ends instead: every round yields the envelope
    [{ closed: null, ok: false, reason }], whose [closed] does not stop the
    loop. *)
Theorem values_iterator_under_an_aborted_signal ch opts w fuel :
  signal_aborted (signal opts) w = true →
  for_await (values_next ch opts) (S fuel) GenStart w =
    if silent opts
    then (replicate (S fuel)
            {| ReadValue.closed := None; ReadValue.reason := signal_reason (signal opts) w;
               ReadValue.ok := false; ReadValue.value := VNull |}, OutOfFuel, w)
    else ([], Raised (signal_reason (signal opts) w), w).
Proof.
  intros Ha.
  assert (Hread : Chan_read ch opts w =
    (if silent opts
     then Return (inl {| ReadValue.closed := None;
                         ReadValue.reason := signal_reason (signal opts) w;
                         ReadValue.ok := false; ReadValue.value := VNull |})
     else Throw (signal_reason (signal opts) w), w)).
  { unfold Chan_read, Chan_tryRead. munfold. rewrite Ha. by destruct (silent opts). }
  destruct (silent opts) eqn:Hs.
  - assert (Hloop : ∀ n, for_await (values_next ch opts) n GenStart w =
              (replicate n {| ReadValue.closed := None;
                              ReadValue.reason := signal_reason (signal opts) w;
                              ReadValue.ok := false; ReadValue.value := VNull |},
               OutOfFuel, w)).
    { induction n as [|n IH]; [done|]. cbn [for_await]. unfold values_next at 1.
      rewrite Hread. cbn. by rewrite IH. }
    apply Hloop.
  - cbn [for_await]. unfold values_next. by rewrite Hread.
Qed.

Lemma values_iterator_under_an_aborted_signal_witness :
  for_await (values_next 0 {| signal := Some 1; silent := true |}) 3 GenStart
    ready_and_aborted =
    (replicate 3 {| ReadValue.closed := None; ReadValue.reason := VStr "stopped";
                    ReadValue.ok := false; ReadValue.value := VNull |},
     OutOfFuel, ready_and_aborted).
Proof.
  apply (values_iterator_under_an_aborted_signal 0 {| signal := Some 1; silent := true |}
           ready_and_aborted 2).
  vm_compute. reflexivity.
Defined.

Lemma aborted_signal_stops_every_operation_witness :
  Chan_tryRead 0 {| signal := Some 1; silent := true |} ready_and_aborted =
    (Return {| ReadValue.closed := None; ReadValue.reason := VStr "stopped";
               ReadValue.ok := false; ReadValue.value := VNull |}, ready_and_aborted) ∧
  Chan_write 0 (VNum 5) {| signal := Some 1; silent := false |} ready_and_aborted =
    (Throw (VStr "stopped"), ready_and_aborted).
Proof.
  split.
  - apply (aborted_signal_stops_every_operation 0 (VNum 5)
             {| signal := Some 1; silent := true |} ready_and_aborted).
    vm_compute. reflexivity.
  - apply (aborted_signal_stops_every_operation 0 (VNum 5)
             {| signal := Some 1; silent := false |} ready_and_aborted).
    vm_compute. reflexivity.
Defined.

Lemma read_then_tryWrite_hands_the_value_over_witness :
  ∃ w1 w2,
    Chan_read 0 no_options idle_chan = (Return (inr 1), w1) ∧
    promises w1 !! 1 = Some Pending ∧
    Chan_tryWrite 0 (VNum 7) no_options w1 = (Return ok_written, w2) ∧
    promises w2 !! 1 = Some (Resolved (SRead (value_read (VNum 7)))) ∧
    chans w2 = chans idle_chan.
Proof.
  apply (read_then_tryWrite_hands_the_value_over 0 no_options (VNum 7) idle_chan
           (RW_create 0)); reflexivity.
Defined.

Lemma write_then_tryRead_hands_the_value_over_witness :
  ∃ w1 w2,
    Chan_write 0 (VNum 7) no_options idle_chan = (Return (inr 1), w1) ∧
    promises w1 !! 1 = Some Pending ∧
    Chan_tryRead 0 no_options w1 = (Return (value_read (VNum 7)), w2) ∧
    promises w2 !! 1 = Some (Resolved (SWrite ok_written)) ∧
    chans w2 = chans idle_chan.
Proof.
  apply (write_then_tryRead_hands_the_value_over 0 no_options (VNum 7) idle_chan
           (RW_create 0)); reflexivity.
Defined.

Lemma close_ends_every_parked_read_witness :
  ∃ w2, Chan_close 0 two_parked_reads = (Return true, w2) ∧
    promises w2 !! 1 = Some (Resolved (SRead end_of_stream_read)) ∧
    promises w2 !! 3 = Some (Resolved (SRead end_of_stream_read)).
Proof.
  pose (rw := default (RW_create 0) (chans two_parked_reads !! 0)).
  assert (Hch : chans two_parked_reads !! 0 = Some rw) by (vm_compute; reflexivity).
  assert (Hpool : Actions.actions (r_actions (r_ rw)) = [2; 4]) by (vm_compute; reflexivity).
  assert (H1 : parked_by_read two_parked_reads 2 1).
  { split_and!; [exists (Some 0)|exists 2, no_options|]; vm_compute; reflexivity. }
  assert (H3 : parked_by_read two_parked_reads 4 3).
  { split_and!; [exists (Some 0)|exists 4, {| signal := None; silent := true |}|];
      vm_compute; reflexivity. }
  destruct (close_ends_every_parked_read 0 two_parked_reads rw Hch)
    as (w2 & rw2 & Hclose & Hres & _); [vm_compute; reflexivity..| |].
  { rewrite Hpool. intros a [->|Ha%list_elem_of_singleton]%elem_of_cons;
      [by exists 1|subst a; by exists 3]. }
  exists w2. split; [exact Hclose|]. split.
  - apply (Hres 2 1); [rewrite Hpool; apply list_elem_of_here|exact H1].
  - apply (Hres 4 3); [rewrite Hpool; apply list_elem_of_further, list_elem_of_here|exact H3].
Defined.

Lemma close_fails_every_parked_write_witness :
  ∃ w2, Chan_close 0 two_parked_writes = (Return true, w2) ∧
    promises w2 !! 1 = Some (Rejected ChannelClosed) ∧
    promises w2 !! 3 =
      Some (Resolved (SWrite {| WriteValue.ok := Some false; WriteValue.error := Some true;
                                WriteValue.reason := ChannelClosed |})).
Proof.
  pose (rw := default (RW_create 0) (chans two_parked_writes !! 0)).
  assert (Hch : chans two_parked_writes !! 0 = Some rw) by (vm_compute; reflexivity).
  assert (Hpool : Actions.actions (w_actions (w_ rw)) = [2; 4]) by (vm_compute; reflexivity).
  assert (H1 : parked_by_write two_parked_writes 2 1 no_options).
  { split_and!; [exists (Some 0), (VNum 1)|exists 2|]; vm_compute; reflexivity. }
  assert (H3 : parked_by_write two_parked_writes 4 3 {| signal := None; silent := true |}).
  { split_and!; [exists (Some 0), (VNum 2)|exists 4|]; vm_compute; reflexivity. }
  destruct (close_fails_every_parked_write 0 two_parked_writes rw Hch)
    as (w2 & rw2 & Hclose & Hres & _); [vm_compute; reflexivity..| |].
  { rewrite Hpool. intros a [->|Ha%list_elem_of_singleton]%elem_of_cons;
      [by exists 1, no_options|subst a; by exists 3, {| signal := None; silent := true |}]. }
  exists w2. split; [exact Hclose|]. split.
  - apply (Hres 2 1 no_options); [rewrite Hpool; apply list_elem_of_here|exact H1].
  - apply (Hres 4 3 {| signal := None; silent := true |});
      [rewrite Hpool; apply list_elem_of_further, list_elem_of_here|exact H3].
Defined.

Lemma wait_is_resolved_by_close_witness :
  ∃ w1 w2,
    Chan_wait 0 idle_chan = (Return (Some 1), w1) ∧
    promises w1 !! 1 = Some Pending ∧
    Chan_wait 0 w1 = (Return (Some 1), w1) ∧
    Chan_close 0 w1 = (Return true, w2) ∧
    promises w2 !! 1 = Some (Resolved SNull) ∧
    Chan_wait 0 w2 = (Return None, w2).
Proof.
  apply (wait_is_resolved_by_close 0 idle_chan (RW_create 0)); reflexivity.
Defined.

Lemma values_iterator_drains_a_closed_channel_witness :
  ∃ w', for_await (values_next 0 no_options) 4 GenStart closed_with_three
        = (map value_read [VNum 10; VNum 20; VNum 30], Completed, w').
Proof.
  pose (rw := default (RW_create 0) (chans closed_with_three !! 0)).
  pose (ring := default (Ring.create 0) (list_ rw)).
  assert (Hch : chans closed_with_three !! 0 = Some rw) by (vm_compute; reflexivity).
  assert (Hl : list_ rw = Some ring) by (vm_compute; reflexivity).
  assert (Hc : Ring.contents ring = [VNum 10; VNum 20; VNum 30]) by (vm_compute; reflexivity).
  rewrite <- Hc.
  apply (values_iterator_drains_a_closed_channel 0 no_options closed_with_three rw ring 4);
    [reflexivity|exact Hch|vm_compute; reflexivity|exact Hl| |vm_compute; reflexivity|].
  - split; vm_compute; lia.
  - rewrite Hc. simpl. lia.
Defined.

Lemma rw_ages_refl rw : rw_ages rw rw.
Proof. by split. Qed.

Lemma rw_ages_trans rw1 rw2 rw3 : rw_ages rw1 rw2 → rw_ages rw2 rw3 → rw_ages rw1 rw3.
Proof. intros [H1 E1] [H2 E2]. split; [auto|congruence]. Qed.

Lemma ages_refl w : ages w w.
Proof.
  split_and!; [done| |apply settled_stay_refl]. intros ch rw Hch. exists rw.
  split; [done|apply rw_ages_refl].
Qed.

Lemma ages_trans w1 w2 w3 : ages w1 w2 → ages w2 w3 → ages w1 w3.
Proof.
  intros (Hn1 & Hc1 & Hs1) (Hn2 & Hc2 & Hs2). split_and!; [lia| |by eapply settled_stay_trans].
  intros ch rw Hch. destruct (Hc1 ch rw Hch) as (rw2 & Hch2 & Ha2).
  destruct (Hc2 ch rw2 Hch2) as (rw3 & Hch3 & Ha3). exists rw3.
  split; [done|by eapply rw_ages_trans].
Qed.

Lemma orderly_refl w : orderly w w.
Proof. intros Hok. split; [done|apply ages_refl]. Qed.

Lemma orderly_trans w1 w2 w3 : orderly w1 w2 → orderly w2 w3 → orderly w1 w3.
Proof.
  intros H1 H2 Hok. destruct (H1 Hok) as [Hok2 Ha2]. destruct (H2 Hok2) as [Hok3 Ha3].
  split; [done|by eapply ages_trans].
Qed.

(** A step that leaves channels, promises and [next] alone. *)
Lemma orderly_same w w' :
  chans w' = chans w → promises w' = promises w → next w' = next w → orderly w w'.
Proof.
  intros Hc Hp Hn [Hch Hpr]. split.
  - split.
    + intros ch rw. rewrite Hc, Hn. apply Hch.
    + intros p s. rewrite Hp, Hn. apply Hpr.
  - split_and!; [lia| |by apply settled_stay_same].
    intros ch rw Hrw. exists rw. rewrite Hc. split; [done|apply rw_ages_refl].
Qed.

(** A step that changes one channel in place. *)
Lemma orderly_alter f ch w :
  (∀ rw, chans w !! ch = Some rw → chan_ok (next w) rw →
         chan_ok (next w) (f rw) ∧ rw_ages rw (f rw)) →
  orderly w (set_chans (alter f ch) w).
Proof.
  intros Hf [Hch Hpr]. split.
  - split; [|done]. intros k rw. simpl. destruct (decide (ch = k)) as [<-|Hne].
    + rewrite lookup_alter_eq. destruct (chans w !! ch) as [rw0|] eqn:Hrw0; [|done].
      simpl. intros [= <-]. destruct (Hch ch rw0 Hrw0) as [Hlt Hok0].
      split; [done|]. by apply Hf.
    + rewrite lookup_alter_ne by done. apply Hch.
  - split_and!; [done| |by apply settled_stay_same].
    intros k rw Hrw. simpl. destruct (decide (ch = k)) as [<-|Hne].
    + rewrite lookup_alter_eq, Hrw. simpl. exists (f rw). split; [done|].
      apply Hf; [done|]. by apply (Hch ch rw).
    + rewrite lookup_alter_ne by done. exists rw. split; [done|apply rw_ages_refl].
Qed.

(** A step that stores a new state of a channel that exists. *)
Lemma orderly_insert ch rw rw' w :
  chans w !! ch = Some rw → (chan_ok (next w) rw → chan_ok (next w) rw' ∧ rw_ages rw rw') →
  orderly w (set_chans <[ch := rw']> w).
Proof.
  intros Hrw Hf [Hch Hpr]. destruct (Hch ch rw Hrw) as [Hlt Hok0].
  destruct (Hf Hok0) as [Hok' Hage]. split.
  - split; [|done]. intros k rwk. simpl. destruct (decide (ch = k)) as [<-|Hne].
    + rewrite lookup_insert_eq. by intros [= <-].
    + rewrite lookup_insert_ne by done. apply Hch.
  - split_and!; [done| |by apply settled_stay_same].
    intros k rwk Hk. simpl. destruct (decide (ch = k)) as [<-|Hne].
    + rewrite lookup_insert_eq. exists rw'. split; [done|]. congruence.
    + rewrite lookup_insert_ne by done. exists rwk. split; [done|apply rw_ages_refl].
Qed.

Lemma orderly_settle p s w : orderly w (settle p s w).
Proof.
  intros [Hch Hpr]. split.
  - split.
    + intros ch rw. rewrite chans_settle.
      replace (next (settle p s w)) with (next w); [apply Hch|].
      unfold settle. by destruct (promises w !! p) as [[| |]|].
    + intros q sq. unfold settle. destruct (promises w !! p) as [[| |]|] eqn:Hp;
        try apply Hpr. simpl. destruct (decide (p = q)) as [<-|Hne].
      * intros _. by eapply Hpr.
      * rewrite lookup_insert_ne by done. apply Hpr.
  - split_and!.
    + unfold settle. by destruct (promises w !! p) as [[| |]|].
    + intros ch rw Hrw. exists rw. rewrite chans_settle. split; [done|apply rw_ages_refl].
    + apply settled_stay_settle.
Qed.

Lemma orderly_removeEventListener sig p w : orderly w (removeEventListener sig p w).
Proof. apply orderly_same; by destruct sig. Qed.

Lemma orderly_addEventListener sig p w : orderly w (addEventListener sig p w).
Proof. apply orderly_same; by destruct sig. Qed.

(** Taking waiters out of a pool keeps a channel in good order. *)
Lemma chan_ok_readers n rw rest :
  chan_ok n rw → Actions.coherent rest →
  Actions.actions rest ⊆ Actions.actions (r_actions (r_ rw)) →
  chan_ok n (set_r_ (set_r_actions (λ _, rest)) rw) ∧
  rw_ages rw (set_r_ (set_r_actions (λ _, rest)) rw).
Proof.
  intros (Hring & Hr & Hw & Hrn & Hwn) Hc Hsub. split; [|by split].
  split_and!; simpl; try done. intros a Ha. by apply Hrn, Hsub.
Qed.

Lemma chan_ok_writers n rw rest :
  chan_ok n rw → Actions.coherent rest →
  Actions.actions rest ⊆ Actions.actions (w_actions (w_ rw)) →
  chan_ok n (set_w_ (set_w_actions (λ _, rest)) rw) ∧
  rw_ages rw (set_w_ (set_w_actions (λ _, rest)) rw).
Proof.
  intros (Hring & Hr & Hw & Hrn & Hwn) Hc Hsub. split; [|by split].
  split_and!; simpl; try done. intros a Ha. by apply Hwn, Hsub.
Qed.

Lemma orderly_Reader_disconnect ch a w : orderly w (Reader_disconnect ch a w).
Proof.
  unfold Reader_disconnect, modify_reader. apply orderly_alter. intros rw _ Hok.
  destruct (chan_ok_readers _ rw (Actions.remove a (r_actions (r_ rw))) Hok) as [H1 H2].
  - apply coherent_remove, Hok.
  - apply remove_subseteq.
  - by destruct rw as [l [rc ra] wr ic c].
Qed.

Lemma orderly_Writer_disconnect ch a w : orderly w (Writer_disconnect ch a w).
Proof.
  unfold Writer_disconnect, modify_writer. apply orderly_alter. intros rw _ Hok.
  destruct (chan_ok_writers _ rw (Actions.remove a (w_actions (w_ rw))) Hok) as [H1 H2].
  - apply coherent_remove, Hok.
  - apply remove_subseteq.
  - by destruct rw as [l rr [wc wa] ic c].
Qed.

Lemma orderly_Connection_disconnect a w : orderly w (Connection_disconnect a w).
Proof.
  unfold Connection_disconnect.
  destruct (acts w !! a) as [[[r|] cb|[x|] v cb]|]; try apply orderly_refl.
  - eapply orderly_trans; [|apply orderly_Reader_disconnect]. by apply orderly_same.
  - eapply orderly_trans; [|apply orderly_Writer_disconnect]. by apply orderly_same.
Qed.

Lemma orderly_disconnect_all conns w : orderly w (disconnect_all conns w).
Proof.
  unfold disconnect_all. apply (framing_foldl _ orderly_refl orderly_trans).
  intros. apply orderly_Connection_disconnect.
Qed.

Lemma orderly_CaseCallback_call cb c hasError reason w :
  orderly w (CaseCallback_call cb c hasError reason w).
Proof.
  destruct cb as [p|tag]; simpl; [|by apply orderly_same].
  destruct (closures w !! p) as [[| |conns opts|]|]; try apply orderly_refl.
  assert (Hd : orderly w (disconnect_all conns (removeEventListener (signal opts) p w))).
  { eapply orderly_trans; [apply orderly_removeEventListener|apply orderly_disconnect_all]. }
  unfold resolve, reject.
  destruct hasError; [destruct (silent opts)|];
    (eapply orderly_trans; [exact Hd|apply orderly_settle]).
Qed.

Lemma orderly_ReadCallback_call cb val w : orderly w (ReadCallback_call cb val w).
Proof.
  destruct cb as [p|c cb]; simpl.
  - destruct (closures w !! p) as [[a opts| | |]|]; try apply orderly_refl.
    unfold resolve. eapply orderly_trans; [|apply orderly_settle].
    apply orderly_removeEventListener.
  - eapply orderly_trans; [|apply orderly_CaseCallback_call]. by apply orderly_same.
Qed.

Lemma orderly_WriteCallback_call cb val reason w :
  orderly w (WriteCallback_call cb val reason w).
Proof.
  destruct cb as [p|c cb]; simpl.
  - destruct (closures w !! p) as [[|a opts| |]|]; try apply orderly_refl.
    unfold resolve, reject.
    destruct val; [|destruct (silent opts)];
      (eapply orderly_trans; [|apply orderly_settle]); apply orderly_removeEventListener.
  - destruct val;
      (eapply orderly_trans; [|apply orderly_CaseCallback_call]); by apply orderly_same.
Qed.

Lemma orderly_ReadAction_invoke a val w : orderly w (ReadAction_invoke a val w).
Proof.
  unfold ReadAction_invoke. destruct (acts w !! a) as [[r [cb|]|]|];
    try apply orderly_refl. apply orderly_ReadCallback_call.
Qed.

Lemma orderly_WirteAction_invoke a w : orderly w (WirteAction_invoke a w).
Proof.
  unfold WirteAction_invoke. destruct (acts w !! a) as [[|x v [cb|]]|];
    try apply orderly_refl. apply orderly_WriteCallback_call.
Qed.

Lemma orderly_WirteAction_close a e w : orderly w (WirteAction_close a e w).
Proof.
  unfold WirteAction_close. destruct (acts w !! a) as [[|x v [cb|]]|];
    try apply orderly_refl. apply orderly_WriteCallback_call.
Qed.

Lemma orderly_Reader_close_loop fuel : ∀ i ch w, orderly w (Reader_close_loop fuel i ch w).
Proof.
  induction fuel as [|fuel IH]; intros i ch w; simpl; [apply orderly_refl|].
  destruct (_ !! i); [|apply orderly_refl].
  eapply orderly_trans; [apply orderly_ReadAction_invoke|apply IH].
Qed.

Lemma orderly_Writer_close_loop fuel : ∀ i ch e w,
  orderly w (Writer_close_loop fuel i ch e w).
Proof.
  induction fuel as [|fuel IH]; intros i ch e w; simpl; [apply orderly_refl|].
  destruct (_ !! i); [|apply orderly_refl].
  eapply orderly_trans; [apply orderly_WirteAction_close|apply IH].
Qed.

Lemma orderly_onAbort p w : orderly w (onAbort p w).
Proof.
  unfold onAbort. destruct (closures w !! p) as [[a opts|a opts|conns opts|s sil]|];
    [| | | |apply orderly_refl]; unfold resolve, reject.
  - destruct (silent opts);
      (eapply orderly_trans; [apply orderly_Connection_disconnect|apply orderly_settle]).
  - destruct (silent opts);
      (eapply orderly_trans; [apply orderly_Connection_disconnect|apply orderly_settle]).
  - destruct (silent opts);
      (eapply orderly_trans; [apply orderly_disconnect_all|apply orderly_settle]).
  - destruct sil; apply orderly_settle.
Qed.

Lemma orderly_AbortController_abort s reason w : orderly w (AbortController_abort s reason w).
Proof.
  unfold AbortController_abort. destruct (signals w !! s) as [sg|]; [|apply orderly_refl].
  destruct (aborted sg); [apply orderly_refl|].
  eapply (orderly_trans _ (set_signals _ w)); [by apply orderly_same|].
  apply (framing_foldl _ orderly_refl orderly_trans). intros. apply orderly_onAbort.
Qed.

Local Ltac ord_step :=
  first
    [ apply framing_ret; exact orderly_refl
    | apply framing_throw; exact orderly_refl
    | apply framing_gets; exact orderly_refl
    | apply framing_get_rw; exact orderly_refl
    | apply framing_get_case; exact orderly_refl
    | apply (framing_bind _ orderly_trans) ].

Lemma chan_ok_mono n m rw : n ≤ m → chan_ok n rw → chan_ok m rw.
Proof.
  intros Hle (Hring & Hr & Hw & Hrn & Hwn). split_and!; try done.
  - intros a Ha. specialize (Hrn a Ha). lia.
  - intros a Ha. specialize (Hwn a Ha). lia.
Qed.

Lemma orderly_fresh : framing orderly fresh.
Proof.
  intros w [Hch Hpr]. simpl. split.
  - split.
    + intros ch rw Hrw. destruct (Hch ch rw Hrw) as [Hlt Hok]. simpl.
      split; [lia|]. eapply chan_ok_mono; [|exact Hok]. lia.
    + intros p s Hp. specialize (Hpr p s Hp). simpl. lia.
  - split_and!; [simpl; lia| |by apply settled_stay_same].
    intros ch rw Hrw. exists rw. split; [done|apply rw_ages_refl].
Qed.

Lemma orderly_random_index n : framing orderly (random_index n).
Proof. intros w. by apply orderly_same. Qed.

Lemma orderly_new_Promise : framing orderly new_Promise.
Proof.
  intros w. rewrite new_Promise_eq. simpl. intros [Hch Hpr]. split.
  - split.
    + intros ch rw Hrw. destruct (Hch ch rw Hrw) as [Hlt Hok]. simpl.
      split; [lia|]. eapply chan_ok_mono; [|exact Hok]. lia.
    + intros p s. simpl. destruct (decide (next w = p)) as [<-|Hne]; [lia|].
      rewrite lookup_insert_ne by done. intros Hp. specialize (Hpr p s Hp). lia.
  - split_and!; [simpl; lia| |].
    + intros ch rw Hrw. exists rw. split; [done|apply rw_ages_refl].
    + intros p s Hp Hs. simpl. specialize (Hpr p s Hp).
      rewrite lookup_insert_ne by lia. done.
Qed.

Lemma orderly_new_Chan buf : framing orderly (new_Chan buf).
Proof.
  intros w. unfold new_Chan, fresh. munfold. simpl. intros [Hch Hpr]. split.
  - split.
    + intros ch rw. simpl. destruct (decide (next w = ch)) as [<-|Hne].
      * rewrite lookup_insert_eq. intros [= <-]. split; [lia|].
        unfold chan_ok, RW_create. simpl. split_and!.
        -- intros ring. destruct (0 <? buf)%Z; [|done]. intros [= <-]. apply create_wf.
        -- apply coherent_empty.
        -- apply coherent_empty.
        -- by intros a ?%elem_of_nil.
        -- by intros a ?%elem_of_nil.
      * rewrite lookup_insert_ne by done. intros Hrw.
        destruct (Hch ch rw Hrw) as [Hlt Hok]. split; [lia|].
        eapply chan_ok_mono; [|exact Hok]. lia.
    + intros p s Hp. specialize (Hpr p s Hp). simpl in *. lia.
  - split_and!; [simpl; lia| |by apply settled_stay_same].
    intros ch rw Hrw. exists rw. simpl. destruct (Hch ch rw Hrw) as [Hlt _].
    rewrite lookup_insert_ne by lia. split; [done|apply rw_ages_refl].
Qed.

(** Parking a freshly allocated action. *)
Lemma orderly_connect (f : RW → RW) g ch w :
  (∀ rw, chan_ok (next w) rw → chan_ok (S (next w)) (f rw) ∧ rw_ages rw (f rw)) →
  orderly w (set_chans (alter f ch) (set_acts g (set_next S w))).
Proof.
  intros Hf [Hch Hpr]. split.
  - split.
    + intros k rw. simpl. destruct (decide (ch = k)) as [<-|Hne].
      * rewrite lookup_alter_eq. destruct (chans w !! ch) as [rw0|] eqn:Hrw0; [|done].
        simpl. intros [= <-]. destruct (Hch ch rw0 Hrw0) as [Hlt Hok0].
        split; [lia|]. by apply Hf.
      * rewrite lookup_alter_ne by done. intros Hrw.
        destruct (Hch k rw Hrw) as [Hlt Hok]. split; [lia|].
        eapply chan_ok_mono; [|exact Hok]. lia.
    + intros p s Hp. specialize (Hpr p s Hp). simpl in *. lia.
  - split_and!; [simpl; lia| |by apply settled_stay_same].
    intros k rw Hrw. simpl. destruct (decide (ch = k)) as [<-|Hne].
    + rewrite lookup_alter_eq, Hrw. simpl. exists (f rw). split; [done|].
      apply Hf. by apply (Hch ch rw).
    + rewrite lookup_alter_ne by done. exists rw. split; [done|apply rw_ages_refl].
Qed.

Lemma orderly_Reader_connect ch cb : framing orderly (Reader_connect ch cb).
Proof.
  intros w. rewrite Reader_connect_eq. cbn [snd]. apply orderly_connect.
  intros rw (Hring & Hr & Hw & Hrn & Hwn). split; [|by split].
  split_and!; simpl; try done.
  - apply coherent_push; [done|]. intros Hin. specialize (Hrn _ Hin). lia.
  - intros a [Ha|Ha%list_elem_of_singleton]%elem_of_app; [specialize (Hrn a Ha)|]; lia.
  - intros a Ha. specialize (Hwn a Ha). lia.
Qed.

Lemma orderly_Writer_connect ch v cb : framing orderly (Writer_connect ch v cb).
Proof.
  intros w. rewrite Writer_connect_eq. cbn [snd]. apply orderly_connect.
  intros rw (Hring & Hr & Hw & Hrn & Hwn). split; [|by split].
  split_and!; simpl; try done.
  - apply coherent_push; [done|]. intros Hin. specialize (Hwn _ Hin). lia.
  - intros a Ha. specialize (Hrn a Ha). lia.
  - intros a [Ha|Ha%list_elem_of_singleton]%elem_of_app; [specialize (Hwn a Ha)|]; lia.
Qed.

Lemma orderly_list_pop ch : framing orderly (list_pop ch).
Proof.
  intros w. unfold list_pop. destruct (chans w !! ch) as [rw|] eqn:Hrw; [|apply orderly_refl].
  destruct (list_ rw) as [ring|] eqn:Hl; [|apply orderly_refl].
  pose proof (pop_wf ring) as Hwf. pose proof (pop_capacity ring) as Hcap.
  destruct (Ring.pop ring) as [result ring']. simpl in *.
  eapply orderly_insert; [done|]. intros (Hring & Hr & Hw & Hrn & Hwn). split.
  - split_and!; simpl; try done. intros ? [= <-]. by apply Hwf, Hring.
  - split; [done|]. unfold RW_capacity. simpl. by rewrite Hl.
Qed.

Lemma orderly_list_push ch v : framing orderly (list_push ch v).
Proof.
  intros w. unfold list_push. destruct (chans w !! ch) as [rw|] eqn:Hrw; [|apply orderly_refl].
  destruct (list_ rw) as [ring|] eqn:Hl; [|apply orderly_refl].
  pose proof (push_wf v ring) as Hwf. pose proof (push_capacity v ring) as Hcap.
  destruct (Ring.push v ring) as [result ring']. simpl in *.
  eapply orderly_insert; [done|]. intros (Hring & Hr & Hw & Hrn & Hwn). split.
  - split_and!; simpl; try done. intros ? [= <-]. by apply Hwf, Hring.
  - split; [done|]. unfold RW_capacity. simpl. by rewrite Hl.
Qed.

Lemma orderly_Reader_invoke ch val : framing orderly (Reader_invoke ch val).
Proof.
  intros w. unfold Reader_invoke. munfold.
  destruct (chans w !! ch) as [rw|] eqn:Hch; [|apply orderly_refl].
  set (pool := r_actions (r_ rw)).
  assert (Hfin : ∀ rest w0, chans w0 = chans w → promises w0 = promises w →
    next w0 = next w →
    (Actions.coherent pool → Actions.coherent rest) →
    Actions.actions rest ⊆ Actions.actions pool →
    orderly w (modify_reader ch (λ _, rest) w0)).
  { intros rest w0 Hc0 Hp0 Hn0 Hcoh Hsub.
    eapply (orderly_trans _ w0); [by apply orderly_same|].
    apply orderly_alter. intros rw0 Hrw0 Hok0. rewrite Hc0, Hch in Hrw0.
    injection Hrw0 as <-. apply chan_ok_readers; [done| |done]. apply Hcoh, Hok0. }
  destruct (Actions.length pool) as [|[|n]] eqn:Hlen; [apply orderly_refl| |].
  - pose proof (pop_subseteq pool) as Hs. pose proof (coherent_pop pool) as Hc.
    destruct (Actions.pop pool) as [o rest]. simpl in Hs, Hc.
    destruct o as [p|]; simpl; [|by apply Hfin].
    eapply orderly_trans; [|apply orderly_ReadAction_invoke]. by apply Hfin.
  - unfold random_index.
    pose proof (removeBy_subseteq pool (hd 0 (rng w) `mod` S (S n))) as Hs.
    assert (Hc : Actions.coherent pool →
                 Actions.coherent (Actions.removeBy (hd 0 (rng w) `mod` S (S n)) pool).2).
    { intros Hcoh. apply coherent_removeBy; [done|].
      change (length (Actions.actions pool)) with (Actions.length pool). rewrite Hlen.
      apply Nat.mod_upper_bound. lia. }
    destruct (Actions.removeBy _ pool) as [o rest]. simpl in Hs, Hc.
    destruct o as [p|]; simpl; [|by apply Hfin].
    eapply orderly_trans; [|apply orderly_ReadAction_invoke]. by apply Hfin.
Qed.

Lemma orderly_Writer_invoke ch : framing orderly (Writer_invoke ch).
Proof.
  intros w. unfold Writer_invoke. munfold.
  destruct (chans w !! ch) as [rw|] eqn:Hch; [|apply orderly_refl].
  set (pool := w_actions (w_ rw)).
  assert (Hfin : ∀ rest w0, chans w0 = chans w → promises w0 = promises w →
    next w0 = next w →
    (Actions.coherent pool → Actions.coherent rest) →
    Actions.actions rest ⊆ Actions.actions pool →
    orderly w (modify_writer ch (λ _, rest) w0)).
  { intros rest w0 Hc0 Hp0 Hn0 Hcoh Hsub.
    eapply (orderly_trans _ w0); [by apply orderly_same|].
    apply orderly_alter. intros rw0 Hrw0 Hok0. rewrite Hc0, Hch in Hrw0.
    injection Hrw0 as <-. apply chan_ok_writers; [done| |done]. apply Hcoh, Hok0. }
  destruct (Actions.length pool) as [|[|n]] eqn:Hlen; [apply orderly_refl| |].
  - pose proof (pop_subseteq pool) as Hs. pose proof (coherent_pop pool) as Hc.
    destruct (Actions.pop pool) as [o rest]. simpl in Hs, Hc.
    destruct o as [p|]; simpl; [|by apply Hfin].
    eapply orderly_trans; [|apply orderly_WirteAction_invoke]. by apply Hfin.
  - unfold random_index.
    pose proof (removeBy_subseteq pool (hd 0 (rng w) `mod` S (S n))) as Hs.
    assert (Hc : Actions.coherent pool →
                 Actions.coherent (Actions.removeBy (hd 0 (rng w) `mod` S (S n)) pool).2).
    { intros Hcoh. apply coherent_removeBy; [done|].
      change (length (Actions.actions pool)) with (Actions.length pool). rewrite Hlen.
      apply Nat.mod_upper_bound. lia. }
    destruct (Actions.removeBy _ pool) as [o rest]. simpl in Hs, Hc.
    destruct o as [p|]; simpl; [|by apply Hfin].
    eapply orderly_trans; [|apply orderly_WirteAction_invoke]. by apply Hfin.
Qed.

Lemma orderly_flag (f : RW → RW) ch w :
  (∀ rw, list_ (f rw) = list_ rw ∧ r_actions (r_ (f rw)) = r_actions (r_ rw) ∧
         w_actions (w_ (f rw)) = w_actions (w_ rw) ∧
         (isClosed rw = true → isClosed (f rw) = true)) →
  orderly w (set_chans (alter f ch) w).
Proof.
  intros Hf. apply orderly_alter. intros rw _ (Hring & Hr & Hw & Hrn & Hwn).
  destruct (Hf rw) as (El & Er & Ew & Hc). split.
  - unfold chan_ok. rewrite El, Er, Ew. by split_and!.
  - split; [done|]. unfold RW_capacity. by rewrite El.
Qed.

Lemma orderly_clear_readers ch w : orderly w (modify_reader ch Actions.clear w).
Proof.
  unfold modify_reader. apply orderly_alter. intros rw _ (Hring & Hr & Hw & Hrn & Hwn).
  split; [|by split]. split_and!; simpl; try done. by intros a ?%elem_of_nil.
Qed.

Lemma orderly_clear_writers ch w : orderly w (modify_writer ch Actions.clear w).
Proof.
  unfold modify_writer. apply orderly_alter. intros rw _ (Hring & Hr & Hw & Hrn & Hwn).
  split; [|by split]. split_and!; simpl; try done. by intros a ?%elem_of_nil.
Qed.

Lemma orderly_Reader_close ch : framing orderly (Reader_close ch).
Proof.
  unfold Reader_close. ord_step; [ord_step|]. intros rw.
  destruct (r_closed _); [ord_step|].
  ord_step; [apply framing_effect; intros ?; by apply orderly_flag|]. intros _.
  destruct (_ =? 0); [ord_step|].
  ord_step; [apply framing_effect; intros ?; apply orderly_Reader_close_loop|].
  intros _. apply framing_effect; intros ?; apply orderly_clear_readers.
Qed.

Lemma orderly_Writer_close ch : framing orderly (Writer_close ch).
Proof.
  unfold Writer_close. ord_step; [ord_step|]. intros rw.
  destruct (w_closed_ _); [ord_step|].
  ord_step; [apply framing_effect; intros ?; by apply orderly_flag|]. intros _.
  destruct (_ =? 0); [ord_step|].
  ord_step; [apply framing_effect; intros ?; apply orderly_Writer_close_loop|].
  intros _. apply framing_effect; intros ?; apply orderly_clear_writers.
Qed.

Lemma orderly_RW_tryRead_uncached ch : framing orderly (RW_tryRead_uncached ch).
Proof.
  unfold RW_tryRead_uncached, Writer_isEmpty. ord_step; [ord_step|]. intros rw.
  destruct (isClosed rw); [ord_step|].
  ord_step; [ord_step; [ord_step|intros; ord_step]|]. intros [|]; [ord_step|].
  ord_step; [apply orderly_Writer_invoke|]. intros; ord_step.
Qed.

Lemma orderly_RW_tryRead ch : framing orderly (RW_tryRead ch).
Proof.
  unfold RW_tryRead, Writer_isEmpty. ord_step; [ord_step|]. intros rw.
  destruct (list_ rw); [|apply orderly_RW_tryRead_uncached].
  ord_step; [apply orderly_list_pop|]. intros result.
  destruct (negb _); [|apply orderly_RW_tryRead_uncached].
  ord_step; [ord_step; [ord_step|intros; ord_step]|]. intros b.
  ord_step; [|intros; ord_step].
  destruct (negb _); [|ord_step].
  ord_step; [apply orderly_Writer_invoke|]. intros v.
  ord_step; [apply orderly_list_push|]. intros; ord_step.
Qed.

Lemma orderly_RW_tryWrite ch v : framing orderly (RW_tryWrite ch v).
Proof.
  unfold RW_tryWrite, Reader_isEmpty. ord_step; [ord_step|]. intros rw.
  destruct (isClosed rw); [ord_step|].
  ord_step; [ord_step; [ord_step|intros; ord_step]|]. intros [|].
  - destruct (list_ rw); [|ord_step].
    ord_step; [apply orderly_list_push|]. intros; ord_step.
  - ord_step; [apply orderly_Reader_invoke|]. intros; ord_step.
Qed.

Lemma orderly_RW_close ch : framing orderly (RW_close ch).
Proof.
  unfold RW_close. ord_step; [ord_step|]. intros rw.
  destruct (isClosed rw); [ord_step|].
  ord_step; [apply framing_effect; intros ?; by apply orderly_flag|]. intros _.
  ord_step; [apply orderly_Writer_close|]. intros _.
  ord_step; [apply orderly_Reader_close|]. intros _.
  ord_step; [|intros; ord_step].
  destruct (closed_ rw); [|ord_step].
  ord_step; [apply framing_effect; intros ?; by apply orderly_flag|]. intros _.
  apply framing_effect; intros ?; apply orderly_settle.
Qed.

Lemma orderly_RW_wait ch : framing orderly (RW_wait ch).
Proof.
  unfold RW_wait. ord_step; [ord_step|]. intros rw.
  destruct (isClosed rw); [ord_step|]. destruct (closed_ rw); [ord_step|].
  ord_step; [apply orderly_new_Promise|]. intros p.
  ord_step; [apply framing_effect; intros ?; by apply orderly_flag|]. intros; ord_step.
Qed.

Lemma orderly_Chan_tryRead ch opts : framing orderly (Chan_tryRead ch opts).
Proof.
  unfold Chan_tryRead. ord_step; [ord_step|]. intros [|].
  - ord_step; [ord_step|]. intros r. destruct (silent opts); ord_step.
  - ord_step; [apply orderly_RW_tryRead|]. intros [val|]; [|ord_step].
    destruct (truthy _); ord_step.
Qed.

Lemma orderly_Chan_tryWrite ch v opts : framing orderly (Chan_tryWrite ch v opts).
Proof.
  unfold Chan_tryWrite. ord_step; [ord_step|]. intros [|].
  - ord_step; [ord_step|]. intros r. destruct (silent opts); ord_step.
  - ord_step; [apply orderly_RW_tryWrite|]. intros [[|]|]; try ord_step.
    destruct (silent opts); ord_step.
Qed.

Lemma orderly_Chan_read ch opts : framing orderly (Chan_read ch opts).
Proof.
  unfold Chan_read. ord_step; [apply orderly_Chan_tryRead|]. intros val.
  destruct (_ || _); [ord_step|].
  ord_step; [apply orderly_new_Promise|]. intros p.
  ord_step; [apply orderly_Reader_connect|]. intros a.
  ord_step; [apply framing_effect; intros ?; by apply orderly_same|]. intros _.
  ord_step; [apply framing_effect; intros ?; apply orderly_addEventListener|].
  intros; ord_step.
Qed.

Lemma orderly_Chan_write ch v opts : framing orderly (Chan_write ch v opts).
Proof.
  unfold Chan_write. ord_step; [apply orderly_Chan_tryWrite|]. intros val.
  destruct (_ || _); [ord_step|].
  ord_step; [apply orderly_new_Promise|]. intros p.
  ord_step; [apply orderly_Writer_connect|]. intros a.
  ord_step; [apply framing_effect; intros ?; by apply orderly_same|]. intros _.
  ord_step; [apply framing_effect; intros ?; apply orderly_addEventListener|].
  intros; ord_step.
Qed.

Lemma orderly_Chan_readCase ch : framing orderly (Chan_readCase ch).
Proof.
  unfold Chan_readCase. ord_step; [apply orderly_fresh|]. intros c.
  ord_step; [apply framing_effect; intros ?; by apply orderly_same|]. intros; ord_step.
Qed.

Lemma orderly_Chan_writeCase ch v : framing orderly (Chan_writeCase ch v).
Proof.
  unfold Chan_writeCase. ord_step; [apply orderly_fresh|]. intros c.
  ord_step; [apply framing_effect; intros ?; by apply orderly_same|]. intros; ord_step.
Qed.

Lemma orderly_new_AbortController : framing orderly new_AbortController.
Proof.
  unfold new_AbortController. ord_step; [apply orderly_fresh|]. intros c.
  ord_step; [apply framing_effect; intros ?; by apply orderly_same|]. intros; ord_step.
Qed.

Lemma orderly_Case_reset c : framing orderly (Case_reset c).
Proof.
  unfold Case_reset. ord_step; [ord_step|]. intros [ch v|ch x v];
    apply framing_effect; intros ?; by apply orderly_same.
Qed.

Lemma orderly_ReadCase_tryInvoke c ch : framing orderly (ReadCase_tryInvoke c ch).
Proof.
  unfold ReadCase_tryInvoke. ord_step; [apply orderly_RW_tryRead|]. intros [val|].
  - destruct (truthy _); [ord_step|]. ord_step; [|intros; ord_step].
    apply framing_effect; intros ?; by apply orderly_same.
  - ord_step; [|intros; ord_step]. apply framing_effect; intros ?; by apply orderly_same.
Qed.

Lemma orderly_WriteCase_tryInvoke c ch v silent :
  framing orderly (WriteCase_tryInvoke c ch v silent).
Proof.
  unfold WriteCase_tryInvoke. ord_step; [apply orderly_Chan_tryWrite|]. intros val.
  destruct (WriteValue.ok val) as [[|]|]; [|ord_step|];
    (ord_step; [|intros; ord_step]); apply framing_effect; intros ?; by apply orderly_same.
Qed.

Lemma orderly_Case_tryInvoke c silent : framing orderly (Case_tryInvoke c silent).
Proof.
  unfold Case_tryInvoke. ord_step; [ord_step|]. intros [ch v|ch x v];
    [apply orderly_ReadCase_tryInvoke|apply orderly_WriteCase_tryInvoke].
Qed.

Lemma orderly_Case_invoke c cb : framing orderly (Case_invoke c cb).
Proof.
  unfold Case_invoke, RW_read, RW_write. ord_step; [ord_step|]. intros [ch v|ch x v];
    [apply orderly_Reader_connect|apply orderly_Writer_connect].
Qed.

Lemma orderly_reset_all cs : framing orderly (reset_all cs).
Proof.
  induction cs as [|c cs IH]; simpl; [ord_step|].
  ord_step; [apply orderly_Case_reset|done].
Qed.

Lemma orderly_shuffle arrs c : framing orderly (shuffle arrs c).
Proof.
  revert arrs. induction c as [|c IH]; intros arrs; simpl; [ord_step|].
  ord_step; [apply orderly_random_index|]. intros r.
  destruct (arrs !! c), (arrs !! r); apply IH.
Qed.

Lemma orderly_try_cases cs silent : framing orderly (try_cases cs silent).
Proof.
  induction cs as [|c cs IH]; simpl; [ord_step|].
  ord_step; [apply orderly_Case_tryInvoke|]. intros [|]; [ord_step|done].
Qed.

Lemma orderly_arm_all cs cb : framing orderly (arm_all cs cb).
Proof.
  induction cs as [|c cs IH]; simpl; [ord_step|].
  ord_step; [apply orderly_Case_invoke|]. intros conn.
  ord_step; [done|]. intros; ord_step.
Qed.

Lemma orderly_selectChan opts : framing orderly (selectChan opts).
Proof.
  unfold selectChan. ord_step; [ord_step|]. intros [|].
  - ord_step; [ord_step|]. intros r. destruct (SelectOptions.silent opts); ord_step.
  - destruct (match SelectOptions.chans opts with Some l => omap id l | None => [] end)
      as [|c cs] eqn:Hcs.
    + destruct (SelectOptions.default opts); [ord_step|].
      destruct (SelectOptions.signal opts); [|ord_step].
      ord_step; [apply orderly_new_Promise|]. intros p.
      ord_step; [apply framing_effect; intros ?; by apply orderly_same|]. intros _.
      ord_step; [apply framing_effect; intros ?; apply orderly_addEventListener|].
      intros; ord_step.
    + ord_step; [apply orderly_reset_all|]. intros _.
      ord_step; [apply orderly_shuffle|]. intros chans.
      ord_step; [apply orderly_try_cases|]. intros [ready|]; [ord_step|].
      destruct (SelectOptions.default opts); [ord_step|].
      ord_step; [apply orderly_new_Promise|]. intros p.
      ord_step; [apply orderly_arm_all|]. intros conns.
      ord_step; [apply framing_effect; intros ?; by apply orderly_same|]. intros _.
      ord_step; [apply framing_effect; intros ?; apply orderly_addEventListener|].
      intros; ord_step.
Qed.

Lemma orderly_exec op w : orderly w (exec op w).
Proof.
  destruct op; simpl.
  - apply orderly_new_Chan.
  - apply orderly_new_AbortController.
  - apply orderly_AbortController_abort.
  - apply orderly_Chan_tryRead.
  - apply orderly_Chan_read.
  - apply orderly_Chan_tryWrite.
  - apply orderly_Chan_write.
  - apply orderly_RW_close.
  - apply orderly_RW_wait.
  - apply orderly_Chan_readCase.
  - apply orderly_Chan_writeCase.
  - apply orderly_Case_reset.
  - apply orderly_Case_tryInvoke.
  - apply orderly_Case_invoke.
  - apply orderly_Connection_disconnect.
  - apply orderly_selectChan.
Qed.

Lemma orderly_run ops w : orderly w (run ops w).
Proof.
  unfold run. apply (framing_foldl _ orderly_refl orderly_trans). intros.
  apply orderly_exec.
Qed.

Lemma store_ok_empty_world draws : store_ok (empty_world draws).
Proof. split; [intros ch rw|intros p s]; simpl; by rewrite lookup_empty. Qed.

Lemma store_ok_run draws ops : store_ok (run ops (empty_world draws)).
Proof. apply (orderly_run ops (empty_world draws)), store_ok_empty_world. Qed.

Lemma ages_run draws ops1 ops2 :
  ages (run ops1 (empty_world draws)) (run ops2 (run ops1 (empty_world draws))).
Proof. apply (orderly_run ops2), store_ok_run. Qed.

(** X21: in every store reached from the empty one by public operations,
    the ring of every buffered channel satisfies its class invariant, and
    [length <= capacity] for every channel. *)
Theorem reachable_buffers_within_capacity draws ops ch rw :
  chans (run ops (empty_world draws)) !! ch = Some rw →
  RW_length rw ≤ RW_capacity rw ∧
  ∀ ring, list_ rw = Some ring → Ring.wf ring ∧ length (Ring.contents ring) = RW_length rw.
Proof.
  intros Hch. destruct (store_ok_run draws ops) as [Hok _].
  destruct (Hok ch rw Hch) as [_ (Hring & _)]. unfold RW_length, RW_capacity.
  destruct (list_ rw) as [ring|]; [|split; [lia|done]].
  destruct (Hring ring eq_refl) as [Hle Hoff]. split; [exact Hle|].
  intros ? [= <-]. split; [by split|apply contents_length].
Qed.

(** X22: whatever public operations follow, a channel stays in the store,
    a closed channel stays closed, and the capacity of a channel never
    changes. *)
Theorem channels_only_age draws ops1 ops2 ch rw :
  chans (run ops1 (empty_world draws)) !! ch = Some rw →
  ∃ rw', chans (run ops2 (run ops1 (empty_world draws))) !! ch = Some rw' ∧
    (isClosed rw = true → isClosed rw' = true) ∧ RW_capacity rw' = RW_capacity rw.
Proof.
  intros Hch. destruct (ages_run draws ops1 ops2) as (_ & Hc & _).
  destruct (Hc ch rw Hch) as (rw' & Hch' & Hcl & Hcap). by exists rw'.
Qed.

Lemma reachable_buffers_within_capacity_witness :
  ∃ rw, chans (run [OpNewChan 2; OpTryWrite 0 (VNum 1) no_options;
                     OpTryWrite 0 (VNum 2) no_options; OpTryWrite 0 (VNum 3) no_options;
                     OpTryRead 0 no_options] (empty_world [])) !! 0 = Some rw ∧
    RW_capacity rw = 2 ∧ RW_length rw ≤ RW_capacity rw.
Proof.
  pose (ops := [OpNewChan 2; OpTryWrite 0 (VNum 1) no_options;
                OpTryWrite 0 (VNum 2) no_options; OpTryWrite 0 (VNum 3) no_options;
                OpTryRead 0 no_options]).
  pose (rw := default (RW_create 0) (chans (run ops (empty_world [])) !! 0)).
  assert (Hch : chans (run ops (empty_world [])) !! 0 = Some rw)
    by (vm_compute; reflexivity).
  exists rw. split; [exact Hch|]. split; [vm_compute; reflexivity|].
  exact (proj1 (reachable_buffers_within_capacity [] ops 0 rw Hch)).
Defined.

Lemma channels_only_age_witness :
  ∃ rw rw',
    chans (run [OpNewChan 2; OpClose 0] (empty_world [])) !! 0 = Some rw ∧
    isClosed rw = true ∧
    chans (run [OpTryWrite 0 (VNum 1) no_options; OpRead 0 no_options]
             (run [OpNewChan 2; OpClose 0] (empty_world []))) !! 0 = Some rw' ∧
    isClosed rw' = true ∧ RW_capacity rw' = RW_capacity rw.
Proof.
  pose (ops1 := [OpNewChan 2; OpClose 0]).
  pose (rw := default (RW_create 0) (chans (run ops1 (empty_world [])) !! 0)).
  assert (Hch : chans (run ops1 (empty_world [])) !! 0 = Some rw)
    by (vm_compute; reflexivity).
  assert (Hcl : isClosed rw = true) by (vm_compute; reflexivity).
  destruct (channels_only_age [] ops1
              [OpTryWrite 0 (VNum 1) no_options; OpRead 0 no_options] 0 rw Hch)
    as (rw' & Hch' & Hcl' & Hcap).
  exists rw, rw'. split_and!; [exact Hch|exact Hcl|exact Hch'|exact (Hcl' Hcl)|exact Hcap].
Defined.

(** X24: on an open channel whose buffer is full, with nobody parked,
    [write(v)] returns a fresh pending promise; a following [tryRead()]
    returns the oldest buffered value, resolves that promise with
    [{ ok: true }], and leaves [v] at the back of the buffer behind the
    other values, with no writer parked. *)
Theorem write_on_a_full_buffer_completes_when_a_slot_frees
    ch opts v w rw ring x rest :
  signal_aborted (signal opts) w = false →
  chans w !! ch = Some rw → isClosed rw = false →
  list_ rw = Some ring → Ring.wf ring → Ring.length ring = Ring.capacity ring →
  Ring.contents ring = x :: rest →
  Actions.length (r_actions (r_ rw)) = 0 → w_actions (w_ rw) = Actions.empty →
  ∃ w1 w2 rw2 ring2,
    Chan_write ch v opts w = (Return (inr (next w)), w1) ∧
    promises w1 !! next w = Some Pending ∧
    Chan_tryRead ch no_options w1 = (Return (value_read x), w2) ∧
    promises w2 !! next w = Some (Resolved (SWrite ok_written)) ∧
    chans w2 !! ch = Some rw2 ∧ list_ rw2 = Some ring2 ∧ Ring.wf ring2 ∧
    Ring.contents ring2 = rest ++ [v] ∧
    w_actions (w_ rw2) = Actions.empty ∧ r_ rw2 = r_ rw.
Proof.
  intros Ha Hch Hopen Hl Hwf Hfull Hc Hr Hw.
  rewrite (Chan_write_parks ch v opts w rw); [|done|done|done| |done].
  2:{ unfold RW_length, RW_capacity. by rewrite Hl. }
  match goal with |- context [(Return (inr (next w)), ?w0)] => set (w1 := w0) end.
  set (rw1 := set_w_ (set_w_actions (Actions.push (S (next w)))) rw).
  assert (Hch1 : chans w1 !! ch = Some rw1).
  { subst w1. destruct (signal opts); simpl; by rewrite lookup_alter_eq, Hch. }
  assert (Hp1 : promises w1 !! next w = Some Pending).
  { subst w1. destruct (signal opts); simpl; by rewrite lookup_insert_eq. }
  assert (Hacts : acts w1 !! S (next w) =
                  Some (WirteAction (Some ch) v (Some (ChanWriteCb (next w))))).
  { subst w1. destruct (signal opts); simpl; by rewrite lookup_insert_eq. }
  assert (Hclo : closures w1 !! next w = Some (WriteClosure (S (next w)) opts)).
  { subst w1. destruct (signal opts); simpl; by rewrite lookup_insert_eq. }
  clearbody w1.
  (* the head is popped *)
  destruct (list_pop_head ch w1 rw1 ring x rest Hch1 Hl Hwf Hc)
    as (ring1 & Hpop & Hwf1 & Hc1 & Hlen1 & Hsz1).
  set (rwa := set_list_ (λ _, Some ring1) rw1) in *.
  set (wa := set_chans <[ch := rwa]> w1) in *.
  assert (Hcha : chans wa !! ch = Some rwa) by (subst wa; simpl; by rewrite lookup_insert_eq).
  (* the parked writer is invoked *)
  set (wb := modify_writer ch (λ _, Actions.empty) wa).
  set (wc := WirteAction_invoke (S (next w)) wb).
  assert (Hinv : Writer_invoke ch wa = (Return v, wc)).
  { unfold Writer_invoke. rewrite (bind_run _ _ _ _ _ (get_rw_eq _ _ _ Hcha)).
    replace (w_actions (w_ rwa)) with (Actions.push (S (next w)) Actions.empty)
      by (subst rwa rw1; simpl; by rewrite Hw).
    change (Actions.length (Actions.push (S (next w)) Actions.empty)) with 1.
    cbv beta iota. rewrite push_pop; [|apply coherent_empty|apply not_elem_of_nil].
    rewrite (bind_run (effect _) _ _ _ _ eq_refl). fold wb.
    unfold mbind, M_bind, gets, effect, mret, M_ret. unfold WirteAction_value.
    replace (acts wb !! S (next w)) with (acts w1 !! S (next w)) by done.
    by rewrite Hacts. }
  assert (Hwc : wc = settle (next w) (Resolved (SWrite ok_written))
                       (removeEventListener (signal opts) (next w) wb)).
  { subst wc. unfold WirteAction_invoke.
    replace (acts wb !! S (next w)) with (acts w1 !! S (next w)) by done.
    rewrite Hacts. unfold WriteCallback_call.
    replace (closures wb !! next w) with (closures w1 !! next w) by done.
    by rewrite Hclo. }
  set (rwc := set_w_ (set_w_actions (λ _, Actions.empty)) rwa).
  assert (Hchc : chans wc !! ch = Some rwc).
  { rewrite Hwc, chans_settle, chans_removeEventListener. subst wb. unfold modify_writer.
    simpl. by rewrite lookup_alter_eq, lookup_insert_eq. }
  assert (Hpc : promises wc !! next w = Some (Resolved (SWrite ok_written))).
  { rewrite Hwc. apply settle_pending. rewrite promises_removeEventListener. done. }
  clearbody wc.
  (* its value takes the freed slot *)
  assert (Hroom : Ring.size_ ring1 < length (Ring.arrs ring1)).
  { destruct Hwf as [Hs _]. lia. }
  destruct (list_push_room ch v wc rwc ring1 Hchc eq_refl Hwf1 Hroom)
    as (ring3 & Hpush & Hwf3 & Hc3 & Hlen3 & Hsz3).
  assert (Hrun : RW_tryRead ch w1 =
    (Return (Some {| IteratorResult.done := Some false; IteratorResult.value := x |}),
     set_chans <[ch := set_list_ (λ _, Some ring3) rwc]> wc)).
  { unfold RW_tryRead. rewrite (bind_run _ _ _ _ _ (get_rw_eq _ _ _ Hch1)).
    replace (list_ rw1) with (Some ring) by done. cbv beta iota.
    rewrite (bind_run _ _ _ _ _ Hpop). cbn [truthy IteratorResult.done negb].
    unfold Writer_isEmpty. fold wa.
    rewrite (bind_run (_ ≫= _) _ _ (Actions.length (w_actions (w_ rwa)) =? 0) wa).
    2:{ by rewrite (bind_run _ _ _ _ _ (get_rw_eq _ _ _ Hcha)). }
    replace (w_actions (w_ rwa)) with (Actions.push (S (next w)) Actions.empty)
      by (subst rwa rw1; simpl; by rewrite Hw).
    change (Actions.length (Actions.push (S (next w)) Actions.empty) =? 0) with false.
    cbn [negb].
    rewrite (bind_run (_ ≫= _) _ _ () (set_chans <[ch := set_list_ (λ _, Some ring3) rwc]> wc)).
    2:{ rewrite (bind_run _ _ _ _ _ Hinv). by rewrite (bind_run _ _ _ _ _ Hpush). }
    done. }
  exists w1, (set_chans <[ch := set_list_ (λ _, Some ring3) rwc]> wc),
    (set_list_ (λ _, Some ring3) rwc), ring3.
  split; [done|]. split; [done|]. rewrite Chan_tryRead_no_options, Hrun.
  cbn [truthy IteratorResult.done IteratorResult.value].
  split_and!; try done.
  - simpl. by rewrite lookup_insert_eq.
  - by rewrite Hc3, Hc1.
Qed.

Lemma write_on_a_full_buffer_completes_when_a_slot_frees_witness :
  ∃ w1 w2 rw2 ring2,
    Chan_write 0 (VNum 2) no_options full_chan = (Return (inr (next full_chan)), w1) ∧
    promises w1 !! next full_chan = Some Pending ∧
    Chan_tryRead 0 no_options w1 = (Return (value_read (VNum 1)), w2) ∧
    promises w2 !! next full_chan = Some (Resolved (SWrite ok_written)) ∧
    chans w2 !! 0 = Some rw2 ∧ list_ rw2 = Some ring2 ∧ Ring.wf ring2 ∧
    Ring.contents ring2 = [] ++ [VNum 2] ∧
    w_actions (w_ rw2) = Actions.empty ∧
    r_ rw2 = r_ (default (RW_create 0) (chans full_chan !! 0)).
Proof.
  pose (rw := default (RW_create 0) (chans full_chan !! 0)).
  pose (ring := default (Ring.create 0) (list_ rw)).
  apply (write_on_a_full_buffer_completes_when_a_slot_frees 0 no_options (VNum 2) full_chan
           rw ring (VNum 1) []);
    try (vm_compute; reflexivity). split; vm_compute; lia.
Defined.




(** With the files as they stand, [Writer.invoke] on a pool of cases armed
    by [selectChan] takes a writer out of the pool and fails in the
    callback of the select, at the call of [disconet()]; no promise is
    settled. *)
Lemma AsWritten_Writer_invoke_armed ch w rw :
  chans w !! ch = Some rw → Actions.length (w_actions (w_ rw)) ≠ 0 →
  (∀ a, a ∈ Actions.actions (w_actions (w_ rw)) → armed_by_select w a) →
  ∃ w' rw', AsWritten.Writer_invoke ch w = (Throw TypeError, w') ∧
    promises w' = promises w ∧
    chans w' !! ch = Some rw' ∧ list_ rw' = list_ rw ∧
    Actions.length (w_actions (w_ rw')) < Actions.length (w_actions (w_ rw)).
Proof.
  intros Hch Hne Harmed. unfold AsWritten.Writer_invoke. munfold. rewrite Hch.
  set (pool := w_actions (w_ rw)) in *.
  assert (Hfin : ∀ a rest w0,
    chans w0 = chans w → acts w0 = acts w → promises w0 = promises w →
    closures w0 = closures w →
    a ∈ Actions.actions pool → Actions.length rest < Actions.length pool →
    ∃ w' rw',
      (let w1 := modify_writer ch (λ _, rest) w0 in
       match AsWritten.WirteAction_invoke a w1 with
       | (Return _, w2) => (Return (WirteAction_value a w1), w2)
       | (Throw e, w2) => (Throw e, w2)
       end) = (Throw TypeError, w') ∧
      promises w' = promises w ∧
      chans w' !! ch = Some rw' ∧ list_ rw' = list_ rw ∧
      Actions.length (w_actions (w_ rw')) < Actions.length pool).
  { intros a rest w0 Hc0 Ha0 Hp0 Hcl0 Ha Hlen.
    destruct (Harmed a Ha) as (x & val & c & p & conns & opts & Hact & Hclo & Hconns).
    destruct conns as [|conn conns]; [done|].
    cbv zeta. unfold AsWritten.WirteAction_invoke, AsWritten.WriteCallback_call,
      AsWritten.CaseCallback_call. munfold. simpl. rewrite Ha0, Hact. simpl.
    rewrite Hcl0, Hclo. simpl.
    eexists _, _. split; [reflexivity|]. split_and!.
    - by rewrite promises_removeEventListener.
    - rewrite chans_removeEventListener. simpl. by rewrite Hc0, lookup_alter_eq, Hch.
    - done.
    - done. }
  destruct (Actions.length pool) as [|[|n]] eqn:Hlen; [done| |].
  - destruct (pop_nonempty pool) as (p & Hp1 & Hp2 & Hp3 & Hp4); [lia|].
    destruct (Actions.pop pool) as [o rest]. simpl in *. subst o.
    destruct (Hfin p rest w) as (w' & rw' & Heq & ?); try done; [lia|].
    exists w', rw'. split; [|done]. cbv zeta in Heq. simpl.
    destruct (AsWritten.WirteAction_invoke p _) as [[[]|e] w2]; done.
  - set (i := hd 0 (rng w) `mod` S (S n)).
    assert (Hi : i < Actions.length pool).
    { rewrite Hlen. apply Nat.mod_upper_bound. lia. }
    unfold random_index. fold i.
    destruct (removeBy_valid pool i Hi) as (p & Hp1 & Hp2 & Hp3 & Hp4).
    destruct (Actions.removeBy i pool) as [o rest]. simpl in *. subst o.
    destruct (Hfin p rest (set_rng (λ l, tl l) w)) as (w' & rw' & Heq & ?); try done; [lia|].
    exists w', rw'. split; [|done]. cbv zeta in Heq. simpl.
    destruct (AsWritten.WirteAction_invoke p _) as [[[]|e] w2]; done.
Qed.

(** C3 (what the code does, with the files as they stand): on a channel
    whose buffer holds [v] followed by [rest] and whose writer pool is not
    empty and holds only cases armed by a [selectChan] that waits on
    connections, [RW.tryRead] pops [v], takes a writer out of the pool and
    fails with a TypeError in the callback of the select, at the call of
    [disconet()].  It does not return [v]: the buffer is left with [rest]
    alone, nothing is pushed into the vacated slot, and no promise is
    settled. *)
Theorem tryRead_throws_on_a_select_armed_writer ch w rw ring v rest :
  chans w !! ch = Some rw → list_ rw = Some ring → Ring.wf ring →
  Ring.contents ring = v :: rest →
  Actions.length (w_actions (w_ rw)) ≠ 0 →
  (∀ a, a ∈ Actions.actions (w_actions (w_ rw)) → armed_by_select w a) →
  ∃ w' rw' ring',
    AsWritten.RW_tryRead ch w = (Throw TypeError, w') ∧
    chans w' !! ch = Some rw' ∧ list_ rw' = Some ring' ∧
    Ring.contents ring' = rest ∧
    Actions.length (w_actions (w_ rw')) < Actions.length (w_actions (w_ rw)) ∧
    promises w' = promises w.
Proof.
  intros Hch Hl Hwf Hc Hne Harmed.
  destruct (list_pop_head ch w rw ring v rest Hch Hl Hwf Hc)
    as (ring1 & Hpop & Hwf1 & Hc1 & Hlen1 & Hsz1).
  set (rw1 := set_list_ (λ _, Some ring1) rw) in *.
  set (w1 := set_chans <[ch := rw1]> w) in *.
  assert (Hch1 : chans w1 !! ch = Some rw1) by (simpl; by rewrite lookup_insert_eq).
  destruct (AsWritten_Writer_invoke_armed ch w1 rw1 Hch1 Hne)
    as (w' & rw' & Hinv & Hp' & Hch' & Hl' & Hlt); [exact Harmed|].
  exists w', rw', ring1. split_and!; try done.
  unfold AsWritten.RW_tryRead, Writer_isEmpty. munfold. rewrite Hch, Hl, Hpop. simpl.
  rewrite lookup_insert_eq. fold w1. simpl.
  destruct (Nat.eqb_spec (Actions.length (w_actions (w_ rw))) 0) as [He|He]; [done|].
  simpl. by rewrite Hinv.
Qed.

Lemma tryRead_throws_on_a_select_armed_writer_witness :
  ∃ w' rw' ring',
    AsWritten.RW_tryRead 0 select_write_over_full = (Throw TypeError, w') ∧
    chans w' !! 0 = Some rw' ∧ list_ rw' = Some ring' ∧
    Ring.contents ring' = [] ∧
    Actions.length (w_actions (w_ rw')) < 1 ∧
    promises w' !! 2 = Some Pending.
Proof.
  pose (rw := default (RW_create 0) (chans select_write_over_full !! 0)).
  pose (ring := default (Ring.create 0) (list_ rw)).
  destruct (tryRead_throws_on_a_select_armed_writer 0 select_write_over_full rw ring
              (VNum 99) [])
    as (w' & rw' & ring' & Hrd & Hch' & Hl' & Hc' & Hlen & Hp).
  - vm_compute; reflexivity.
  - vm_compute; reflexivity.
  - split; vm_compute; lia.
  - vm_compute; reflexivity.
  - vm_compute. lia.
  - replace (Actions.actions (w_actions (w_ rw))) with [3] by (vm_compute; reflexivity).
    intros a ->%list_elem_of_singleton.
    exists (Some 0), (VNum 100), 1, 2, [3], no_options.
    split_and!; [vm_compute; reflexivity|vm_compute; reflexivity|done].
  - exists w', rw', ring'. split_and!; try done. rewrite Hp. vm_compute; reflexivity.
Defined.

(** With the files as they stand, a listener that cancels connections
    fails at the call of [disconet()] and leaves the store as it was. *)
Lemma AsWritten_onAbort_cancels_nothing p w :
  cancels_connections w p → AsWritten.onAbort p w = (Throw TypeError, w).
Proof.
  unfold cancels_connections, AsWritten.onAbort. munfold.
  destruct (closures w !! p) as [[action opts|action opts|conns opts|s silent]|]; try done.
  intros Hne. by destruct conns.
Qed.

(** X15: with the files as they stand, aborting a signal cancels nothing.
    When the signal is not yet aborted and every listener subscribed to it
    belongs to a parked [read()], a parked [write()] or a [selectChan]
    waiting on at least one case, [abort(reason)] marks the signal aborted
    with its reason and changes nothing else in the store: every listener
    fails at the call of [disconet()] before it settles its promise, so
    the promises stay pending and the waiters stay parked. *)
Theorem abort_as_written_cancels_nothing s reason w sg :
  signals w !! s = Some sg → aborted sg = false →
  (∀ p, p ∈ listeners sg → cancels_connections w p) →
  AsWritten.AbortController_abort s reason w =
    set_signals <[s := {| aborted := true; sreason := reason; listeners := [] |}]> w.
Proof.
  intros Hs Ha Hl. unfold AsWritten.AbortController_abort. rewrite Hs, Ha.
  set (w0 := set_signals _ w).
  assert (Hc : closures w0 = closures w) by done.
  clearbody w0. induction (listeners sg) as [|p l IH]; [done|]. simpl.
  rewrite AsWritten_onAbort_cancels_nothing.
  - apply IH. intros q Hq. apply Hl. by right.
  - unfold cancels_connections. rewrite Hc. apply Hl. by left.
Qed.

Lemma abort_as_written_cancels_nothing_witness :
  let w' := AsWritten.AbortController_abort 1 (VStr "test-reason") read_parked_under_signal in
  w' = set_signals <[1 := {| aborted := true; sreason := VStr "test-reason"; listeners := [] |}]>
         read_parked_under_signal ∧
  promises w' !! 2 = Some Pending ∧
  (λ rw, Actions.actions (r_actions (r_ rw))) <$> chans w' !! 0 = Some [3].
Proof.
  pose (sg := default {| aborted := true; sreason := VNull; listeners := [] |}
                (signals read_parked_under_signal !! 1)).
  pose proof (abort_as_written_cancels_nothing 1 (VStr "test-reason")
                read_parked_under_signal sg) as H.
  cbv zeta. rewrite H.
  - split_and!; [reflexivity|vm_compute; reflexivity|vm_compute; reflexivity].
  - vm_compute; reflexivity.
  - vm_compute; reflexivity.
  - replace (listeners sg) with [2] by (vm_compute; reflexivity).
    intros p ->%list_elem_of_singleton. vm_compute. exact I.
Defined.
